(** * wasmjit: the single-pass x86-64 code generator (src/wasmjit/compile.c)

    A shallow embedding of [emit_br_code], [wasmjit_compile_instruction],
    [wasmjit_compile_instructions] and [wasmjit_compile_function], followed
    by a small semantics of the x86-64 instructions they emit, and the
    properties of the generated code. *)

From Stdlib Require Import ZArith List Lia Bool.
From stdpp Require Import base list.

Local Open Scope Z_scope.

(** ** Bytes, C string literals and immediates *)

(** A byte of the output buffer is an integer in [0, 256). *)
Definition is_byte (b : Z) : Prop := 0 <= b < 256.

(** [strlen]: the number of bytes before the first NUL of a literal. *)
Fixpoint strlen (str : list Z) : nat :=
  match str with
  | [] => O
  | c :: rest => if c =? 0 then O else S (strlen rest)
  end.

(** [le_bytes n v]: the [n] low bytes of [v], least significant first. *)
Fixpoint le_bytes (n : nat) (v : Z) : list Z :=
  match n with
  | O => []
  | S n' => v mod 256 :: le_bytes n' (v / 256)
  end.

(** Inverse reading of a little-endian byte sequence. *)
Fixpoint le_value (bs : list Z) : Z :=
  match bs with
  | [] => 0
  | b :: rest => b + 256 * le_value rest
  end.

(** Modelled from the spec: [uint32_t_swap_bytes] and [encode_le_uint64_t]
    are defined in util.h, which is not part of the sources; the spec (§3)
    says every immediate is written little-endian.  The argument is
    converted to [uint32_t] (resp. [uint64_t]) first, as in C. *)
Definition encode_le_uint32_t (val : Z) : list Z := le_bytes 4 (val mod 2 ^ 32).
Definition encode_le_uint64_t (val : Z) : list Z := le_bytes 8 (val mod 2 ^ 64).

(** [sign_extend bits v]: the signed reading of the low [bits] bits of [v]. *)
Definition sign_extend (bits : Z) (v : Z) : Z :=
  let m := v mod 2 ^ bits in
  if m <? 2 ^ (bits - 1) then m else m - 2 ^ bits.

Definition INT32_MAX : Z := 2 ^ 31 - 1.
Definition INT32_MIN : Z := - 2 ^ 31.
Definition SIZE_MAX : Z := 2 ^ 64 - 1.

(** [#define FUNC_EXIT_CONT SIZE_MAX] *)
Definition FUNC_EXIT_CONT : Z := SIZE_MAX.

(** [__builtin_mul_overflow] / [__builtin_add_overflow] into an [int32_t]:
    the exact result when it is representable, failure otherwise. *)
Definition to_int32 (v : Z) : option Z :=
  if (INT32_MIN <=? v) && (v <=? INT32_MAX) then Some v else None.

(** ** Data model *)

Inductive valtype :=
| VALTYPE_I32 | VALTYPE_I64 | VALTYPE_F32 | VALTYPE_F64 | VALTYPE_NULL.

Definition valtype_eqb (a b : valtype) : bool :=
  match a, b with
  | VALTYPE_I32, VALTYPE_I32 | VALTYPE_I64, VALTYPE_I64
  | VALTYPE_F32, VALTYPE_F32 | VALTYPE_F64, VALTYPE_F64
  | VALTYPE_NULL, VALTYPE_NULL => true
  | _, _ => false
  end.

(** The numeric values of the VALTYPE constants are declared in ast.h,
    which is not part of the sources: [valtype_code] is a parameter of the
    whole development.  The constants themselves are taken to be distinct
    (they are the case labels of the [switch] statements of the
    translator).  Nothing of the kind holds for STACK_LABEL, see below. *)
Class TypeCodes := mkTypeCodes { valtype_code : valtype -> Z }.

(** The codes of the WebAssembly binary format, for the examples. *)
Definition wasm_type_codes : TypeCodes :=
  {| valtype_code t :=
       match t with
       | VALTYPE_I32 => 0x7f | VALTYPE_I64 => 0x7e
       | VALTYPE_F32 => 0x7d | VALTYPE_F64 => 0x7c
       | VALTYPE_NULL => 0x40
       end |}.

(** [struct StackElt]: the tag is one of STACK_I32 .. STACK_F64 (the value
    types) or STACK_LABEL; only a label carries data. *)
Inductive StackElt :=
| STACK_VALUE (type : valtype)
| STACK_LABEL (arity : nat) (continuation_idx : Z).

Section Codes.

Context {codes : TypeCodes}.

(** [enum { STACK_I32 = VALTYPE_I32, STACK_I64 = VALTYPE_I64,
    STACK_F32 = VALTYPE_F32, STACK_F64 = VALTYPE_F64, STACK_LABEL }]: the
    tag of a label is the enumerator after STACK_F64, that is
    VALTYPE_F64 + 1, which may be the code of another value type (with
    the codes of the binary format it is the code of f32). *)
Definition STACK_LABEL_tag : Z := valtype_code VALTYPE_F64 + 1.

(** [elt.type == STACK_LABEL]: true of a label slot, and of a value slot
    whose type has the code of STACK_LABEL. *)
Definition is_label (e : StackElt) : bool :=
  match e with
  | STACK_LABEL _ _ => true
  | STACK_VALUE t => valtype_code t =? STACK_LABEL_tag
  end.

Definition STACK_I32 := STACK_VALUE VALTYPE_I32.
Definition STACK_I64 := STACK_VALUE VALTYPE_I64.
Definition STACK_F32 := STACK_VALUE VALTYPE_F32.
Definition STACK_F64 := STACK_VALUE VALTYPE_F64.

(** [struct BranchPointElt] *)
Record BranchPointElt := mkBranch {
  branch_offset : nat;
  bp_continuation_idx : Z
}.

(** [struct MemoryReferences] elements (compile.h). [mr_idx] is [None] where
    the code leaves the field unassigned (MEMREF_RESOLVE_INDIRECT_CALL). *)
Inductive memref_type :=
| MEMREF_FUNC | MEMREF_GLOBAL | MEMREF_MEM | MEMREF_TABLE | MEMREF_TYPE
| MEMREF_RESOLVE_INDIRECT_CALL.

Record MemoryReferenceElt := mkMemref {
  mr_type : memref_type;
  code_offset : nat;
  mr_idx : option Z
}.

(** [struct LocalsMD] *)
Record LocalsMD := mkLocalsMD {
  lmd_valtype : valtype;
  fp_offset : Z
}.

(** [struct FuncType]: FUNC_TYPE_N_OUTPUTS is the length of [output_types]. *)
Record FuncType := mkFuncType {
  input_types : list valtype;
  output_types : list valtype
}.

Definition FUNC_TYPE_N_OUTPUTS (ft : FuncType) : nat := length (output_types ft).

(** [struct ModuleTypes]: only the value type of a global is read. *)
Record ModuleTypes := mkModuleTypes {
  functypes : list FuncType;
  globaltypes : list valtype
}.

(** Field offsets of the runtime structures (runtime.h is not part of the
    sources): the compiler reads them through [offsetof]. *)
Record Layout := mkLayout {
  off_FuncInst_compiled_code : Z;
  off_GlobalInst_value : valtype -> Z;
  off_MemInst_size : Z;
  off_MemInst_data : Z
}.

(** Opcodes the translator has a case for; [OPCODE_OTHER] stands for every
    opcode that reaches the [default:] case. *)
Inductive opcode :=
| OPCODE_UNREACHABLE | OPCODE_NOP | OPCODE_BLOCK | OPCODE_LOOP | OPCODE_IF
| OPCODE_BR | OPCODE_BR_IF | OPCODE_BR_TABLE | OPCODE_RETURN
| OPCODE_CALL | OPCODE_CALL_INDIRECT | OPCODE_DROP
| OPCODE_GET_LOCAL | OPCODE_SET_LOCAL | OPCODE_TEE_LOCAL
| OPCODE_GET_GLOBAL | OPCODE_SET_GLOBAL
| OPCODE_I32_LOAD | OPCODE_I64_LOAD | OPCODE_F64_LOAD | OPCODE_I32_LOAD8_S
| OPCODE_I32_STORE | OPCODE_I64_STORE | OPCODE_F64_STORE
| OPCODE_I32_STORE8 | OPCODE_I32_STORE16
| OPCODE_I32_CONST | OPCODE_I64_CONST | OPCODE_F64_CONST
| OPCODE_I32_EQZ
| OPCODE_I32_EQ | OPCODE_I32_NE | OPCODE_I32_LT_S | OPCODE_I32_LT_U
| OPCODE_I32_GT_S | OPCODE_I32_GT_U | OPCODE_I32_LE_S | OPCODE_I32_LE_U
| OPCODE_I32_GE_S
| OPCODE_I64_EQ | OPCODE_I64_NE | OPCODE_I64_LT_S | OPCODE_I64_GT_U
| OPCODE_F64_EQ | OPCODE_F64_NE
| OPCODE_I32_SUB | OPCODE_I32_ADD | OPCODE_I32_MUL | OPCODE_I32_AND
| OPCODE_I32_OR | OPCODE_I32_XOR
| OPCODE_I64_ADD | OPCODE_I64_SUB | OPCODE_I64_MUL | OPCODE_I64_AND
| OPCODE_I64_OR
| OPCODE_I32_DIV_S | OPCODE_I32_DIV_U | OPCODE_I32_REM_S | OPCODE_I32_REM_U
| OPCODE_I64_DIV_S | OPCODE_I64_DIV_U | OPCODE_I64_REM_S | OPCODE_I64_REM_U
| OPCODE_I32_SHL | OPCODE_I32_SHR_S | OPCODE_I32_SHR_U
| OPCODE_I64_SHL | OPCODE_I64_SHR_S | OPCODE_I64_SHR_U
| OPCODE_F64_NEG | OPCODE_F64_ADD | OPCODE_F64_SUB | OPCODE_F64_MUL
| OPCODE_I32_WRAP_I64 | OPCODE_I32_TRUNC_U_F64 | OPCODE_I32_TRUNC_S_F64
| OPCODE_I64_EXTEND_S_I32 | OPCODE_I64_EXTEND_U_I32
| OPCODE_F64_CONVERT_S_I32 | OPCODE_F64_CONVERT_U_I32
| OPCODE_I64_REINTERPRET_F64 | OPCODE_F64_REINTERPRET_I64
| OPCODE_OTHER (code : Z).

(** [struct Instr]: the opcode and the member of the [data] union the
    translator reads for it.  Immediates are [uint32_t] unless noted; an
    f64 constant is carried as its 64-bit pattern. *)
#[warnings="-register-all"]
Inductive Instr :=
| Instr_plain (op : opcode)
| Instr_block (op : opcode) (blocktype : valtype) (instructions : list Instr)
| Instr_if (blocktype : valtype) (instructions_then instructions_else : list Instr)
| Instr_br (op : opcode) (labelidx : Z)
| Instr_br_table (labelidxs : list Z) (labelidx : Z)
| Instr_call (funcidx : Z)
| Instr_call_indirect (typeidx : Z)
| Instr_local (op : opcode) (localidx : Z)
| Instr_global (op : opcode) (globalidx : Z)
| Instr_loadstore (op : opcode) (align offset : Z)
| Instr_i32_const (value : Z)
| Instr_i64_const (value : Z)
| Instr_f64_const (bits : Z).

(** [struct CodeSectionCode] *)
Record CodeSectionCode := mkCode {
  locals : list (nat * valtype);   (* (count, valtype) *)
  code_instructions : list Instr
}.

(** ** Compiler state and the compilation monad *)

(** The five growable tables the translator mutates.  A label entry is
    [None] between [labels_grow] and its assignment. *)
Record cstate := mkState {
  output : list Z;
  labels : list (option nat);
  branches : list BranchPointElt;
  memrefs : list MemoryReferenceElt;
  sstack : list StackElt
}.

Definition set_output (f : list Z -> list Z) (s : cstate) : cstate :=
  mkState (f (output s)) (labels s) (branches s) (memrefs s) (sstack s).
Definition set_labels (f : list (option nat) -> list (option nat)) (s : cstate) : cstate :=
  mkState (output s) (f (labels s)) (branches s) (memrefs s) (sstack s).
Definition set_branches (f : list BranchPointElt -> list BranchPointElt) (s : cstate) : cstate :=
  mkState (output s) (labels s) (f (branches s)) (memrefs s) (sstack s).
Definition set_memrefs (f : list MemoryReferenceElt -> list MemoryReferenceElt) (s : cstate) : cstate :=
  mkState (output s) (labels s) (branches s) (f (memrefs s)) (sstack s).
Definition set_sstack (f : list StackElt -> list StackElt) (s : cstate) : cstate :=
  mkState (output s) (labels s) (branches s) (memrefs s) (f (sstack s)).

(** Every error exit of the translator is [assert(0)] and every violated
    [assert] aborts; [None] is that abort (and a read the C code performs
    out of bounds).  Allocation never fails in the model. *)
Definition M (A : Type) : Type := cstate -> option (A * cstate).

Definition ret {A} (a : A) : M A := fun s => Some (a, s).
Definition bind {A B} (m : M A) (k : A -> M B) : M B :=
  fun s => match m s with
           | Some (a, s') => k a s'
           | None => None
           end.
Definition fail {A} : M A := fun _ => None.
Definition gets {A} (f : cstate -> A) : M A := fun s => Some (f s, s).
Definition modify (f : cstate -> cstate) : M unit := fun s => Some (tt, f s).
Definition assert (b : bool) : M unit := if b then ret tt else fail.
Definition lift {A} (o : option A) : M A :=
  match o with Some a => ret a | None => fail end.
Definition when (b : bool) (m : M unit) : M unit := if b then m else ret tt.

Declare Scope cm_scope.
Delimit Scope cm_scope with cm.
Notation "x <- m ;; k" := (bind m (fun x => k))
  (at level 100, m at next level, right associativity) : cm_scope.
Notation "m ;; k" := (bind m (fun _ => k))
  (at level 100, right associativity) : cm_scope.
Local Open Scope cm_scope.

(** [output_buf(output, buf, n)] appends [n] bytes. *)
Definition output_buf (buf : list Z) : M unit :=
  modify (set_output (fun o => o ++ buf)).

(** [OUTS(str)]: [output_buf(output, str, strlen(str))].  The argument lists
    every byte of the C literal; only those before the first NUL are
    written. *)
Definition OUTS (str : list Z) : M unit := output_buf (take (strlen str) str).

(** [OUTB(b)]: one byte, asserted to be in [-128, 127]. *)
Definition OUTB (b : Z) : M unit :=
  assert ((b <=? 127) && (-128 <=? b)) ;; output_buf [b mod 256].

Definition output_n_elts : M nat := gets (fun s => length (output s)).

(** In-place store of [buf] at [&output->elts[idx]]; the bytes must lie
    inside the buffer. *)
Definition patch (idx : nat) (buf : list Z) (o : list Z) : list Z :=
  take idx o ++ buf ++ drop (idx + length buf) o.

Definition output_store (idx : nat) (buf : list Z) : M unit :=
  n <- output_n_elts ;;
  assert (idx + length buf <=? n)%nat ;;
  modify (set_output (patch idx buf)).

(** [push_stack], [peek_stack], [pop_stack] *)
Definition push_stack (type : valtype) : M unit :=
  assert (negb (valtype_eqb type VALTYPE_NULL)) ;;
  modify (set_sstack (fun st => st ++ [STACK_VALUE type])).

Definition peek_stack : M StackElt :=
  st <- gets sstack ;; lift (last st).

Definition pop_stack : M unit :=
  st <- gets sstack ;;
  assert (negb (length st =? 0)%nat) ;;
  modify (set_sstack (fun st => take (length st - 1) st)).

(** [a.type == b.type]: two value tags are equal when the types are; a
    label tag equals the tag of a value of the type, if there is one, whose
    code is that of STACK_LABEL. *)
Definition StackElt_eqb (a b : StackElt) : bool :=
  match a, b with
  | STACK_VALUE t, STACK_VALUE u => valtype_eqb t u
  | STACK_LABEL _ _, STACK_VALUE u => valtype_code u =? STACK_LABEL_tag
  | STACK_VALUE t, STACK_LABEL _ _ => valtype_code t =? STACK_LABEL_tag
  | STACK_LABEL _ _, STACK_LABEL _ _ => true
  end.

(** [assert(peek_stack(sstack) == type)] *)
Definition assert_peek (type : valtype) : M unit :=
  e <- peek_stack ;; assert (StackElt_eqb e (STACK_VALUE type)).

(** [stack_truncate(sstack, n)]; a length above the current one is not a
    truncation and is refused. *)
Definition stack_truncate (n : nat) : M unit :=
  st <- gets sstack ;;
  assert (n <=? length st)%nat ;;
  modify (set_sstack (take n)).

(** [stack_grow(sstack, 1)] followed by the three label assignments. *)
Definition push_label (arity : nat) (continuation_idx : Z) : M unit :=
  modify (set_sstack (fun st => st ++ [STACK_LABEL arity continuation_idx])).

(** [INC_LABELS()] *)
Definition INC_LABELS : M unit := modify (set_labels (fun l => l ++ [None])).

(** [labels->elts[label_idx] = v] *)
Definition set_label (label_idx : nat) (v : nat) : M unit :=
  l <- gets labels ;;
  assert (label_idx <? length l)%nat ;;
  modify (set_labels (fun l => <[label_idx := Some v]> l)).

(** [bp_grow(branches, 1)] and the two assignments. *)
Definition add_branch (off : nat) (continuation_idx : Z) : M unit :=
  modify (set_branches (fun b => b ++ [mkBranch off continuation_idx])).

(** [memrefs_grow(memrefs, 1)] and the assignments. *)
Definition add_memref (t : memref_type) (off : nat) (idx : option Z) : M unit :=
  modify (set_memrefs (fun m => m ++ [mkMemref t off idx])).

(** ** emit_br_code *)

(** The label search: [j = n_elts; while (j) { j -= 1; if (label) { if
    (!labelidx) break; labelidx--; } }].  Returns the final [j]. *)
Fixpoint br_walk (elts : list StackElt) (j : nat) (labelidx : Z) : nat :=
  match j with
  | O => O
  | S j' =>
      match elts !! j' with
      | Some e =>
          if is_label e
          then if labelidx =? 0 then j' else br_walk elts j' (labelidx - 1)
          else br_walk elts j' labelidx
      | None => br_walk elts j' labelidx
      end
  end.

(** [stack_shift] as the code computes it: the assertion
    [n_elts >= j + (olabelidx + 1) + arity], then the product with 8 stored
    into an [int32_t].  [olabelidx + 1] is [uint32_t] arithmetic. *)
Definition br_stack_shift (n_elts j : nat) (olabelidx : Z) (arity : nat) : option Z :=
  let l1 := (olabelidx + 1) mod 2 ^ 32 in
  if Z.of_nat j + l1 + Z.of_nat arity <=? Z.of_nat n_elts
  then to_int32 ((Z.of_nat n_elts - Z.of_nat j - l1 - Z.of_nat arity) * 8)
  else None.

Definition emit_br_code (labelidx : Z) : M unit :=
  st <- gets sstack ;;
  let j := br_walk st (length st) labelidx in
  (* sstack->elts[j].data.label: defined only for a label slot *)
  lbl <- lift (match st !! j with
               | Some (STACK_LABEL a c) => Some (a, c)
               | _ => None
               end) ;;
  let arity := fst lbl in
  let cont := snd lbl in
  stack_shift <- lift (br_stack_shift (length st) j labelidx arity) ;;
  when (negb (arity =? 0)%nat)
    (off <- lift (to_int32 ((Z.of_nat arity - 1) * 8)) ;;
     (* mov %rsp, %rsi *)
     OUTS [0x48; 0x89; 0xe6] ;;
     when (negb (arity - 1 =? 0)%nat)
       ((* add <(arity - 1) * 8>, %rsi *)
        OUTS [0x48; 0x03; 0x34; 0x25] ;;
        output_buf (encode_le_uint32_t off)) ;;
     (* mov %rsp, %rdi *)
     OUTS [0x48; 0x89; 0xe7] ;;
     when (negb (Z.of_nat arity - 1 + stack_shift =? 0))
       (si <- lift (to_int32 (off + stack_shift)) ;;
        OUTS [0x48; 0x81; 0xc7] ;;
        output_buf (encode_le_uint32_t si)) ;;
     (* mov <arity>, %rcx *)
     OUTS [0x48; 0xc7; 0xc1] ;;
     assert (Z.of_nat arity <=? INT32_MAX) ;;
     output_buf (encode_le_uint32_t (Z.of_nat arity)) ;;
     (* std *)
     OUTS [0xfd] ;;
     (* rep movsq *)
     OUTS [0x48; 0xa5]) ;;
  (* add <stack_shift * 8>, %rsp *)
  when (negb (stack_shift =? 0))
    (OUTS [0x48; 0x81; 0xc4] ;;
     output_buf (encode_le_uint32_t stack_shift)) ;;
  (* jmp <BRANCH POINT> *)
  je_offset_2 <- output_n_elts ;;
  OUTS [0xe9; 0x90; 0x90; 0x90; 0x90] ;;
  add_branch je_offset_2 cont.

(** ** wasmjit_compile_instruction *)

(** The placeholder of an 8-byte immediate that the loader overwrites. *)
Definition IMM64_PLACEHOLDER : list Z :=
  [0x90; 0x90; 0x90; 0x90; 0x90; 0x90; 0x90; 0x90].

(** [memmove(&elts[stack_idx], &elts[n_elts - arity], arity * sizeof elt)]
    followed by [stack_truncate(sstack, stack_idx + arity)]. *)
Definition shift_results (stack_idx arity : nat) : M unit :=
  st <- gets sstack ;;
  assert ((arity <=? length st) && (stack_idx + arity <=? length st))%nat ;;
  modify (set_sstack (fun st =>
    take stack_idx st ++ take arity (drop (length st - arity) st)
                      ++ drop (stack_idx + arity) st)) ;;
  stack_truncate (stack_idx + arity).

Definition block_arity (blocktype : valtype) : nat :=
  if valtype_eqb blocktype VALTYPE_NULL then 0%nat else 1%nat.

(** case OPCODE_BLOCK / OPCODE_LOOP; [body] is the recursive translation of
    the inner instructions. *)
Definition compile_block (op : opcode) (blocktype : valtype) (body : M unit) : M unit :=
  let arity := block_arity blocktype in
  label_idx <- gets (fun s => length (labels s)) ;;
  INC_LABELS ;;
  stack_idx <- gets (fun s => length (sstack s)) ;;
  push_label arity (Z.of_nat label_idx) ;;
  output_idx <- output_n_elts ;;
  body ;;
  (* shift stack results over label *)
  shift_results stack_idx arity ;;
  match op with
  | OPCODE_BLOCK => n <- output_n_elts ;; set_label label_idx n
  | OPCODE_LOOP => set_label label_idx output_idx
  | _ => fail
  end.

(** The jump fix-up shared by the two branches of [if]:
    [off = n_elts - off; encode_le_uint32_t(off - 4, &elts[n_elts - off])]. *)
Definition fixup_forward_jump (jump_offset : nat) : M unit :=
  n <- output_n_elts ;;
  assert (jump_offset <=? n)%nat ;;
  let d := (n - jump_offset)%nat in
  output_store (n - d) (encode_le_uint32_t (Z.of_nat d - 4)).

(** case OPCODE_IF *)
Definition compile_if (blocktype : valtype) (has_else : bool)
    (body_then body_else : M unit) : M unit :=
  (* test top of stack *)
  assert_peek VALTYPE_I32 ;;
  pop_stack ;;
  (* pop %rax *)
  OUTS [0x58] ;;
  (* test %eax, %eax *)
  OUTS [0x85; 0xc0] ;;
  n0 <- output_n_elts ;;
  let jump_to_else_offset := (n0 + 2)%nat in
  (* je else_offset *)
  OUTS [0x0f; 0x84; 0x90; 0x90; 0x90; 0x90] ;;
  label_idx <- gets (fun s => length (labels s)) ;;
  INC_LABELS ;;
  let arity := block_arity blocktype in
  stack_idx <- gets (fun s => length (sstack s)) ;;
  push_label arity (Z.of_nat label_idx) ;;
  body_then ;;
  n1 <- output_n_elts ;;
  let jump_to_after_else_offset := (n1 + 1)%nat in
  (* jmp after_else_offset *)
  when has_else (OUTS [0xe9; 0x90; 0x90; 0x90; 0x90]) ;;
  (* fix up jump_to_else_offset *)
  fixup_forward_jump jump_to_else_offset ;;
  when has_else
    (body_else ;;
     (* fix up jump_to_after_else_offset *)
     fixup_forward_jump jump_to_after_else_offset) ;;
  (* shift stack results over label *)
  shift_results stack_idx arity ;;
  (* set labels position *)
  n <- output_n_elts ;;
  set_label label_idx n.

(** case OPCODE_BR_IF / OPCODE_BR *)
Definition compile_br (op : opcode) (labelidx : Z) : M unit :=
  match op with
  | OPCODE_BR_IF =>
      (* pop %rsi *)
      assert_peek VALTYPE_I32 ;;
      pop_stack ;;
      OUTS [0x5e] ;;
      (* testl %esi, %esi *)
      OUTS [0x85; 0xf6] ;;
      (* je AFTER_BR *)
      je_offset <- output_n_elts ;;
      OUTS [0x74; 0x01] ;;
      emit_br_code labelidx ;;
      (* update je operand in previous if block *)
      n <- output_n_elts ;;
      let offset := (n - je_offset - 2)%nat in
      assert ((offset <? 128) && (0 <? offset))%nat ;;
      output_store je_offset [0x74; Z.of_nat offset]
  | OPCODE_BR => emit_br_code labelidx
  | _ => fail
  end.

(** The first loop of the branch table: one 4-byte slot per label. *)
Fixpoint br_table_slots (n : nat) : M unit :=
  match n with
  | O => ret tt
  | S n' => OUTS [0x90; 0x90; 0x90; 0x90] ;; br_table_slots n'
  end.

(** The second loop: fill slot [i], emit the branch and the jump to the end;
    returns the [end_jumps] array. *)
Fixpoint br_table_branches (table_offset : nat) (i : nat) (labelidxs : list Z)
    : M (list nat) :=
  match labelidxs with
  | [] => ret []
  | l :: rest =>
      (* store ip offset *)
      n <- output_n_elts ;;
      output_store (table_offset + i * 4)
        (encode_le_uint32_t (Z.of_nat n - Z.of_nat table_offset)) ;;
      (* output branch *)
      emit_br_code l ;;
      (* output jmp to end *)
      OUTS [0xe9; 0x90; 0x90; 0x90; 0x90] ;;
      e <- output_n_elts ;;
      es <- br_table_branches table_offset (S i) rest ;;
      ret (e :: es)
  end.

(** The last loop: store ip offsets of end. *)
Fixpoint br_table_ends (end_jumps : list nat) : M unit :=
  match end_jumps with
  | [] => ret tt
  | e :: rest =>
      n <- output_n_elts ;;
      output_store (e - 4) (encode_le_uint32_t (Z.of_nat n - Z.of_nat e)) ;;
      br_table_ends rest
  end.

(** case OPCODE_BR_TABLE *)
Definition compile_br_table (labelidxs : list Z) (labelidx : Z) : M unit :=
  (* pop %rax *)
  OUTS [0x58] ;;
  pop_stack ;;
  (* cmp $const, %eax *)
  OUTS [0x48; 0x3d] ;;
  output_buf (encode_le_uint32_t (Z.of_nat (length labelidxs))) ;;
  (* jae default_branch *)
  OUTS [0x0f; 0x83; 0x90; 0x90; 0x90; 0x90] ;;
  default_branch_offset <- output_n_elts ;;
  (* lea 9(%rip), %rdx *)
  OUTS [0x48; 0x8d; 0x15; 0x09; 0x00; 0x00; 0x00] ;;
  (* movsxl (%rdx, %rax, 4), %rax *)
  OUTS [0x48; 0x63; 0x04; 0x82] ;;
  (* add %rdx, %rax *)
  OUTS [0x48; 0x01; 0xd0] ;;
  (* jmp *%rax *)
  OUTS [0xff; 0xe0] ;;
  (* output nop for each branch *)
  table_offset <- output_n_elts ;;
  br_table_slots (length labelidxs) ;;
  end_jumps <- br_table_branches table_offset 0 labelidxs ;;
  (* store ip offset, output default branch *)
  n <- output_n_elts ;;
  output_store (default_branch_offset - 4)
    (encode_le_uint32_t (Z.of_nat n - Z.of_nat default_branch_offset)) ;;
  emit_br_code labelidx ;;
  br_table_ends end_jumps.

(** Argument marshalling of a call: the register tables. *)
Definition call_movs : list (list Z) :=
  [ [0x48; 0x8b; 0xbc; 0x24];  (* mov N(%rsp), %rdi *)
    [0x48; 0x8b; 0xb4; 0x24];  (* mov N(%rsp), %rsi *)
    [0x48; 0x8b; 0x94; 0x24];  (* mov N(%rsp), %rdx *)
    [0x48; 0x8b; 0x8c; 0x24];  (* mov N(%rsp), %rcx *)
    [0x4c; 0x8b; 0x84; 0x24];  (* mov N(%rsp), %r8 *)
    [0x4c; 0x8b; 0x8c; 0x24] ] (* mov N(%rsp), %r9 *).

Definition call_f32_movs : list (list Z) :=
  [ [0xf3; 0x0f; 0x10; 0x84; 0x24]; [0xf3; 0x0f; 0x10; 0x8c; 0x24];
    [0xf3; 0x0f; 0x10; 0x94; 0x24]; [0xf3; 0x0f; 0x10; 0x9c; 0x24];
    [0xf3; 0x0f; 0x10; 0xa4; 0x24]; [0xf3; 0x0f; 0x10; 0xac; 0x24];
    [0xf3; 0x0f; 0x10; 0xb4; 0x24]; [0xf3; 0x0f; 0x10; 0xbc; 0x24] ].

Definition call_f64_movs : list (list Z) :=
  [ [0xf2; 0x0f; 0x10; 0x84; 0x24]; [0xf2; 0x0f; 0x10; 0x8c; 0x24];
    [0xf2; 0x0f; 0x10; 0x94; 0x24]; [0xf2; 0x0f; 0x10; 0x9c; 0x24];
    [0xf2; 0x0f; 0x10; 0xa4; 0x24]; [0xf2; 0x0f; 0x10; 0xac; 0x24];
    [0xf2; 0x0f; 0x10; 0xb4; 0x24]; [0xf2; 0x0f; 0x10; 0xbc; 0x24] ].

(** Where a parameter of type [t] travels, given the registers used so
    far: the four-way test repeated in the call loops and in the frame
    layout of the function driver. *)
Inductive arg_class := ARG_GPR | ARG_F32 | ARG_F64 | ARG_STACK.

Definition is_int_type (t : valtype) : bool :=
  valtype_eqb t VALTYPE_I32 || valtype_eqb t VALTYPE_I64.

Definition classify_arg (t : valtype) (n_movs n_xmm_movs : nat) : arg_class :=
  if is_int_type t && (n_movs <? 6)%nat then ARG_GPR
  else if valtype_eqb t VALTYPE_F32 && (n_xmm_movs <? 8)%nat then ARG_F32
  else if valtype_eqb t VALTYPE_F64 && (n_xmm_movs <? 8)%nat then ARG_F64
  else ARG_STACK.

(** "add stack contribution from spilled arguments" *)
Fixpoint call_stack_args (inputs : list valtype) (n_movs n_xmm_movs : nat) : nat :=
  match inputs with
  | [] => O
  | t :: rest =>
      match classify_arg t n_movs n_xmm_movs with
      | ARG_GPR => call_stack_args rest (S n_movs) n_xmm_movs
      | ARG_F32 | ARG_F64 => call_stack_args rest n_movs (S n_xmm_movs)
      | ARG_STACK => S (call_stack_args rest n_movs n_xmm_movs)
      end
  end.

(** The marshalling loop; returns the final [n_stack]. *)
Fixpoint call_marshal (n_inputs : nat) (aligned : Z) (inputs : list valtype)
    (i n_movs n_xmm_movs n_stack : nat) : M nat :=
  match inputs with
  | [] => ret n_stack
  | t :: rest =>
      st <- gets sstack ;;
      assert (n_inputs <=? length st)%nat ;;
      e <- lift (st !! (length st - n_inputs + i)%nat) ;;
      assert (StackElt_eqb e (STACK_VALUE t)) ;;
      let stack_offset :=
        (Z.of_nat n_inputs - Z.of_nat i - 1 + Z.of_nat n_stack + aligned) * 8 in
      match classify_arg t n_movs n_xmm_movs with
      | ARG_GPR =>
          m <- lift (call_movs !! n_movs) ;;
          OUTS m ;;
          output_buf (encode_le_uint32_t stack_offset) ;;
          call_marshal n_inputs aligned rest (S i) (S n_movs) n_xmm_movs n_stack
      | ARG_F32 =>
          m <- lift (call_f32_movs !! n_xmm_movs) ;;
          OUTS m ;;
          output_buf (encode_le_uint32_t stack_offset) ;;
          call_marshal n_inputs aligned rest (S i) n_movs (S n_xmm_movs) n_stack
      | ARG_F64 =>
          m <- lift (call_f64_movs !! n_xmm_movs) ;;
          OUTS m ;;
          output_buf (encode_le_uint32_t stack_offset) ;;
          call_marshal n_inputs aligned rest (S i) n_movs (S n_xmm_movs) n_stack
      | ARG_STACK =>
          let stack_offset :=
            (Z.of_nat i - (Z.of_nat n_inputs - 1) + Z.of_nat n_stack + aligned) * 8 in
          (* push N(%rsp) *)
          OUTS [0xff; 0xb4; 0x24] ;;
          output_buf (encode_le_uint32_t stack_offset) ;;
          call_marshal n_inputs aligned rest (S i) n_movs n_xmm_movs (S n_stack)
      end
  end.

Definition count_values (st : list StackElt) : nat :=
  length (filter (fun e => is_label e = false) st).

Section Translator.

Variable layout : Layout.
Variable func_types : list FuncType.
Variable module_types : ModuleTypes.
Variable type : FuncType.
Variable locals_md : list LocalsMD.
Variable n_locals : nat.
Variable n_frame_locals : nat.

(** case OPCODE_RETURN *)
Definition compile_return : M unit :=
  when (negb (FUNC_TYPE_N_OUTPUTS type =? 0)%nat)
    ((* lea (arity - 1)*8(%rsp), %rsi *)
     OUTS [0x48; 0x8d; 0x74; 0x24] ;;
     OUTB ((Z.of_nat (FUNC_TYPE_N_OUTPUTS type) - 1) * 8) ;;
     (* lea (-8 * n_frame_locals)(%rbp), %rdi *)
     OUTS [0x48; 0x8d; 0xbd] ;;
     out <- lift (to_int32 ((Z.of_nat n_frame_locals + 1) * -8)) ;;
     output_buf (encode_le_uint32_t out) ;;
     (* mov $arity, %rcx *)
     OUTS [0x48; 0xc7; 0xc1] ;;
     output_buf (encode_le_uint32_t (Z.of_nat (FUNC_TYPE_N_OUTPUTS type))) ;;
     (* std *)
     OUTS [0xfd] ;;
     (* rep movsq *)
     OUTS [0x48; 0xa5]) ;;
  (* lea (arity + n_frame_locals)*-8(%rbp), %rsp *)
  OUTS [0x48; 0x8d; 0xa5] ;;
  out <- lift (to_int32
    ((Z.of_nat n_frame_locals + Z.of_nat (FUNC_TYPE_N_OUTPUTS type)) * -8)) ;;
  output_buf (encode_le_uint32_t out) ;;
  (* jmp <EPILOGUE> *)
  n <- output_n_elts ;;
  add_branch n FUNC_EXIT_CONT ;;
  OUTS [0xe9; 0x90; 0x90; 0x90; 0x90].

(** case OPCODE_CALL / OPCODE_CALL_INDIRECT; [target] is the data of the
    instruction: [inl typeidx] for an indirect call, [inr funcidx]
    otherwise. *)
Definition compile_call (target : Z + Z) : M unit :=
  st0 <- gets sstack ;;
  (* add current stack depth *)
  let cur_stack_depth := (n_frame_locals + count_values st0)%nat in
  ft <- match target with
        | inl typeidx =>
            ft <- lift (func_types !! Z.to_nat typeidx) ;;
            assert_peek VALTYPE_I32 ;;
            pop_stack ;;
            (* mov $const, %rdi *)
            OUTS ([0x48; 0xbf] ++ IMM64_PLACEHOLDER) ;;
            n <- output_n_elts ;;
            add_memref MEMREF_TABLE (n - 8) (Some 0) ;;
            (* mov $const, %rsi *)
            OUTS ([0x48; 0xbe] ++ IMM64_PLACEHOLDER) ;;
            n <- output_n_elts ;;
            add_memref MEMREF_TYPE (n - 8) (Some typeidx) ;;
            (* pop %rdx *)
            OUTS [0x5a] ;;
            (* mov $const, %rax *)
            OUTS ([0x48; 0xb8] ++ IMM64_PLACEHOLDER) ;;
            n <- output_n_elts ;;
            add_memref MEMREF_RESOLVE_INDIRECT_CALL (n - 8) None ;;
            (* align to 16 bytes: sub $8, %rsp *)
            when (Nat.odd cur_stack_depth) (OUTS [0x48; 0x83; 0xec; 0x08]) ;;
            (* call *%rax *)
            OUTS [0xff; 0xd0] ;;
            (* add $8, %rsp *)
            when (Nat.odd cur_stack_depth) (OUTS [0x48; 0x83; 0xc4; 0x08]) ;;
            ret ft
        | inr fidx =>
            ft <- lift (functypes module_types !! Z.to_nat fidx) ;;
            (* movq $const, %rax *)
            n <- output_n_elts ;;
            add_memref MEMREF_FUNC (n + 2) (Some fidx) ;;
            OUTS ([0x48; 0xb8] ++ IMM64_PLACEHOLDER) ;;
            (* mov compiled_code_off(%rax), %rax *)
            OUTS [0x48; 0x8b; 0x40] ;;
            OUTB (off_FuncInst_compiled_code layout) ;;
            ret ft
        end ;;
  let n_inputs := length (input_types ft) in
  (* align stack to 16-byte boundary *)
  let cur_stack_depth :=
    (cur_stack_depth + call_stack_args (input_types ft) 0 0)%nat in
  let aligned := if Nat.odd cur_stack_depth then 1 else 0 in
  (* sub $8, %rsp *)
  when (Nat.odd cur_stack_depth) (OUTS [0x48; 0x83; 0xec; 0x08]) ;;
  n_stack <- call_marshal n_inputs aligned (input_types ft) 0 0 0 0 ;;
  (* call *%rax *)
  OUTS [0xff; 0xd0] ;;
  (* add (n_stack + n_inputs + aligned) * 8, %rsp *)
  OUTS [0x48; 0x81; 0xc4] ;;
  output_buf (encode_le_uint32_t
    ((Z.of_nat n_stack + Z.of_nat n_inputs + aligned) * 8)) ;;
  st <- gets sstack ;;
  assert (n_inputs <=? length st)%nat ;;
  stack_truncate (length st - n_inputs) ;;
  match output_types ft with
  | [] => ret tt
  | [t] =>
      (* movq %xmm0, %rax *)
      when (valtype_eqb t VALTYPE_F32 || valtype_eqb t VALTYPE_F64)
        (OUTS [0x66; 0x48; 0x0f; 0x7e; 0xc0]) ;;
      (* push %rax *)
      OUTS [0x50] ;;
      push_stack t
  | _ => fail
  end.

(** [locals_md[idx]] *)
Definition local_md (localidx : Z) : M LocalsMD :=
  lift (locals_md !! Z.to_nat localidx).

(** case OPCODE_GET_LOCAL / OPCODE_SET_LOCAL / OPCODE_TEE_LOCAL *)
Definition compile_local (op : opcode) (localidx : Z) : M unit :=
  match op with
  | OPCODE_GET_LOCAL =>
      assert (localidx <? Z.of_nat n_locals) ;;
      md <- local_md localidx ;;
      push_stack (lmd_valtype md) ;;
      (* push fp_offset(%rbp) *)
      OUTS [0xff; 0xb5] ;;
      output_buf (encode_le_uint32_t (fp_offset md))
  | OPCODE_SET_LOCAL =>
      md <- local_md localidx ;;
      assert_peek (lmd_valtype md) ;;
      (* pop fp_offset(%rbp) *)
      OUTS [0x8f; 0x85] ;;
      output_buf (encode_le_uint32_t (fp_offset md)) ;;
      pop_stack
  | OPCODE_TEE_LOCAL =>
      md <- local_md localidx ;;
      assert_peek (lmd_valtype md) ;;
      (* movq (%rsp), %rax: the literal is "\x48\\x85" *)
      OUTS [0x48; 0x5c; 0x78; 0x38; 0x35] ;;
      (* movq %rax, fp_offset(%rbp) *)
      OUTS [0x48; 0x89; 0x45] ;;
      output_buf (encode_le_uint32_t (fp_offset md))
  | _ => fail
  end.

(** case OPCODE_GET_GLOBAL / OPCODE_SET_GLOBAL *)
Definition compile_global (op : opcode) (gidx : Z) : M unit :=
  match op with
  | OPCODE_GET_GLOBAL =>
      (* movq $const, %rax *)
      OUTS ([0x48; 0xb8] ++ IMM64_PLACEHOLDER) ;;
      n <- output_n_elts ;;
      add_memref MEMREF_GLOBAL (n - 8) (Some gidx) ;;
      t <- lift (globaltypes module_types !! Z.to_nat gidx) ;;
      match t with
      | VALTYPE_I32 | VALTYPE_F32 =>
          (* mov offset(%rax), %eax *)
          OUTS [0x8b; 0x40] ;;
          OUTB (off_GlobalInst_value layout t)
      | VALTYPE_I64 | VALTYPE_F64 =>
          (* mov offset(%rax), %rax *)
          OUTS [0x48; 0x8b; 0x40] ;;
          OUTB (off_GlobalInst_value layout t)
      | VALTYPE_NULL => fail
      end ;;
      (* push %rax *)
      OUTS [0x50] ;;
      push_stack t
  | OPCODE_SET_GLOBAL =>
      t <- lift (globaltypes module_types !! Z.to_nat gidx) ;;
      (* pop %rdx *)
      OUTS [0x5a] ;;
      assert_peek t ;;
      pop_stack ;;
      (* movq $const, %rax *)
      OUTS ([0x48; 0xb8] ++ IMM64_PLACEHOLDER) ;;
      n <- output_n_elts ;;
      add_memref MEMREF_GLOBAL (n - 8) (Some gidx) ;;
      match t with
      | VALTYPE_I32 | VALTYPE_F32 =>
          (* mov %edx, offset(%rax) *)
          OUTS [0x89; 0x50] ;;
          OUTB (off_GlobalInst_value layout t)
      | VALTYPE_I64 | VALTYPE_F64 =>
          (* mov %rdx, offset(%rax) *)
          OUTS [0x48; 0x89; 0x50] ;;
          OUTB (off_GlobalInst_value layout t)
      | VALTYPE_NULL => fail
      end
  | _ => fail
  end.

(** The operand type asserted by the store opcodes, [None] for a load. *)
Definition store_operand (op : opcode) : option valtype :=
  match op with
  | OPCODE_I32_STORE | OPCODE_I32_STORE8 | OPCODE_I32_STORE16 => Some VALTYPE_I32
  | OPCODE_I64_STORE => Some VALTYPE_I64
  | OPCODE_F64_STORE => Some VALTYPE_F64
  | _ => None
  end.

Definition is_loadstore (op : opcode) : bool :=
  match op with
  | OPCODE_I32_LOAD | OPCODE_I64_LOAD | OPCODE_F64_LOAD | OPCODE_I32_LOAD8_S
  | OPCODE_I32_STORE | OPCODE_I64_STORE | OPCODE_F64_STORE
  | OPCODE_I32_STORE8 | OPCODE_I32_STORE16 => true
  | _ => false
  end.

(** The bounds check common to every load and store:
    "ea += memarg.offset + 4", "size = store->mems.elts[maddr].size",
    "if ea > size then trap()". *)
Definition compile_bounds_check (offset : Z) : M unit :=
  (* pop %rsi *)
  assert_peek VALTYPE_I32 ;;
  pop_stack ;;
  OUTS [0x5e] ;;
  when (negb ((4 + offset) mod 2 ^ 32 =? 0))
    ((* add <VAL>, %rsi *)
     OUTS [0x48; 0x81; 0xc6] ;;
     output_buf (encode_le_uint32_t (4 + offset))) ;;
  (* movq $const, %rax *)
  OUTS ([0x48; 0xb8] ++ IMM64_PLACEHOLDER) ;;
  n <- output_n_elts ;;
  add_memref MEMREF_MEM (n - 8) (Some 0) ;;
  (* mov size_offset(%rax), %rax *)
  OUTS [0x48; 0x8b; 0x40] ;;
  OUTB (off_MemInst_size layout) ;;
  (* cmp %rax, %rsi *)
  OUTS [0x48; 0x39; 0xc6] ;;
  (* jle AFTER_TRAP: int $4 *)
  OUTS [0x7e; 0x02; 0xcd; 0x04].

(** case OPCODE_I32_LOAD .. OPCODE_I32_STORE16 *)
Definition compile_loadstore (op : opcode) (offset : Z) : M unit :=
  assert (is_loadstore op) ;;
  match store_operand op with
  | Some t =>
      assert_peek t ;;
      pop_stack ;;
      (* pop rdi *)
      OUTS [0x5f]
  | None => ret tt
  end ;;
  compile_bounds_check offset ;;
  (* movq $const, %rax *)
  OUTS ([0x48; 0xb8] ++ IMM64_PLACEHOLDER) ;;
  n <- output_n_elts ;;
  add_memref MEMREF_MEM (n - 8) (Some 0) ;;
  (* mov data_off(%rax), %rax *)
  OUTS [0x48; 0x8b; 0x40] ;;
  OUTB (off_MemInst_data layout) ;;
  match op with
  | OPCODE_I32_LOAD8_S =>
      (* movsbl -4(%rax, %rsi), %eax *)
      OUTS [0x0f; 0xbe; 0x44; 0x30; 0xfc] ;;
      (* push %rax *)
      OUTS [0x50] ;;
      push_stack VALTYPE_I32
  | OPCODE_I32_LOAD =>
      (* movl -4(%rax, %rsi), %eax *)
      OUTS [0x8b; 0x44; 0x30; 0xfc] ;;
      OUTS [0x50] ;;
      push_stack VALTYPE_I32
  | OPCODE_I64_LOAD =>
      (* movq -4(%rax, %rsi), %rax *)
      OUTS [0x48; 0x8b; 0x44; 0x30; 0xfc] ;;
      OUTS [0x50] ;;
      push_stack VALTYPE_I64
  | OPCODE_F64_LOAD =>
      OUTS [0x48; 0x8b; 0x44; 0x30; 0xfc] ;;
      OUTS [0x50] ;;
      push_stack VALTYPE_F64
  | OPCODE_I32_STORE =>
      (* movl %edi, -4(%rax, %rsi) *)
      OUTS [0x89; 0x7c; 0x30; 0xfc]
  | OPCODE_I32_STORE8 =>
      (* movb %dil, -4(%rax, %rsi) *)
      OUTS [0x40; 0x88; 0x7c; 0x30; 0xfc]
  | OPCODE_I32_STORE16 =>
      (* movw %di, -4(%rax, %rsi) *)
      OUTS [0x66; 0x89; 0x7c; 0x30; 0xfc]
  | OPCODE_I64_STORE | OPCODE_F64_STORE =>
      (* movq %rdi, -4(%rax, %rsi) *)
      OUTS [0x48; 0x89; 0x7c; 0x30; 0xfc]
  | _ => fail
  end.

(** The operand type of the integer opcodes that share a case. *)
Definition is_i64_op (op : opcode) : bool :=
  match op with
  | OPCODE_I64_EQ | OPCODE_I64_NE | OPCODE_I64_LT_S | OPCODE_I64_GT_U
  | OPCODE_I64_ADD | OPCODE_I64_SUB | OPCODE_I64_MUL | OPCODE_I64_AND
  | OPCODE_I64_OR
  | OPCODE_I64_DIV_S | OPCODE_I64_DIV_U | OPCODE_I64_REM_S | OPCODE_I64_REM_U
  | OPCODE_I64_SHL | OPCODE_I64_SHR_S | OPCODE_I64_SHR_U => true
  | _ => false
  end.

Definition int_stack_type (op : opcode) : valtype :=
  if is_i64_op op then VALTYPE_I64 else VALTYPE_I32.

(** [if (stack_type == STACK_I64) OUTS("\x48");] *)
Definition rexw (op : opcode) : M unit := when (is_i64_op op) (OUTS [0x48]).

(** case OPCODE_I32_EQ .. OPCODE_I64_GT_U *)
Definition compile_compare (op : opcode) : M unit :=
  setcc <- lift (match op with
                 | OPCODE_I32_EQ | OPCODE_I64_EQ => Some [0x0f; 0x94; 0xc0] (* sete %al *)
                 | OPCODE_I32_NE | OPCODE_I64_NE => Some [0x0f; 0x95; 0xc0]
                 | OPCODE_I32_LT_S | OPCODE_I64_LT_S => Some [0x0f; 0x9c; 0xc0] (* setl *)
                 | OPCODE_I32_LT_U => Some [0x0f; 0x92; 0xc0] (* setb *)
                 | OPCODE_I32_GT_S => Some [0x0f; 0x9f; 0xc0] (* setg *)
                 | OPCODE_I32_GT_U | OPCODE_I64_GT_U => Some [0x0f; 0x97; 0xc0] (* seta *)
                 | OPCODE_I32_LE_S => Some [0x0f; 0x9e; 0xc0] (* setle *)
                 | OPCODE_I32_LE_U => Some [0x0f; 0x96; 0xc0] (* setbe *)
                 | OPCODE_I32_GE_S => Some [0x0f; 0x9d; 0xc0] (* setge *)
                 | _ => None
                 end) ;;
  assert_peek (int_stack_type op) ;;
  pop_stack ;;
  assert_peek (int_stack_type op) ;;
  pop_stack ;;
  (* popq %rdi *)
  OUTS [0x5f] ;;
  (* xor %(e|r)ax, %(e|r)ax *)
  rexw op ;;
  OUTS [0x31; 0xc0] ;;
  (* cmp %(r|e)di, (%rsp) *)
  rexw op ;;
  OUTS [0x39; 0x3c; 0x24] ;;
  OUTS setcc ;;
  (* mov %(r|e)ax, (%rsp) *)
  rexw op ;;
  OUTS [0x89; 0x04; 0x24] ;;
  push_stack VALTYPE_I32.

(** case OPCODE_F64_EQ / OPCODE_F64_NE *)
Definition compile_f64_compare (op : opcode) : M unit :=
  assert (match op with OPCODE_F64_EQ | OPCODE_F64_NE => true | _ => false end) ;;
  assert_peek VALTYPE_F64 ;;
  pop_stack ;;
  assert_peek VALTYPE_F64 ;;
  pop_stack ;;
  (* movsd (%rsp), %xmm0 *)
  OUTS [0xf2; 0x0f; 0x10; 0x04; 0x24] ;;
  (* add $8, %rsp *)
  OUTS [0x48; 0x83; 0xc4; 0x08] ;;
  (* xor %eax, %eax *)
  OUTS [0x31; 0xc0] ;;
  match op with
  | OPCODE_F64_EQ => (* xor %edx, %edx *) OUTS [0x31; 0xd2]
  | _ => (* mov $1, %edx *) OUTS [0xba; 0x01; 0x00; 0x00; 0x00]
  end ;;
  (* ucomisd (%rsp), %xmm0 *)
  OUTS [0x66; 0x0f; 0x2e; 0x04; 0x24] ;;
  match op with
  | OPCODE_F64_EQ =>
      (* setnp %al *) OUTS [0x0f; 0x9b; 0xc0] ;;
      (* cmovne %edx, %eax *) OUTS [0x0f; 0x45; 0xc2]
  | _ =>
      (* setp %al *) OUTS [0x0f; 0x9a; 0xc0] ;;
      (* cmovne %edx, %eax *) OUTS [0x0f; 0x45; 0xc2]
  end ;;
  (* mov %rax, (%rsp) *)
  OUTS [0x48; 0x89; 0x04; 0x24] ;;
  push_stack VALTYPE_I32.

(** case OPCODE_I32_SUB .. OPCODE_I64_OR *)
Definition compile_arith (op : opcode) : M unit :=
  assert (match op with
          | OPCODE_I32_SUB | OPCODE_I32_ADD | OPCODE_I32_MUL | OPCODE_I32_AND
          | OPCODE_I32_OR | OPCODE_I32_XOR | OPCODE_I64_ADD | OPCODE_I64_SUB
          | OPCODE_I64_MUL | OPCODE_I64_AND | OPCODE_I64_OR => true
          | _ => false
          end) ;;
  (* popq %rax *)
  assert_peek (int_stack_type op) ;;
  pop_stack ;;
  OUTS [0x58] ;;
  assert_peek (int_stack_type op) ;;
  rexw op ;;
  match op with
  | OPCODE_I32_SUB | OPCODE_I64_SUB =>
      (* sub %(r|e)ax,(%rsp) *) OUTS [0x29; 0x04; 0x24]
  | OPCODE_I64_ADD | OPCODE_I32_ADD =>
      (* add %eax,(%rsp) *) OUTS [0x01; 0x04; 0x24]
  | OPCODE_I32_MUL | OPCODE_I64_MUL =>
      (* mul(q|l) (%rsp) *)
      OUTS [0xf7; 0x24; 0x24] ;;
      rexw op ;;
      (* mov %(r|e)ax,(%rsp) *)
      OUTS [0x89; 0x04; 0x24]
  | OPCODE_I32_AND | OPCODE_I64_AND =>
      (* and %eax,(%rsp) *) OUTS [0x21; 0x04; 0x24]
  | OPCODE_I32_OR | OPCODE_I64_OR =>
      (* or %eax,(%rsp) *) OUTS [0x09; 0x04; 0x24]
  | OPCODE_I32_XOR =>
      (* xor %eax,(%rsp) *) OUTS [0x31; 0x04; 0x24]
  | _ => fail
  end.

(** case OPCODE_I32_DIV_S .. OPCODE_I64_REM_U *)
Definition compile_divrem (op : opcode) : M unit :=
  signed <- lift (match op with
                  | OPCODE_I32_DIV_S | OPCODE_I32_REM_S
                  | OPCODE_I64_DIV_S | OPCODE_I64_REM_S => Some true
                  | OPCODE_I32_DIV_U | OPCODE_I32_REM_U
                  | OPCODE_I64_DIV_U | OPCODE_I64_REM_U => Some false
                  | _ => None
                  end) ;;
  assert_peek (int_stack_type op) ;;
  pop_stack ;;
  assert_peek (int_stack_type op) ;;
  (* pop %rdi *)
  OUTS [0x5f] ;;
  (* mov (%rsp), %(r|e)ax *)
  rexw op ;;
  OUTS [0x8b; 0x04; 0x24] ;;
  rexw op ;;
  (if signed : bool then
     (* cld|cqto *)
     OUTS [0x99] ;;
     (* idiv %(r|e)di *)
     rexw op ;;
     OUTS [0xf7; 0xff]
   else
     (* xor %(r|e)dx, %(r|e)dx *)
     OUTS [0x31; 0xd2] ;;
     (* div %(r|e)di *)
     rexw op ;;
     OUTS [0xf7; 0xf7]) ;;
  rexw op ;;
  match op with
  | OPCODE_I32_REM_S | OPCODE_I32_REM_U | OPCODE_I64_REM_S | OPCODE_I64_REM_U =>
      (* mov %(r|e)dx, (%rsp) *) OUTS [0x89; 0x14; 0x24]
  | _ =>
      (* mov %(e|r)ax, (%rsp) *) OUTS [0x89; 0x04; 0x24]
  end.

(** case OPCODE_I32_SHL .. OPCODE_I64_SHR_U *)
Definition compile_shift (op : opcode) : M unit :=
  code <- lift (match op with
                | OPCODE_I32_SHL | OPCODE_I64_SHL =>
                    (* shl(l|q) %cl,(%rsp): the literal is "\xd3x24\x24" *)
                    Some [0xd3; 0x78; 0x32; 0x34; 0x24]
                | OPCODE_I32_SHR_S | OPCODE_I64_SHR_S =>
                    (* sar(l|q) %cl, (%rsp) *) Some [0xd3; 0x3c; 0x24]
                | OPCODE_I32_SHR_U | OPCODE_I64_SHR_U =>
                    (* shr(l|q) %cl, (%rsp) *) Some [0xd3; 0x2c; 0x24]
                | _ => None
                end) ;;
  (* pop %rcx *)
  OUTS [0x59] ;;
  assert_peek (int_stack_type op) ;;
  pop_stack ;;
  assert_peek (int_stack_type op) ;;
  rexw op ;;
  OUTS code.

(** case OPCODE_F64_ADD / OPCODE_F64_SUB / OPCODE_F64_MUL *)
Definition compile_f64_arith (op : opcode) : M unit :=
  code <- lift (match op with
                | OPCODE_F64_ADD => (* addsd (%rsp), %xmm0 *)
                    Some [0xf2; 0x0f; 0x58; 0x04; 0x24]
                | OPCODE_F64_SUB => (* subsd (%rsp), %xmm0 *)
                    Some [0xf2; 0x0f; 0x5c; 0x04; 0x24]
                | OPCODE_F64_MUL => (* mulsd (%rsp), %xmm0 *)
                    Some [0xf2; 0x0f; 0x59; 0x47; 0x08]
                | _ => None
                end) ;;
  assert_peek VALTYPE_F64 ;;
  pop_stack ;;
  assert_peek VALTYPE_F64 ;;
  (* movsd (%rsp), %xmm0 *)
  OUTS [0xf2; 0x0f; 0x10; 0x07] ;;
  (* add $8, %rsp *)
  OUTS [0x48; 0x8d; 0x47; 0x08] ;;
  OUTS code ;;
  (* movsd %xmm0,(%rsp) *)
  OUTS [0xf2; 0x0f; 0x11; 0x04; 0x24].

(** The cases of the opcodes that carry no immediate. *)
Definition compile_plain (op : opcode) : M unit :=
  match op with
  | OPCODE_UNREACHABLE =>
      (* ud2: the literal is "\x0f\0b" *)
      OUTS [0x0f; 0x00; 0x62]
  | OPCODE_NOP => ret tt
  | OPCODE_RETURN => compile_return
  | OPCODE_DROP =>
      (* add $8, %rsp *)
      OUTS [0x48; 0x83; 0xc4; 0x08] ;;
      pop_stack
  | OPCODE_I32_EQZ =>
      assert_peek VALTYPE_I32 ;;
      (* xor %eax, %eax *)
      OUTS [0x31; 0xc0] ;;
      (* cmpl $0, (%rsp) *)
      OUTS [0x83; 0x3c; 0x24; 0x00] ;;
      (* sete %al *)
      OUTS [0x0f; 0x94; 0xc0] ;;
      (* mov %eax, (%rsp) *)
      OUTS [0x89; 0x04; 0x24]
  | OPCODE_I32_EQ | OPCODE_I32_NE | OPCODE_I32_LT_S | OPCODE_I32_LT_U
  | OPCODE_I32_GT_S | OPCODE_I32_GT_U | OPCODE_I32_LE_S | OPCODE_I32_LE_U
  | OPCODE_I32_GE_S
  | OPCODE_I64_EQ | OPCODE_I64_NE | OPCODE_I64_LT_S | OPCODE_I64_GT_U =>
      compile_compare op
  | OPCODE_F64_EQ | OPCODE_F64_NE => compile_f64_compare op
  | OPCODE_I32_SUB | OPCODE_I32_ADD | OPCODE_I32_MUL | OPCODE_I32_AND
  | OPCODE_I32_OR | OPCODE_I32_XOR | OPCODE_I64_ADD | OPCODE_I64_SUB
  | OPCODE_I64_MUL | OPCODE_I64_AND | OPCODE_I64_OR => compile_arith op
  | OPCODE_I32_DIV_S | OPCODE_I32_DIV_U | OPCODE_I32_REM_S | OPCODE_I32_REM_U
  | OPCODE_I64_DIV_S | OPCODE_I64_DIV_U | OPCODE_I64_REM_S | OPCODE_I64_REM_U =>
      compile_divrem op
  | OPCODE_I32_SHL | OPCODE_I32_SHR_S | OPCODE_I32_SHR_U
  | OPCODE_I64_SHL | OPCODE_I64_SHR_S | OPCODE_I64_SHR_U => compile_shift op
  | OPCODE_F64_NEG =>
      assert_peek VALTYPE_F64 ;;
      (* btcq $0x3f,(%rsp) *)
      OUTS [0x48; 0x0f; 0xba; 0x3c; 0x24; 0x3f]
  | OPCODE_F64_ADD | OPCODE_F64_SUB | OPCODE_F64_MUL => compile_f64_arith op
  | OPCODE_I32_WRAP_I64 =>
      assert_peek VALTYPE_I64 ;;
      pop_stack ;;
      (* mov $0xffffffff,%eax *)
      OUTS [0xb8; 0xff; 0xff; 0xff; 0xff] ;;
      (* and %rax,(%rdi) *)
      OUTS [0x48; 0x21; 0x07] ;;
      push_stack VALTYPE_I32
  | OPCODE_I32_TRUNC_U_F64 | OPCODE_I32_TRUNC_S_F64 =>
      assert_peek VALTYPE_F64 ;;
      pop_stack ;;
      (* cvttsd2si (%rsp), %eax *)
      OUTS [0xf2; 0x0f; 0x2c; 0x04; 0x24] ;;
      (* mov %rax, (%rsp) *)
      OUTS [0x48; 0x89; 0x04; 0x24] ;;
      push_stack VALTYPE_I32
  | OPCODE_I64_EXTEND_S_I32 =>
      assert_peek VALTYPE_I32 ;;
      pop_stack ;;
      (* movsxl (%rsp), %rax *)
      OUTS [0x48; 0x63; 0x04; 0x24] ;;
      (* mov %rax, (%rsp) *)
      OUTS [0x48; 0x89; 0x04; 0x24] ;;
      push_stack VALTYPE_I64
  | OPCODE_I64_EXTEND_U_I32 =>
      assert_peek VALTYPE_I32 ;;
      pop_stack ;;
      (* NB: don't need to do anything,
         we store 32-bits as zero-extended 64-bits *)
      push_stack VALTYPE_I64
  | OPCODE_F64_CONVERT_S_I32 =>
      assert_peek VALTYPE_I32 ;;
      pop_stack ;;
      (* cvtsi2sdl (%rsp),%xmm0 *)
      OUTS [0xf2; 0x0f; 0x2a; 0x04; 0x24] ;;
      (* movsd %xmm0,(%rsp) *)
      OUTS [0xf2; 0x0f; 0x11; 0x04; 0x24] ;;
      push_stack VALTYPE_F64
  | OPCODE_F64_CONVERT_U_I32 =>
      assert_peek VALTYPE_I32 ;;
      pop_stack ;;
      (* mov (%rsp), %eax *)
      OUTS [0x8b; 0x04; 0x24] ;;
      (* cvtsi2sd %rax,%xmm0 *)
      OUTS [0xf2; 0x48; 0x0f; 0x2a; 0xc0] ;;
      (* movsd %xmm0,(%rsp) *)
      OUTS [0xf2; 0x0f; 0x11; 0x04; 0x24] ;;
      push_stack VALTYPE_F64
  | OPCODE_I64_REINTERPRET_F64 =>
      assert_peek VALTYPE_F64 ;;
      pop_stack ;;
      (* no need to do anything *)
      push_stack VALTYPE_I64
  | OPCODE_F64_REINTERPRET_I64 =>
      assert_peek VALTYPE_I64 ;;
      pop_stack ;;
      (* no need to do anything *)
      push_stack VALTYPE_F64
  | _ => fail
  end.

(** [wasmjit_compile_instruction]: the [switch] on the opcode.  The inner
    lists of [block], [loop] and [if] are translated by the nested loop of
    [wasmjit_compile_instructions]. *)
Fixpoint wasmjit_compile_instruction (instruction : Instr) : M unit :=
  let compile_list :=
    fix compile_list (l : list Instr) : M unit :=
      match l with
      | [] => ret tt
      | i :: rest => wasmjit_compile_instruction i ;; compile_list rest
      end in
  match instruction with
  | Instr_plain op => compile_plain op
  | Instr_block op blocktype body =>
      match op with
      | OPCODE_BLOCK | OPCODE_LOOP => compile_block op blocktype (compile_list body)
      | _ => fail
      end
  | Instr_if blocktype body_then body_else =>
      compile_if blocktype (negb (length body_else =? 0)%nat)
        (compile_list body_then) (compile_list body_else)
  | Instr_br op labelidx => compile_br op labelidx
  | Instr_br_table labelidxs labelidx => compile_br_table labelidxs labelidx
  | Instr_call funcidx => compile_call (inr funcidx)
  | Instr_call_indirect typeidx => compile_call (inl typeidx)
  | Instr_local op localidx => compile_local op localidx
  | Instr_global op globalidx => compile_global op globalidx
  | Instr_loadstore op align offset => compile_loadstore op offset
  | Instr_i32_const value =>
      (* push $value *)
      OUTS [0x68] ;;
      output_buf (encode_le_uint32_t value) ;;
      push_stack VALTYPE_I32
  | Instr_i64_const value =>
      (* movq $value, %rax *)
      OUTS [0x48; 0xb8] ;;
      output_buf (encode_le_uint64_t value) ;;
      (* push %rax *)
      OUTS [0x50] ;;
      push_stack VALTYPE_I64
  | Instr_f64_const bits =>
      (* movq $value, %rax *)
      OUTS [0x48; 0xb8] ;;
      output_buf (encode_le_uint64_t bits) ;;
      (* push %rax *)
      OUTS [0x50] ;;
      push_stack VALTYPE_F64
  end.

(** [wasmjit_compile_instructions]: the loop over an instruction array. *)
Fixpoint wasmjit_compile_instructions (instructions : list Instr) : M unit :=
  match instructions with
  | [] => ret tt
  | i :: rest =>
      wasmjit_compile_instruction i ;; wasmjit_compile_instructions rest
  end.

End Translator.

(** ** wasmjit_compile_function *)

(** The frame slots of the parameters: the first loop of the driver.
    Returns the descriptors and the final [n_movs], [n_xmm_movs]. *)
Fixpoint param_locals (inputs : list valtype) (n_movs n_xmm_movs n_stack : nat)
    : option (list LocalsMD * nat * nat) :=
  match inputs with
  | [] => Some ([], n_movs, n_xmm_movs)
  | t :: rest =>
      match classify_arg t n_movs n_xmm_movs with
      | ARG_GPR =>
          let off := - (1 + Z.of_nat n_movs + Z.of_nat n_xmm_movs) * 8 in
          '(mds, a, b) ← param_locals rest (S n_movs) n_xmm_movs n_stack;
          Some (mkLocalsMD t off :: mds, a, b)
      | ARG_F32 | ARG_F64 =>
          let off := - (1 + Z.of_nat n_movs + Z.of_nat n_xmm_movs) * 8 in
          '(mds, a, b) ← param_locals rest n_movs (S n_xmm_movs) n_stack;
          Some (mkLocalsMD t off :: mds, a, b)
      | ARG_STACK =>
          si ← to_int32 (Z.of_nat n_stack * 8);
          si ← to_int32 (si + 2 * 8);
          '(mds, a, b) ← param_locals rest n_movs n_xmm_movs (S n_stack);
          Some (mkLocalsMD t si :: mds, a, b)
      end
  end.

(** The value types of the declared locals, in order. *)
Definition declared_types (ls : list (nat * valtype)) : list valtype :=
  concat (map (fun l => replicate (fst l) (snd l)) ls).

(** The frame slots of the declared locals: the second and third loops. *)
Fixpoint declared_locals (ts : list valtype) (i : nat) (n_regs : nat)
    : option (list LocalsMD) :=
  match ts with
  | [] => Some []
  | t :: rest =>
      let off := - (1 + Z.of_nat n_regs) * 8 in
      si ← to_int32 (-8 * Z.of_nat i);
      si ← to_int32 (si + off);
      mds ← declared_locals rest (S i) n_regs;
      Some (mkLocalsMD t si :: mds)
  end.

(** [locals_md], [n_locals] and [n_frame_locals]. *)
Definition frame_layout (type : FuncType) (code : CodeSectionCode)
    : option (list LocalsMD * nat * nat) :=
  '(params, n_movs, n_xmm_movs) ← param_locals (input_types type) 0 0 0;
  let ts := declared_types (locals code) in
  decls ← declared_locals ts 0 (n_movs + n_xmm_movs);
  let n_locals := (length (input_types type) + length ts)%nat in
  Some (params ++ decls, n_locals,
        (n_movs + n_xmm_movs + (n_locals - length (input_types type)))%nat).

Definition prologue_movs : list (list Z) :=
  [ [0x48; 0x89; 0x7d];  (* mov %rdi, N(%rbp) *)
    [0x48; 0x89; 0x75];  (* mov %rsi, N(%rbp) *)
    [0x48; 0x89; 0x55];  (* mov %rdx, N(%rbp) *)
    [0x48; 0x89; 0x4d];  (* mov %rcx, N(%rbp) *)
    [0x4c; 0x89; 0x45];  (* mov %r8, N(%rbp) *)
    [0x4c; 0x89; 0x4d] ] (* mov %r9, N(%rbp) *).

Definition prologue_f32_movs : list (list Z) :=
  [ [0xf3; 0x0f; 0x11; 0x45]; [0xf3; 0x0f; 0x11; 0x4d];
    [0xf3; 0x0f; 0x11; 0x55]; [0xf3; 0x0f; 0x11; 0x5d];
    [0xf3; 0x0f; 0x11; 0x65]; [0xf3; 0x0f; 0x11; 0x6d];
    [0xf3; 0x0f; 0x11; 0x75]; [0xf3; 0x0f; 0x11; 0x7d] ].

Definition prologue_f64_movs : list (list Z) :=
  [ [0xf2; 0x0f; 0x11; 0x45]; [0xf2; 0x0f; 0x11; 0x4d];
    [0xf2; 0x0f; 0x11; 0x55]; [0xf2; 0x0f; 0x11; 0x5d];
    [0xf2; 0x0f; 0x11; 0x65]; [0xf2; 0x0f; 0x11; 0x6d];
    [0xf2; 0x0f; 0x11; 0x75]; [0xf2; 0x0f; 0x11; 0x7d] ].

(** "push args to stack" *)
Fixpoint prologue_spill (params : list LocalsMD) (n_movs n_xmm_movs : nat) : M unit :=
  match params with
  | [] => ret tt
  | md :: rest =>
      if 0 <? fp_offset md then prologue_spill rest n_movs n_xmm_movs
      else if is_int_type (lmd_valtype md) then
        m <- lift (prologue_movs !! n_movs) ;;
        OUTS m ;;
        OUTB (fp_offset md) ;;
        prologue_spill rest (S n_movs) n_xmm_movs
      else
        m <- (if valtype_eqb (lmd_valtype md) VALTYPE_F32
              then lift (prologue_f32_movs !! n_xmm_movs)
              else assert (valtype_eqb (lmd_valtype md) VALTYPE_F64) ;;
                   lift (prologue_f64_movs !! n_xmm_movs)) ;;
        OUTS m ;;
        OUTB (fp_offset md) ;;
        prologue_spill rest n_movs (S n_xmm_movs)
  end.

(** "output prologue, i.e. create stack frame": the frame itself. *)
Definition prologue_frame (n_frame_locals : nat) : M unit :=
  (* push %rbp *)
  OUTS [0x55] ;;
  (* mov %rsp, %rbp *)
  OUTS [0x48; 0x89; 0xe5] ;;
  (* generate breakpoint on function entrance for now *)
  OUTS [0xcc] ;;
  (* sub $(8 * (n_frame_locals)), %rsp *)
  when (negb (n_frame_locals =? 0)%nat)
    (OUTS [0x48; 0x81; 0xec] ;;
     out <- lift (to_int32 (Z.of_nat n_frame_locals * 8)) ;;
     output_buf (encode_le_uint32_t out)).

(** "initialize and push locals to stack" *)
Definition prologue_init_locals (n_declared : nat) : M unit :=
  when (negb (n_declared =? 0)%nat)
    (if (n_declared =? 1)%nat then
       (* movq $0, (%rsp) *)
       output_buf [0x48; 0xc7; 0x04; 0x24; 0x00; 0x00; 0x00; 0x00]
     else
       (* mov %rsp, %rdi *)
       OUTS [0x48; 0x89; 0xe7] ;;
       (* xor %rax, %rax *)
       OUTS [0x48; 0x31; 0xc0] ;;
       (* mov $n_locals, %rcx *)
       OUTS [0x48; 0xc7; 0xc1] ;;
       assert (Z.of_nat n_declared <=? INT32_MAX) ;;
       output_buf (encode_le_uint32_t (Z.of_nat n_declared)) ;;
       (* cld *)
       OUTS [0xfc] ;;
       (* rep stosq *)
       OUTS [0xf3; 0x48; 0xab]).

(** The prologue: frame, spilled register parameters, zeroed locals. *)
Definition emit_prologue (params : list LocalsMD) (n_declared n_frame_locals : nat)
    : M unit :=
  prologue_frame n_frame_locals ;;
  prologue_spill params 0 0 ;;
  prologue_init_locals n_declared.

(** One iteration of "fix branch points". *)
Definition fix_branch (branch : BranchPointElt) : M unit :=
  n <- output_n_elts ;;
  l <- gets labels ;;
  continuation_offset <-
    (if bp_continuation_idx branch =? FUNC_EXIT_CONT then ret n
     else lift (mjoin (l !! Z.to_nat (bp_continuation_idx branch)))) ;;
  let rel := Z.of_nat continuation_offset - Z.of_nat (branch_offset branch) - 5 in
  output_store (branch_offset branch) (0xe9 :: encode_le_uint32_t rel).

Fixpoint fix_branches (bs : list BranchPointElt) : M unit :=
  match bs with
  | [] => ret tt
  | b :: rest => fix_branch b ;; fix_branches rest
  end.

(** "fix branch points" *)
Definition fix_branch_points : M unit :=
  bs <- gets branches ;; fix_branches bs.

(** "output epilogue": the result register. *)
Definition epilogue_result (type : FuncType) : M unit :=
  match output_types type with
  | [] => ret tt
  | [t] =>
      st <- gets sstack ;;
      assert (length st =? 1)%nat ;;
      assert_peek t ;;
      pop_stack ;;
      (* pop %rax *)
      OUTS [0x58]
  | _ => fail
  end.

(** "output epilogue": the frame. *)
Definition epilogue_frame (n_frame_locals : nat) : M unit :=
  (* add $(8 * (n_frame_locals)), %rsp *)
  when (negb (n_frame_locals =? 0)%nat)
    (OUTS [0x48; 0x81; 0xc4] ;;
     out <- lift (to_int32 (Z.of_nat n_frame_locals * 8)) ;;
     output_buf (encode_le_uint32_t out)) ;;
  (* pop %rbp *)
  OUTS [0x5d] ;;
  (* retq *)
  OUTS [0xc3].

Definition emit_epilogue (type : FuncType) (n_frame_locals : nat) : M unit :=
  epilogue_result type ;; epilogue_frame n_frame_locals.

(** The body of the driver after the frame layout is known. *)
Definition compile_function_body (layout : Layout) (func_types : list FuncType)
    (module_types : ModuleTypes) (type : FuncType) (code : CodeSectionCode)
    (locals_md : list LocalsMD) (n_locals n_frame_locals : nat) : M unit :=
  emit_prologue (take (length (input_types type)) locals_md)
    (n_locals - length (input_types type)) n_frame_locals ;;
  wasmjit_compile_instructions layout func_types module_types type
    locals_md n_locals n_frame_locals (code_instructions code) ;;
  fix_branch_points ;;
  emit_epilogue type n_frame_locals.

Definition initial_state (memrefs0 : list MemoryReferenceElt) : cstate :=
  mkState [] [] [] memrefs0 [].

(** [wasmjit_compile_function]: the code buffer and the relocation table,
    or [None] when compilation fails. *)
Definition wasmjit_compile_function (layout : Layout) (func_types : list FuncType)
    (module_types : ModuleTypes) (type : FuncType) (code : CodeSectionCode)
    (memrefs0 : list MemoryReferenceElt)
    : option (list Z * list MemoryReferenceElt) :=
  '(locals_md, n_locals, n_frame_locals) ← frame_layout type code;
  '(_, s) ← compile_function_body layout func_types module_types type code
              locals_md n_locals n_frame_locals (initial_state memrefs0);
  Some (output s, memrefs s).

(** * The generated code: x86-64 semantics of the emitted instructions

    The properties of the generated code are stated by running it.  This
    section gives the meaning (Intel SDM, 64-bit mode) of the instructions
    needed for that: push/pop, mov, the two-operand integer group, movsx,
    short conditional jumps, near jumps and software interrupts.  Any other
    byte sequence is outside the model and stops the run with [Faulted]. *)

Inductive width := W8 | W16 | W32 | W64.

Definition width_bits (w : width) : Z :=
  match w with W8 => 8 | W16 => 16 | W32 => 32 | W64 => 64 end.

Definition width_bytes (w : width) : nat :=
  match w with W8 => 1 | W16 => 2 | W32 => 4 | W64 => 8 end%nat.

(** Register numbers as encoded in instructions. *)
Definition RAX : Z := 0.
Definition RCX : Z := 1.
Definition RDX : Z := 2.
Definition RBX : Z := 3.
Definition RSP : Z := 4.
Definition RBP : Z := 5.
Definition RSI : Z := 6.
Definition RDI : Z := 7.

Inductive operand :=
| Reg (r : Z)
| Mem (base : option Z) (index : option Z) (scale : Z) (disp : Z).

(** The eight operations of the integer group, in encoding order. *)
Inductive alu := ADD | OR | ADC | SBB | AND | SUB | XOR | CMP.

Definition alu_of_Z (n : Z) : alu :=
  if n =? 0 then ADD else if n =? 1 then OR else if n =? 2 then ADC
  else if n =? 3 then SBB else if n =? 4 then AND else if n =? 5 then SUB
  else if n =? 6 then XOR else CMP.

Inductive instr :=
| I_push_r (r : Z)                       (* 50+r *)
| I_pop_r (r : Z)                        (* 58+r *)
| I_push_imm (imm : Z)                   (* 68 id: imm32 sign-extended *)
| I_mov_ri (w : width) (r : Z) (imm : Z) (* B8+r id / REX.W B8+r io *)
| I_alu_rm_r (op : alu) (w : width) (dst : operand) (src : Z)  (* 01 09 21 29 31 39 /r *)
| I_alu_rm_imm (op : alu) (w : width) (dst : operand) (imm : Z) (* 81 /n id, 83 /n ib *)
| I_mov_rm_r (w : width) (dst : operand) (src : Z)  (* 88 /r, 89 /r *)
| I_mov_r_rm (w : width) (dst : Z) (src : operand)  (* 8B /r *)
| I_movsx_b (w : width) (dst : Z) (src : operand)   (* 0F BE /r *)
| I_jcc (cc : Z) (rel : Z)               (* 70+cc cb *)
| I_jmp (rel : Z)                        (* E9 cd *)
| I_int (n : Z)                          (* CD ib *)
| I_int3                                 (* CC *)
| I_ud2.                                 (* 0F 0B *)

(** *** Decoding *)

Definition imm_s (n : nat) (bytes : list Z) : option Z :=
  if (n <=? length bytes)%nat
  then Some (sign_extend (8 * Z.of_nat n) (le_value (take n bytes)))
  else None.

Definition imm_u (n : nat) (bytes : list Z) : option Z :=
  if (n <=? length bytes)%nat then Some (le_value (take n bytes)) else None.

(** ModRM, SIB and displacement.  [rex_r], [rex_x], [rex_b] are 0 or 8.
    Returns the [reg] field, the r/m operand and the number of bytes read.
    RIP-relative addressing is outside the model. *)
Definition decode_modrm (rex_r rex_x rex_b : Z) (bytes : list Z)
    : option (Z * operand * nat) :=
  match bytes with
  | [] => None
  | m :: rest =>
      let md := m / 64 in
      let reg := (m / 8) mod 8 + rex_r in
      let rm := m mod 8 in
      if md =? 3 then Some (reg, Reg (rm + rex_b), 1%nat)
      else if rm =? 4 then
        match rest with
        | [] => None
        | sib :: rest' =>
            let scale := 2 ^ (sib / 64) in
            let idx := (sib / 8) mod 8 + rex_x in
            let index := if idx =? 4 then None else Some idx in
            let b := sib mod 8 in
            if (b =? 5) && (md =? 0) then
              d ← imm_s 4 rest';
              Some (reg, Mem None index scale d, 6%nat)
            else if md =? 0 then
              Some (reg, Mem (Some (b + rex_b)) index scale 0, 2%nat)
            else if md =? 1 then
              d ← imm_s 1 rest';
              Some (reg, Mem (Some (b + rex_b)) index scale d, 3%nat)
            else
              d ← imm_s 4 rest';
              Some (reg, Mem (Some (b + rex_b)) index scale d, 6%nat)
        end
      else if md =? 0 then
        if rm =? 5 then None
        else Some (reg, Mem (Some (rm + rex_b)) None 1 0, 1%nat)
      else if md =? 1 then
        d ← imm_s 1 rest;
        Some (reg, Mem (Some (rm + rex_b)) None 1 d, 2%nat)
      else
        d ← imm_s 4 rest;
        Some (reg, Mem (Some (rm + rex_b)) None 1 d, 5%nat)
  end.

(** The opcode and what follows it, after the prefixes.  [osz] is true
    under the 0x66 prefix, [rex] is the REX byte when there is one. *)
Definition decode_opcode (osz : bool) (rex : option Z) (bytes : list Z)
    : option (instr * nat) :=
  let rexv := default 0 rex in
  let rex_w := 8 <=? rexv mod 16 in
  let rex_r := if 4 <=? rexv mod 8 then 8 else 0 in
  let rex_x := if 2 <=? rexv mod 4 then 8 else 0 in
  let rex_b := if 1 <=? rexv mod 2 then 8 else 0 in
  let w := if rex_w then W64 else if osz then W16 else W32 in
  match bytes with
  | [] => None
  | op :: rest =>
      if (0x50 <=? op) && (op <=? 0x57) then
        Some (I_push_r (op - 0x50 + rex_b), 1%nat)
      else if (0x58 <=? op) && (op <=? 0x5f) then
        Some (I_pop_r (op - 0x58 + rex_b), 1%nat)
      else if op =? 0x68 then
        i ← imm_s 4 rest; Some (I_push_imm i, 5%nat)
      else if (0xb8 <=? op) && (op <=? 0xbf) then
        if rex_w then i ← imm_u 8 rest; Some (I_mov_ri W64 (op - 0xb8 + rex_b) i, 9%nat)
        else if osz then None
        else i ← imm_u 4 rest; Some (I_mov_ri W32 (op - 0xb8 + rex_b) i, 5%nat)
      else if (op <? 0x40) && (op mod 8 =? 1) then
        '(reg, rm, n) ← decode_modrm rex_r rex_x rex_b rest;
        Some (I_alu_rm_r (alu_of_Z (op / 8)) w rm reg, S n)
      else if op =? 0x81 then
        '(reg, rm, n) ← decode_modrm rex_r rex_x rex_b rest;
        if osz then None
        else i ← imm_s 4 (drop n rest);
             Some (I_alu_rm_imm (alu_of_Z (reg mod 8)) w rm i, S (n + 4))
      else if op =? 0x83 then
        '(reg, rm, n) ← decode_modrm rex_r rex_x rex_b rest;
        i ← imm_s 1 (drop n rest);
        Some (I_alu_rm_imm (alu_of_Z (reg mod 8)) w rm i, S (n + 1))
      else if op =? 0x88 then
        '(reg, rm, n) ← decode_modrm rex_r rex_x rex_b rest;
        (* without REX, encodings 4..7 name AH..BH: outside the model *)
        if (negb (bool_decide (is_Some rex))) && (4 <=? reg) then None
        else Some (I_mov_rm_r W8 rm reg, S n)
      else if op =? 0x89 then
        '(reg, rm, n) ← decode_modrm rex_r rex_x rex_b rest;
        Some (I_mov_rm_r w rm reg, S n)
      else if op =? 0x8b then
        '(reg, rm, n) ← decode_modrm rex_r rex_x rex_b rest;
        Some (I_mov_r_rm w reg rm, S n)
      else if op =? 0x0f then
        match rest with
        | op2 :: rest2 =>
            if op2 =? 0x0b then Some (I_ud2, 2%nat)
            else if op2 =? 0xbe then
              '(reg, rm, n) ← decode_modrm rex_r rex_x rex_b rest2;
              Some (I_movsx_b w reg rm, S (S n))
            else None
        | [] => None
        end
      else if (0x70 <=? op) && (op <=? 0x7f) then
        d ← imm_s 1 rest; Some (I_jcc (op - 0x70) d, 2%nat)
      else if op =? 0xe9 then
        d ← imm_s 4 rest; Some (I_jmp d, 5%nat)
      else if op =? 0xcd then
        n ← imm_u 1 rest; Some (I_int n, 2%nat)
      else if op =? 0xcc then Some (I_int3, 1%nat)
      else None
  end.

(** One instruction: optional operand-size prefix, optional REX, opcode. *)
Definition decode (bytes : list Z) : option (instr * nat) :=
  let '(osz, bytes1, n1) :=
    match bytes with
    | p :: rest => if p =? 0x66 then (true, rest, 1%nat) else (false, bytes, 0%nat)
    | [] => (false, bytes, 0%nat)
    end in
  let '(rex, bytes2, n2) :=
    match bytes1 with
    | p :: rest =>
        if (0x40 <=? p) && (p <=? 0x4f) then (Some p, rest, 1%nat)
        else (None, bytes1, 0%nat)
    | [] => (None, bytes1, 0%nat)
    end in
  '(i, n) ← decode_opcode osz rex bytes2;
  Some (i, (n1 + n2 + n)%nat).

(** *** Machine state *)

Record flags := mkFlags { CF : bool; ZF : bool; SF : bool; OF : bool }.

(** Registers by number, a flat byte-addressed memory, and the offset of
    the next instruction inside the code buffer. *)
Record machine := mkMachine {
  regs : Z -> Z;
  fl : flags;
  mem : Z -> Z;
  rip : nat
}.

Definition upd (f : Z -> Z) (k v : Z) : Z -> Z :=
  fun x => if x =? k then v else f x.

Fixpoint load_bytes (n : nat) (m : Z -> Z) (a : Z) : list Z :=
  match n with
  | O => []
  | S n' => m a :: load_bytes n' m (a + 1)
  end.

Fixpoint store_bytes (m : Z -> Z) (a : Z) (bs : list Z) : Z -> Z :=
  match bs with
  | [] => m
  | b :: rest => store_bytes (upd m a b) (a + 1) rest
  end.

(** Little-endian loads and stores of [n] bytes. *)
Definition load (n : nat) (m : Z -> Z) (a : Z) : Z := le_value (load_bytes n m a).
Definition store (n : nat) (m : Z -> Z) (a : Z) (v : Z) : Z -> Z :=
  store_bytes m a (le_bytes n v).

Definition get_reg (s : machine) (r : Z) : Z := regs s r.

(** A register write: 64-bit writes replace the register, 32-bit writes
    zero-extend, narrower writes keep the upper bits. *)
Definition write_reg (w : width) (old v : Z) : Z :=
  match w with
  | W64 => v mod 2 ^ 64
  | W32 => v mod 2 ^ 32
  | W16 => old - old mod 2 ^ 16 + v mod 2 ^ 16
  | W8 => old - old mod 2 ^ 8 + v mod 2 ^ 8
  end.

Definition set_reg (w : width) (r v : Z) (s : machine) : machine :=
  mkMachine (upd (regs s) r (write_reg w (regs s r) v)) (fl s) (mem s) (rip s).

Definition set_mem (m : Z -> Z) (s : machine) : machine :=
  mkMachine (regs s) (fl s) m (rip s).

Definition set_flags (f : flags) (s : machine) : machine :=
  mkMachine (regs s) f (mem s) (rip s).

Definition set_rip (n : nat) (s : machine) : machine :=
  mkMachine (regs s) (fl s) (mem s) n.

(** Effective address of a memory operand, modulo 2^64. *)
Definition address (s : machine) (base index : option Z) (scale disp : Z) : Z :=
  (from_option (regs s) 0 base + from_option (regs s) 0 index * scale + disp)
    mod 2 ^ 64.

Definition read_operand (w : width) (s : machine) (o : operand) : Z :=
  match o with
  | Reg r => regs s r mod 2 ^ width_bits w
  | Mem b i sc d => load (width_bytes w) (mem s) (address s b i sc d)
  end.

Definition write_operand (w : width) (s : machine) (o : operand) (v : Z) : machine :=
  match o with
  | Reg r => set_reg w r v s
  | Mem b i sc d =>
      set_mem (store (width_bytes w) (mem s) (address s b i sc d)
                 (v mod 2 ^ width_bits w)) s
  end.

(** Result and flags of an integer operation on [w]-bit operands [a], [b]
    (both in [0, 2^w)); [None] for the two carry-consuming operations,
    which the generated code never uses. *)
Definition alu_result (op : alu) (w : width) (a b : Z) : option (Z * flags) :=
  let n := width_bits w in
  let sa := sign_extend n a in
  let sb := sign_extend n b in
  let arith (exact sexact : Z) (carry : bool) :=
    let r := exact mod 2 ^ n in
    (r, mkFlags carry (r =? 0) (2 ^ (n - 1) <=? r)
          (negb ((- 2 ^ (n - 1) <=? sexact) && (sexact <? 2 ^ (n - 1))))) in
  let logic (r : Z) := (r, mkFlags false (r =? 0) (2 ^ (n - 1) <=? r) false) in
  match op with
  | ADD => Some (arith (a + b) (sa + sb) (2 ^ n <=? a + b))
  | SUB | CMP => Some (arith (a - b) (sa - sb) (a <? b))
  | AND => Some (logic (Z.land a b))
  | OR => Some (logic (Z.lor a b))
  | XOR => Some (logic (Z.lxor a b))
  | ADC | SBB => None
  end.

(** The condition of [Jcc] for condition code [cc]; the parity conditions
    are outside the model. *)
Definition condition (cc : Z) (f : flags) : option bool :=
  let base :=
    let k := cc / 2 in
    if k =? 0 then Some (OF f)
    else if k =? 1 then Some (CF f)
    else if k =? 2 then Some (ZF f)
    else if k =? 3 then Some (CF f || ZF f)
    else if k =? 4 then Some (SF f)
    else if k =? 5 then None
    else if k =? 6 then Some (negb (eqb (SF f) (OF f)))
    else Some (ZF f || negb (eqb (SF f) (OF f))) in
  if cc mod 2 =? 0 then base else negb <$> base.

Inductive step_result :=
| Next (s : machine)
| Trap (n : Z)
| Fault.

Definition push64 (v : Z) (s : machine) : machine :=
  let sp := (regs s RSP - 8) mod 2 ^ 64 in
  set_mem (store 8 (mem s) sp (v mod 2 ^ 64)) (set_reg W64 RSP sp s).

(** A relative jump from the (already advanced) instruction pointer. *)
Definition jump (code_len : nat) (rel : Z) (s : machine) : step_result :=
  let target := Z.of_nat (rip s) + rel in
  if (0 <=? target) && (target <=? Z.of_nat code_len)
  then Next (set_rip (Z.to_nat target) s)
  else Fault.

(** [exec code_len i s]: the effect of [i]; [rip s] already points past
    the instruction. *)
Definition exec (code_len : nat) (i : instr) (s : machine) : step_result :=
  match i with
  | I_push_r r => Next (push64 (regs s r) s)
  | I_pop_r r =>
      let v := load 8 (mem s) (regs s RSP) in
      Next (set_reg W64 r v (set_reg W64 RSP (regs s RSP + 8) s))
  | I_push_imm imm => Next (push64 imm s)
  | I_mov_ri w r imm => Next (set_reg w r imm s)
  | I_alu_rm_r op w dst src =>
      match alu_result op w (read_operand w s dst)
              (regs s src mod 2 ^ width_bits w) with
      | Some (r, f) =>
          Next (set_flags f
                  (match op with CMP => s | _ => write_operand w s dst r end))
      | None => Fault
      end
  | I_alu_rm_imm op w dst imm =>
      match alu_result op w (read_operand w s dst) (imm mod 2 ^ width_bits w) with
      | Some (r, f) =>
          Next (set_flags f
                  (match op with CMP => s | _ => write_operand w s dst r end))
      | None => Fault
      end
  | I_mov_rm_r w dst src => Next (write_operand w s dst (regs s src))
  | I_mov_r_rm w dst src => Next (set_reg w dst (read_operand w s src) s)
  | I_movsx_b w dst src =>
      Next (set_reg w dst (sign_extend 8 (read_operand W8 s src)) s)
  | I_jcc cc rel =>
      match condition cc (fl s) with
      | Some true => jump code_len rel s
      | Some false => Next s
      | None => Fault
      end
  | I_jmp rel => jump code_len rel s
  | I_int n => Trap n
  | I_int3 => Trap 3
  | I_ud2 => Trap 6
  end.

Inductive outcome :=
| Halted (s : machine)     (* control reached the end of the buffer *)
| Trapped (n : Z)          (* interrupt or exception vector [n] *)
| Faulted                  (* bytes outside the modelled instructions *)
| OutOfFuel (s : machine).

Definition step (code : list Z) (s : machine) : step_result :=
  match decode (drop (rip s) code) with
  | Some (i, n) => exec (length code) i (set_rip (rip s + n) s)
  | None => Fault
  end.

Fixpoint run (fuel : nat) (code : list Z) (s : machine) : outcome :=
  if (length code <=? rip s)%nat then Halted s
  else match fuel with
       | O => OutOfFuel s
       | S fuel' =>
           match step code s with
           | Next s' => run fuel' code s'
           | Trap n => Trapped n
           | Fault => Faulted
           end
       end.

(** Modelled from the spec: the loader is not part of the sources; per §3
    it overwrites the 8-byte immediate at [code_offset] of every relocation
    entry with the absolute address of the entity the entry names. *)
Definition link_one (resolve : MemoryReferenceElt -> Z) (m : MemoryReferenceElt)
    (code : list Z) : list Z :=
  patch (code_offset m) (encode_le_uint64_t (resolve m)) code.

Definition link (resolve : MemoryReferenceElt -> Z) (ms : list MemoryReferenceElt)
    (code : list Z) : list Z :=
  fold_left (fun c m => link_one resolve m c) ms code.

(** ** Notions used to state the properties *)





(** Programs that only append to the output buffer. *)
Definition emits (m : M unit) (code : list Z) : Prop :=
  forall s, m s = Some (tt, set_output (fun o => o ++ code) s).

(** The target of a branch entry, in the words of the specification:
    [labels[continuation_id]], or the offset of the epilogue for the
    function-exit sentinel. *)
Definition resolved (epilogue : nat) (lbls : list (option nat))
    (b : BranchPointElt) (target : nat) : Prop :=
  (bp_continuation_idx b = FUNC_EXIT_CONT /\ target = epilogue) \/
  (bp_continuation_idx b <> FUNC_EXIT_CONT /\
   lbls !! Z.to_nat (bp_continuation_idx b) = Some (Some target)).

(** The displacement a resolved entry receives. *)
Definition displacement (b : BranchPointElt) (target : nat) : Z :=
  Z.of_nat target - (Z.of_nat (branch_offset b) + 5).

(** Branch sites (5 bytes each) that do not overlap. *)
Definition apart (b1 b2 : BranchPointElt) : Prop :=
  (branch_offset b1 + 5 <= branch_offset b2 \/
   branch_offset b2 + 5 <= branch_offset b1)%nat.

Inductive sites_disjoint : list BranchPointElt -> Prop :=
| sites_nil : sites_disjoint []
| sites_cons b bs :
    Forall (apart b) bs -> sites_disjoint bs -> sites_disjoint (b :: bs).

(** A relocation entry of kind Mem or Table selects instance 0. *)
Definition addresses_instance_zero (m : MemoryReferenceElt) : Prop :=
  mr_type m = MEMREF_MEM \/ mr_type m = MEMREF_TABLE -> mr_idx m = Some 0.

(** The frame adjustments of prologue and epilogue, as instructions:
    [sub $(8 * n), %rsp] and [add $(8 * n), %rsp], absent when [n] is 0. *)
Definition frame_sub (n : nat) : list Z :=
  if (n =? 0)%nat then []
  else [0x48; 0x81; 0xec] ++ encode_le_uint32_t (8 * Z.of_nat n).

Definition frame_add (n : nat) : list Z :=
  if (n =? 0)%nat then []
  else [0x48; 0x81; 0xc4] ++ encode_le_uint32_t (8 * Z.of_nat n).

(** The stores of the register parameters into their frame slots, as
    "push args to stack" writes them: one [mov reg, N(%rbp)] for each
    parameter whose slot lies below the frame pointer, the registers taken
    in order. *)
Fixpoint spill_code (params : list LocalsMD) (n_movs n_xmm_movs : nat) : list Z :=
  match params with
  | [] => []
  | md :: rest =>
      if 0 <? fp_offset md then spill_code rest n_movs n_xmm_movs
      else if is_int_type (lmd_valtype md) then
        default [] (prologue_movs !! n_movs) ++ [fp_offset md mod 256]
          ++ spill_code rest (S n_movs) n_xmm_movs
      else
        default []
          ((if valtype_eqb (lmd_valtype md) VALTYPE_F32
            then prologue_f32_movs else prologue_f64_movs) !! n_xmm_movs)
          ++ [fp_offset md mod 256]
          ++ spill_code rest n_movs (S n_xmm_movs)
  end.

(** The zeroing of the declared locals: nothing for none,
    [movq $0, (%rsp)] for one, otherwise
    [mov %rsp, %rdi; xor %rax, %rax; mov $n, %rcx; cld; rep stosq]. *)
Definition init_code (n_declared : nat) : list Z :=
  if (n_declared =? 0)%nat then []
  else if (n_declared =? 1)%nat
  then [0x48; 0xc7; 0x04; 0x24; 0x00; 0x00; 0x00; 0x00]
  else [0x48; 0x89; 0xe7] ++ [0x48; 0x31; 0xc0] ++ [0x48; 0xc7; 0xc1]
         ++ encode_le_uint32_t (Z.of_nat n_declared)
         ++ [0xfc] ++ [0xf3; 0x48; 0xab].

(** The whole prologue of a function with [n] frame locals. *)
Definition prologue_code (params : list LocalsMD) (n_declared n : nat) : list Z :=
  [0x55; 0x48; 0x89; 0xe5; 0xcc] ++ frame_sub n
    ++ spill_code params 0 0 ++ init_code n_declared.

(** [pop %rax] for a function with a result. *)
Definition epilogue_pop (type : FuncType) : list Z :=
  match output_types type with
  | [] => []
  | _ => [0x58]
  end.

(** The whole epilogue. *)
Definition epilogue_code (type : FuncType) (n : nat) : list Z :=
  epilogue_pop type ++ frame_add n ++ [0x5d; 0xc3].

(** [pre] is still the beginning of the output buffer, and no recorded
    branch site lies inside it. *)
Definition keeps_prefix (pre : list Z) (s : cstate) : Prop :=
  (exists rest, output s = pre ++ rest) /\
  Forall (fun b => (length pre <= branch_offset b)%nat) (branches s).

(** [preserves Inv m phi]: a successful run of [m] keeps the state
    invariant [Inv] and returns a value in [phi]. *)
Definition preserves (Inv : cstate -> Prop) {A} (m : M A) (phi : A -> Prop) : Prop :=
  forall s a s', Inv s -> m s = Some (a, s') -> Inv s' /\ phi a.

Definition anyv {A} : A -> Prop := fun _ => True.

(** What an invariant must tolerate to survive the translator: appends to
    the buffer, stores at admissible offsets ([ok_idx]), any change of the
    label table and the static stack, branches recorded at admissible
    offsets, and admissible relocation entries ([ok_memref]). *)
Record invariant_ok (Inv : cstate -> Prop) (ok_idx : nat -> Prop)
    (ok_memref : MemoryReferenceElt -> Prop) : Prop := {
  inv_append : forall s buf,
    Inv s -> Inv (set_output (fun o => o ++ buf) s);
  inv_patch : forall s idx buf,
    Inv s -> ok_idx idx -> (idx + length buf <= length (output s))%nat ->
    Inv (set_output (patch idx buf) s);
  inv_labels : forall s f, Inv s -> Inv (set_labels f s);
  inv_sstack : forall s f, Inv s -> Inv (set_sstack f s);
  inv_branch : forall s off c,
    Inv s -> ok_idx off ->
    Inv (set_branches (fun b => b ++ [mkBranch off c]) s);
  inv_memref : forall s m,
    Inv s -> ok_memref m -> Inv (set_memrefs (fun l => l ++ [m]) s);
  inv_length : forall s, Inv s -> ok_idx (length (output s));
  inv_branches : forall s,
    Inv s -> Forall (fun b => ok_idx (branch_offset b)) (branches s);
  inv_idx_mono : forall n m, ok_idx n -> (n <= m)%nat -> ok_idx m;
  inv_memref_zero : forall t off, ok_memref (mkMemref t off (Some 0));
  inv_memref_other : forall t off idx,
    t <> MEMREF_MEM -> t <> MEMREF_TABLE -> ok_memref (mkMemref t off idx)
}.

(** [bytes] is the encoding of instruction [i], whatever follows it. *)
Definition decodes (bytes : list Z) (i : instr) : Prop :=
  (0 < length bytes)%nat /\
  forall rest, decode (bytes ++ rest) = Some (i, length bytes).

(** The run of [code] from [s] ends, with outcome [o]. *)
Definition finishes (code : list Z) (s : machine) (o : outcome) : Prop :=
  exists fuel, run fuel code s = o /\ forall s', o <> OutOfFuel s'.

(** The run of [code] from [s] terminates with an outcome that satisfies
    [Q]. *)
Definition ends (code : list Z) (s : machine) (Q : outcome -> Prop) : Prop :=
  exists o, finishes code s o /\ Q o.

(** The byte sequences of the instructions with an immediate operand that
    the translator emits around a memory access. *)
Definition c_add_rsi (v : Z) : list Z := [0x48; 0x81; 0xc6] ++ encode_le_uint32_t v.
Definition c_movabs_rax (v : Z) : list Z := [0x48; 0xb8] ++ encode_le_uint64_t v.
Definition c_mov_rax_disp8 (d : Z) : list Z := [0x48; 0x8b; 0x40; d mod 256].

(** What the bounds check adds to the popped address: the 32-bit sum
    [4 + offset], sign-extended by the [add] instruction (and no [add] at
    all when the sum wraps to zero). *)
Definition bounds_addend (offset : Z) : Z :=
  if (4 + offset) mod 2 ^ 32 =? 0 then 0
  else sign_extend 32 ((4 + offset) mod 2 ^ 32).

(** The bounds check of a load or store, linked against the memory
    instance at address [M]. *)
Definition check_bytes (offset size_off M : Z) : list Z :=
  [0x5e]
  ++ (if (4 + offset) mod 2 ^ 32 =? 0 then [] else c_add_rsi (4 + offset))
  ++ c_movabs_rax M ++ c_mov_rax_disp8 size_off
  ++ [0x48; 0x39; 0xc6] ++ [0x7e; 0x02] ++ [0xcd; 0x04].

(** The access itself. *)
Definition access_bytes (op : opcode) : list Z :=
  match op with
  | OPCODE_I32_LOAD8_S => [0x0f; 0xbe; 0x44; 0x30; 0xfc] ++ [0x50]
  | OPCODE_I32_LOAD => [0x8b; 0x44; 0x30; 0xfc] ++ [0x50]
  | OPCODE_I64_LOAD | OPCODE_F64_LOAD => [0x48; 0x8b; 0x44; 0x30; 0xfc] ++ [0x50]
  | OPCODE_I32_STORE => [0x89; 0x7c; 0x30; 0xfc]
  | OPCODE_I32_STORE8 => [0x40; 0x88; 0x7c; 0x30; 0xfc]
  | OPCODE_I32_STORE16 => [0x66; 0x89; 0x7c; 0x30; 0xfc]
  | OPCODE_I64_STORE | OPCODE_F64_STORE => [0x48; 0x89; 0x7c; 0x30; 0xfc]
  | _ => []
  end.

(** The linked code of one load or store: [pop %rdi] for a store, the
    bounds check, the data pointer, the access. *)
Definition loadstore_bytes (layout : Layout) (op : opcode) (offset M : Z) : list Z :=
  (match store_operand op with Some _ => [0x5f] | None => [] end)
  ++ check_bytes offset (off_MemInst_size layout) M
  ++ c_movabs_rax M ++ c_mov_rax_disp8 (off_MemInst_data layout)
  ++ access_bytes op.

(** The static stack a load or store expects: the address, and above it
    the value for a store. *)
Definition loadstore_stack (op : opcode) : list StackElt :=
  STACK_I32 ::
  match store_operand op with Some t => [STACK_VALUE t] | None => [] end.

(** The number of bytes the access of [op] touches. *)
Definition access_width (op : opcode) : Z :=
  match op with
  | OPCODE_I32_LOAD8_S | OPCODE_I32_STORE8 => 1
  | OPCODE_I32_STORE16 => 2
  | OPCODE_I32_LOAD | OPCODE_I32_STORE => 4
  | _ => 8
  end.

(** The operand [-4(%rax, %rsi)] of every access. *)
Definition access_operand : operand := Mem (Some RAX) (Some RSI) 1 (-4).

(** The machine state right after a bounds check that did not trap. *)
Definition after_check (pre_len : nat) (s s' : machine) (ea' size : Z) : Prop :=
  rip s' = pre_len /\ mem s' = mem s /\
  regs s' RSI = ea' /\ regs s' RAX = size /\
  regs s' RSP = (regs s RSP + 8) mod 2 ^ 64 /\
  regs s' RDI = regs s RDI.

(** The value a load leaves in [%rax], read at address [a]. *)
Definition loaded_value (op : opcode) (m : Z -> Z) (a : Z) : Z :=
  match op with
  | OPCODE_I32_LOAD8_S => sign_extend 8 (load 1 m a) mod 2 ^ 32
  | OPCODE_I32_LOAD => load 4 m a mod 2 ^ 32
  | _ => load 8 m a mod 2 ^ 64
  end.

(** The effect of the access of [op] at address [a], from [s] to [s']: a
    load pushes the value read, a store writes the low bytes of [%rdi]. *)
Definition access_done (op : opcode) (s s' : machine) (a : Z) : Prop :=
  match store_operand op with
  | None =>
      regs s' RAX = loaded_value op (mem s) a /\
      regs s' RSP = (regs s RSP - 8) mod 2 ^ 64 /\
      load 8 (mem s') (regs s' RSP) = regs s' RAX
  | Some _ =>
      mem s' = store (Z.to_nat (access_width op)) (mem s) a
                 (regs s RDI mod 2 ^ (8 * access_width op)) /\
      regs s' RSP = regs s RSP
  end.

(** The machine a load or store starts from: [%rip] at the first byte, the
    address [ea] in the stack cell below the value to store (stores) or on
    top (loads), and a memory instance at [M] whose [size] and [data]
    fields hold [size] and [data]. *)
Record access_setup (layout : Layout) (op : opcode) (M ea size data : Z)
    (s : machine) : Prop := {
  setup_rip : rip s = 0%nat;
  setup_size_off : -128 <= off_MemInst_size layout <= 127;
  setup_data_off : -128 <= off_MemInst_data layout <= 127;
  setup_M : 0 <= M < 2 ^ 64;
  setup_ea :
    load 8 (mem s)
      (match store_operand op with
       | Some _ => (regs s RSP + 8) mod 2 ^ 64
       | None => regs s RSP
       end) = ea;
  setup_ea_range : 0 <= ea < 2 ^ 64;
  setup_size : load 8 (mem s) ((M + off_MemInst_size layout) mod 2 ^ 64) = size;
  setup_size_range : 0 <= size < 2 ^ 64;
  setup_data : load 8 (mem s) ((M + off_MemInst_data layout) mod 2 ^ 64) = data;
  setup_data_range : 0 <= data < 2 ^ 64
}.

(** The address the bounds check compares with [size]. *)
Definition checked_address (ea offset : Z) : Z :=
  (ea + bounds_addend offset) mod 2 ^ 64.

(** The run performs the access at [data + ea' - 4] and halts. *)
Definition access_proceeds (layout : Layout) (op : opcode) (offset M ea data : Z)
    (s : machine) : Prop :=
  exists s' s'',
    finishes (loadstore_bytes layout op offset M) s (Halted s'') /\
    mem s' = mem s /\
    regs s' RDI =
      match store_operand op with
      | Some _ => load 8 (mem s) (regs s RSP) mod 2 ^ 64
      | None => regs s RDI
      end /\
    access_done op s' s'' ((data + checked_address ea offset - 4) mod 2 ^ 64).

(** The run ends in the bounds trap. *)
Definition access_traps (layout : Layout) (op : opcode) (offset M : Z)
    (s : machine) : Prop :=
  finishes (loadstore_bytes layout op offset M) s (Trapped 4).

(** The effect of a whole load or store that accesses address [a], from
    the machine [s] it starts on to the machine [s'] it halts on.  A load
    replaces the address on top of the stack by the value read: the stack
    pointer is where it was and the cell there holds the value.  A store
    writes the low bytes of the value popped from the top of the stack and
    leaves the stack pointer two cells higher. *)
Definition access_effect (op : opcode) (s s' : machine) (a : Z) : Prop :=
  match store_operand op with
  | None =>
      regs s' RSP = regs s RSP mod 2 ^ 64 /\
      load 8 (mem s') (regs s' RSP) = loaded_value op (mem s) a /\
      regs s' RAX = loaded_value op (mem s) a
  | Some _ =>
      regs s' RSP = (regs s RSP + 16) mod 2 ^ 64 /\
      mem s' = store (Z.to_nat (access_width op)) (mem s) a
                 (load 8 (mem s) (regs s RSP) mod 2 ^ (8 * access_width op))
  end.

(** The code of a load or store translated on its own, from the static
    stack it expects, and linked against the memory instance at [M]. *)
Definition linked_loadstore (layout : Layout) (op : opcode) (offset M : Z)
    : option (list Z) :=
  match compile_loadstore layout op offset
          (mkState [] [] [] [] (loadstore_stack op)) with
  | Some (_, cs') => Some (link (fun _ => M) (memrefs cs') (output cs'))
  | None => None
  end.

(** A memory made of 8-byte little-endian cells, zero elsewhere. *)
Definition mem_of_cells (cells : list (Z * Z)) : Z -> Z :=
  fold_right (fun c m => store 8 m (fst c) (snd c)) (fun _ => 0) cells.

(** A sample layout of the instance structures and a sample machine: the
    stack pointer at [sp], the given cells in memory, all other registers
    zero. *)
Definition sample_layout : Layout :=
  {| off_FuncInst_compiled_code := 0; off_GlobalInst_value := fun _ => 0;
     off_MemInst_size := 8; off_MemInst_data := 0 |}.

Definition sample_machine (sp rdi : Z) (cells : list (Z * Z)) : machine :=
  mkMachine (upd (upd (fun _ => 0) RDI rdi) RSP sp)
    (mkFlags false false false false) (mem_of_cells cells) 0.

(** [i32.wrap_i64] followed by [i64.extend_u_i32]. *)
Definition wrap_then_extend : list Instr :=
  [Instr_plain OPCODE_I32_WRAP_I64; Instr_plain OPCODE_I64_EXTEND_U_I32].

(** ** Notions for the integer operations *)

(** The machine operation behind the binary opcodes that work in place on
    the top cell; the multiplications go through [mul], which is outside
    the machine model. *)
Definition arith_alu (op : opcode) : option alu :=
  match op with
  | OPCODE_I32_ADD | OPCODE_I64_ADD => Some ADD
  | OPCODE_I32_SUB | OPCODE_I64_SUB => Some SUB
  | OPCODE_I32_AND | OPCODE_I64_AND => Some AND
  | OPCODE_I32_OR | OPCODE_I64_OR => Some OR
  | OPCODE_I32_XOR => Some XOR
  | _ => None
  end.

Definition arith_width (op : opcode) : width :=
  if is_i64_op op then W64 else W32.

(** The value of a binary integer operation on [bits]-bit operands. *)
Definition int_binop (o : alu) (bits a b : Z) : Z :=
  match o with
  | ADD => (a + b) mod 2 ^ bits
  | SUB => (a - b) mod 2 ^ bits
  | AND => Z.land a b mod 2 ^ bits
  | OR => Z.lor a b mod 2 ^ bits
  | XOR => Z.lxor a b mod 2 ^ bits
  | _ => 0
  end.

(** The opcode byte of [op r, r/m] for the five operations. *)
Definition alu_opcode_byte (o : alu) : Z :=
  match o with
  | ADD => 0x01 | SUB => 0x29 | AND => 0x21 | OR => 0x09 | XOR => 0x31
  | _ => 0
  end.

(** [pop %rax] and [op %(r|e)ax, (%rsp)]. *)
Definition arith_bytes (o : alu) (w : width) : list Z :=
  [0x58] ++ (match w with W64 => [0x48] | _ => [] end)
         ++ [alu_opcode_byte o; 0x04; 0x24].

(** ** Notions for calls and frames *)



(** ** Notions for globals *)

(** The width of the move that reads or writes a global of type [t]. *)
Definition global_width (t : valtype) : width :=
  match t with
  | VALTYPE_I32 | VALTYPE_F32 => W32
  | _ => W64
  end.

Definition rex_w_prefix (w : width) : list Z :=
  match w with W64 => [0x48] | _ => [] end.

(** [movabs $G, %rax; mov off(%rax), %(e|r)ax; push %rax] *)
Definition get_global_bytes (layout : Layout) (t : valtype) (G : Z) : list Z :=
  c_movabs_rax G
  ++ (rex_w_prefix (global_width t)
      ++ [0x8b; 0x40; off_GlobalInst_value layout t mod 256])
  ++ [0x50].

(** [pop %rdx; movabs $G, %rax; mov %(e|r)dx, off(%rax)] *)
Definition set_global_bytes (layout : Layout) (t : valtype) (G : Z) : list Z :=
  [0x5a] ++ c_movabs_rax G
  ++ (rex_w_prefix (global_width t)
      ++ [0x89; 0x50; off_GlobalInst_value layout t mod 256]).

(** The code of [get_global] or [set_global] translated on its own from
    the static stack [st] and linked against the global instance at [G];
    with it the static stack and the relocation table it ends with. *)
Definition linked_global (layout : Layout) (module_types : ModuleTypes)
    (op : opcode) (gidx : Z) (st : list StackElt) (G : Z)
    : option (list Z * list StackElt * list MemoryReferenceElt) :=
  match compile_global layout module_types op gidx (mkState [] [] [] [] st) with
  | Some (_, cs') =>
      Some (link (fun _ => G) (memrefs cs') (output cs'), sstack cs', memrefs cs')
  | None => None
  end.

(** * Properties *)

(** ** Reasoning about the compilation monad *)

Lemma bind_Some {A B} (m : M A) (k : A -> M B) s b s' :
  bind m k s = Some (b, s') <->
  exists a s1, m s = Some (a, s1) /\ k a s1 = Some (b, s').
Proof.
  unfold bind. destruct (m s) as [[a s1]|]; split.
  - intros H. exists a, s1. auto.
  - intros (a' & s1' & E & H). inversion E; subst. exact H.
  - discriminate.
  - intros (a' & s1' & E & _). discriminate.
Qed.

Lemma ret_Some {A} (a b : A) s s' : ret a s = Some (b, s') <-> b = a /\ s' = s.
Proof. unfold ret. split; [intros H; inversion H; auto | intros [-> ->]; auto]. Qed.

Lemma gets_Some {A} (f : cstate -> A) b s s' :
  gets f s = Some (b, s') <-> b = f s /\ s' = s.
Proof. unfold gets. split; [intros H; inversion H; auto | intros [-> ->]; auto]. Qed.

Lemma modify_Some f u s s' : modify f s = Some (u, s') <-> s' = f s.
Proof.
  unfold modify. destruct u.
  split; [intros H; inversion H; auto | intros ->; auto].
Qed.

Lemma assert_Some b u s s' : assert b s = Some (u, s') <-> b = true /\ s' = s.
Proof.
  unfold assert. destruct u, b; cbn; split; try (intros [? ?]); try discriminate;
    try (intros H; inversion H); subst; auto.
Qed.

Lemma lift_Some {A} (o : option A) a s s' :
  lift o s = Some (a, s') <-> o = Some a /\ s' = s.
Proof.
  unfold lift. destruct o; cbn; split; try (intros [? ?]); try discriminate;
    try (intros H; inversion H); subst; auto.
  inversion H; auto.
Qed.

Lemma when_Some b m u s s' :
  when b m s = Some (u, s') <->
  (b = true /\ m s = Some (u, s')) \/ (b = false /\ s' = s).
Proof.
  unfold when. destruct b, u; cbn.
  - split; [auto | intros [[_ H]|[H _]]; [auto | discriminate]].
  - split; [intros H; inversion H; auto | intros [[H _]|[_ ->]]; [discriminate | auto]].
Qed.

Lemma output_buf_Some buf u s s' :
  output_buf buf s = Some (u, s') <-> s' = set_output (fun o => o ++ buf) s.
Proof. apply modify_Some. Qed.

Lemma OUTS_Some str u s s' :
  OUTS str s = Some (u, s') <->
  s' = set_output (fun o => o ++ take (strlen str) str) s.
Proof. apply modify_Some. Qed.

Lemma output_n_elts_Some n s s' :
  output_n_elts s = Some (n, s') <-> n = length (output s) /\ s' = s.
Proof. unfold output_n_elts. apply (gets_Some (fun s => length (output s))). Qed.

(** Decompose a successful run of a monadic program into its steps. *)
Ltac minv1 H :=
  match type of H with
  | bind _ _ _ = Some _ =>
      let a := fresh "a" in let s1 := fresh "s" in
      let H1 := fresh "E" in let H2 := fresh "E" in
      apply bind_Some in H; destruct H as (a & s1 & H1 & H2);
      minv1 H1; minv1 H2
  | ret _ _ = Some _ => apply ret_Some in H; destruct H as [? ?]; subst
  | gets _ _ = Some _ => apply gets_Some in H; destruct H as [? ?]; subst
  | output_n_elts _ = Some _ =>
      apply output_n_elts_Some in H; destruct H as [? ?]; subst
  | modify _ _ = Some _ => apply modify_Some in H; subst
  | output_buf _ _ = Some _ => apply modify_Some in H; subst
  | OUTS _ _ = Some _ => apply modify_Some in H; subst
  | INC_LABELS _ = Some _ => apply modify_Some in H; subst
  | push_label _ _ _ = Some _ => apply modify_Some in H; subst
  | add_branch _ _ _ = Some _ => apply modify_Some in H; subst
  | add_memref _ _ _ _ = Some _ => apply modify_Some in H; subst
  | assert _ _ = Some _ => apply assert_Some in H; destruct H as [? ?]; subst
  | lift _ _ = Some _ => apply lift_Some in H; destruct H as [? ?]; subst
  | fail _ = Some _ => discriminate H
  | None = Some _ => discriminate H
  | _ => idtac
  end.

Lemma strlen_le str : (strlen str <= length str)%nat.
Proof.
  induction str as [|c str IH]; cbn; [lia|]. destruct (c =? 0); lia.
Qed.

(** ** Little-endian immediates *)

Lemma length_le_bytes n v : length (le_bytes n v) = n.
Proof. revert v. induction n; intros; cbn; auto. Qed.

Lemma le_value_le_bytes n v :
  le_value (le_bytes n v) = v mod 256 ^ Z.of_nat n.
Proof.
  revert v. induction n as [|n IH]; intros v.
  - cbn. now rewrite Z.mod_1_r.
  - cbn [le_bytes le_value]. rewrite IH.
    rewrite Nat2Z.inj_succ, Z.pow_succ_r by lia.
    rewrite (Z.rem_mul_r v 256 (256 ^ Z.of_nat n)) by lia. lia.
Qed.

Lemma length_encode_le_uint32_t v : length (encode_le_uint32_t v) = 4%nat.
Proof. apply length_le_bytes. Qed.

Lemma le_value_encode_le_uint32_t v :
  le_value (encode_le_uint32_t v) = v mod 2 ^ 32.
Proof.
  unfold encode_le_uint32_t. rewrite le_value_le_bytes.
  change (256 ^ Z.of_nat 4) with (2 ^ 32). apply Z.mod_mod. lia.
Qed.

Lemma le_value_encode_le_uint64_t v :
  le_value (encode_le_uint64_t v) = v mod 2 ^ 64.
Proof.
  unfold encode_le_uint64_t. rewrite le_value_le_bytes.
  change (256 ^ Z.of_nat 8) with (2 ^ 64). apply Z.mod_mod. lia.
Qed.

Lemma sign_extend_32_id v :
  INT32_MIN <= v <= INT32_MAX -> sign_extend 32 (v mod 2 ^ 32) = v.
Proof.
  unfold INT32_MIN, INT32_MAX, sign_extend. intros H.
  rewrite Z.mod_mod by lia.
  change (2 ^ (32 - 1)) with 2147483648. change (2 ^ 32) with 4294967296 in *.
  change (2 ^ 31) with 2147483648 in *.
  destruct (Z.ltb_spec (v mod 4294967296) 2147483648) as [Hlt|Hge].
  - destruct (Z_lt_le_dec v 0).
    + rewrite <- (Z.mod_unique v 4294967296 (-1) (v + 4294967296)) in Hlt; lia.
    + apply Z.mod_small. lia.
  - destruct (Z_lt_le_dec v 0).
    + rewrite <- (Z.mod_unique v 4294967296 (-1) (v + 4294967296)); lia.
    + rewrite Z.mod_small in Hge; lia.
Qed.

(** ** unreachable *)

(** C3.  The translation of [unreachable] appends the single byte 0x0F and
    nothing else: the literal of the source is "\x0f\0b", whose [strlen] is
    1, so the second byte of ud2 (0x0B) is never written and the buffer does
    not end with the two-byte instruction 0x0F 0x0B. *)
Theorem unreachable_emits_one_byte :
  forall layout func_types module_types type locals_md n_locals n_frame_locals s,
    wasmjit_compile_instruction layout func_types module_types type locals_md
      n_locals n_frame_locals (Instr_plain OPCODE_UNREACHABLE) s
    = Some (tt, set_output (fun o => o ++ [0x0f]) s)
    /\ output (set_output (fun o => o ++ [0x0f]) s) <> output s ++ [0x0f; 0x0b].
Proof.
  intros. split; [reflexivity|].
  cbn. intros H. apply app_inv_head in H. discriminate.
Qed.

(** ** emit_br_code *)










Lemma emits_ret : emits (ret tt) [].
Proof.
  intros s. unfold ret. do 2 f_equal. destruct s; unfold set_output; cbn.
  now rewrite app_nil_r.
Qed.


Lemma emits_when b m a :
  emits m a -> emits (when b m) (if b then a else []).
Proof. intros Hm. destruct b; [exact Hm | apply emits_ret]. Qed.



(** ** Branch back-patching *)

Lemma length_patch idx buf o :
  (idx + length buf <= length o)%nat -> length (patch idx buf o) = length o.
Proof.
  intros H. unfold patch. rewrite !length_app, length_take, length_drop. lia.
Qed.

Lemma patch_lookup idx buf o i :
  (idx + length buf <= length o)%nat ->
  patch idx buf o !! i =
    if decide (idx <= i < idx + length buf)%nat then buf !! (i - idx)%nat
    else o !! i.
Proof.
  intros H. unfold patch.
  assert (Ht : length (take idx o) = idx) by (rewrite length_take; lia).
  case_decide as Hin.
  - rewrite lookup_app_r by lia. rewrite Ht.
    apply lookup_app_l. lia.
  - destruct (decide (i < idx)%nat).
    + rewrite lookup_app_l by lia. apply lookup_take_lt. lia.
    + rewrite lookup_app_r by lia. rewrite lookup_app_r by lia.
      rewrite lookup_drop, Ht. f_equal. lia.
Qed.

(** The bytes stored by a patch can be read back. *)
Lemma patch_read idx buf o :
  (idx + length buf <= length o)%nat ->
  take (length buf) (drop idx (patch idx buf o)) = buf.
Proof.
  intros H. apply list_eq. intros i.
  destruct (decide (i < length buf)%nat) as [Hi|Hi].
  - rewrite lookup_take_lt, lookup_drop, patch_lookup by lia.
    case_decide; [f_equal; lia | lia].
  - rewrite lookup_take_ge by lia. symmetry. apply lookup_ge_None. lia.
Qed.

(** A patch leaves every disjoint window of the buffer as it was. *)
Lemma patch_frame idx buf o off n :
  (idx + length buf <= length o)%nat ->
  (off + n <= idx \/ idx + length buf <= off)%nat ->
  take n (drop off (patch idx buf o)) = take n (drop off o).
Proof.
  intros H Hd. apply list_eq. intros i.
  destruct (decide (i < n)%nat) as [Hi|Hi].
  - rewrite !lookup_take_lt, !lookup_drop, patch_lookup by lia.
    case_decide; [lia | reflexivity].
  - now rewrite !lookup_take_ge by lia.
Qed.

Lemma output_store_Some idx buf u s s' :
  output_store idx buf s = Some (u, s') <->
  (idx + length buf <= length (output s))%nat /\
  s' = set_output (patch idx buf) s.
Proof.
  unfold output_store. split.
  - intros H. minv1 H. apply Nat.leb_le in H. auto.
  - intros [H ->]. unfold bind, output_n_elts, gets, assert.
    apply Nat.leb_le in H. rewrite H. destruct u. reflexivity.
Qed.

Lemma resolved_functional e l b t1 t2 :
  resolved e l b t1 -> resolved e l b t2 -> t1 = t2.
Proof. intros [[? ?]|[? ?]] [[? ?]|[? ?]]; congruence. Qed.

Lemma fix_branch_Some b s t :
  resolved (length (output s)) (labels s) b t ->
  (branch_offset b + 5 <= length (output s))%nat ->
  fix_branch b s =
    Some (tt, set_output
                (patch (branch_offset b)
                   (0xe9 :: encode_le_uint32_t (displacement b t))) s).
Proof.
  intros Hr Hb. unfold fix_branch, bind at 1, output_n_elts, gets.
  unfold bind at 1.
  assert (Ht : (if bp_continuation_idx b =? FUNC_EXIT_CONT
                then ret (length (output s))
                else lift (mjoin (labels s !! Z.to_nat (bp_continuation_idx b)))) s
               = Some (t, s)).
  { destruct Hr as [[Hc ->]|[Hc Hl]].
    - rewrite Hc, Z.eqb_refl. reflexivity.
    - apply Z.eqb_neq in Hc. rewrite Hc, Hl. reflexivity. }
  unfold bind. rewrite Ht.
  replace (Z.of_nat t - Z.of_nat (branch_offset b) - 5) with (displacement b t)
    by (unfold displacement; lia).
  apply output_store_Some. split; [|reflexivity].
  cbn [length]. rewrite length_encode_le_uint32_t. lia.
Qed.

Lemma length_jmp v : length (0xe9 :: encode_le_uint32_t v) = 5%nat.
Proof. cbn [length]. now rewrite length_encode_le_uint32_t. Qed.

Lemma fix_branch_inv b u s s' :
  fix_branch b s = Some (u, s') ->
  exists t,
    resolved (length (output s)) (labels s) b t /\
    (branch_offset b + 5 <= length (output s))%nat /\
    s' = set_output
           (patch (branch_offset b)
              (0xe9 :: encode_le_uint32_t (displacement b t))) s.
Proof.
  unfold fix_branch. intros H.
  apply bind_Some in H. destruct H as (n & s1 & Hn & H).
  apply output_n_elts_Some in Hn. destruct Hn as [-> ->].
  apply bind_Some in H. destruct H as (l & s1 & Hl & H).
  apply gets_Some in Hl. destruct Hl as [-> ->].
  apply bind_Some in H. destruct H as (t & s1 & Ht & H).
  exists t.
  assert (Hr : resolved (length (output s)) (labels s) b t /\ s1 = s).
  { unfold resolved.
    destruct (Z.eqb_spec (bp_continuation_idx b) FUNC_EXIT_CONT) as [Hc|Hc].
    - apply ret_Some in Ht. destruct Ht as [-> ->]. auto.
    - apply lift_Some in Ht. destruct Ht as [Ht ->]. split; [right|reflexivity].
      split; [exact Hc|].
      destruct (labels s !! Z.to_nat (bp_continuation_idx b)) as [[x|]|];
        cbn in Ht; congruence. }
  destruct Hr as [Hr ->]. split; [exact Hr|].
  apply output_store_Some in H. destruct H as [Hb ->].
  cbn [length] in Hb. rewrite length_encode_le_uint32_t in Hb.
  split; [lia|]. unfold displacement. do 4 f_equal. lia.
Qed.

Lemma fix_branches_frame bs : forall s s',
  fix_branches bs s = Some (tt, s') ->
  length (output s') = length (output s) /\ labels s' = labels s /\
  forall off,
    Forall (fun b => off + 5 <= branch_offset b \/ branch_offset b + 5 <= off)%nat bs ->
    take 5 (drop off (output s')) = take 5 (drop off (output s)).
Proof.
  induction bs as [|b bs IH]; intros s s' H; cbn [fix_branches] in H.
  - apply ret_Some in H. destruct H as [_ ->]. auto.
  - apply bind_Some in H. destruct H as (u & s1 & H1 & H2).
    apply IH in H2. destruct H2 as (Hlen & Hlab & Hframe).
    apply fix_branch_inv in H1. destruct H1 as (t & _ & Hb & ->).
    pose proof (length_jmp (displacement b t)) as Hj.
    unfold set_output in Hlen, Hlab, Hframe. cbn [output labels] in Hlen, Hlab, Hframe.
    rewrite length_patch in Hlen by lia.
    repeat split; auto.
    intros off Hall. inversion Hall as [|? ? Hb1 Hrest]; subst.
    rewrite (Hframe off Hrest). apply patch_frame; lia.
Qed.

Lemma fix_branches_sites :
  forall (bs : list BranchPointElt) (s : cstate),
    Forall (fun b => branch_offset b + 5 <= length (output s))%nat bs ->
    Forall (fun b => exists t, resolved (length (output s)) (labels s) b t) bs ->
    sites_disjoint bs ->
    exists s',
      fix_branches bs s = Some (tt, s') /\
      length (output s') = length (output s) /\
      forall b t,
        b ∈ bs ->
        resolved (length (output s)) (labels s) b t ->
        take 5 (drop (branch_offset b) (output s'))
          = 0xe9 :: encode_le_uint32_t (displacement b t).
Proof.
  induction bs as [|b bs IH]; intros s Hin Hres Hdis.
  - exists s. split; [reflexivity|]. split; [reflexivity|].
    intros b t Hb. inversion Hb.
  - inversion Hin as [|? ? Hb Hin']; subst.
    inversion Hres as [|? ? [t0 Ht0] Hres']; subst.
    inversion Hdis as [|? ? Hap Hdis']; subst.
    pose proof (fix_branch_Some b s t0 Ht0 Hb) as Hstep.
    set (s1 := set_output
                 (patch (branch_offset b)
                    (0xe9 :: encode_le_uint32_t (displacement b t0))) s) in *.
    pose proof (length_jmp (displacement b t0)) as Hj.
    assert (Hlen1 : length (output s1) = length (output s)).
    { unfold s1, set_output. cbn [output]. apply length_patch. lia. }
    destruct (IH s1) as (s' & Hrun & Hlen & Hall).
    { rewrite Hlen1. exact Hin'. }
    { rewrite Hlen1. exact Hres'. }
    { exact Hdis'. }
    exists s'. split; [|split].
    + cbn [fix_branches]. unfold bind. rewrite Hstep. exact Hrun.
    + congruence.
    + intros b' t Hb' Hr'.
      apply elem_of_cons in Hb'. destruct Hb' as [->|Hb'].
      * rewrite (resolved_functional _ _ _ _ _ Hr' Ht0).
        destruct (fix_branches_frame _ _ _ Hrun) as (_ & _ & Hframe).
        rewrite Hframe.
        -- unfold s1, set_output. cbn [output]. rewrite <- Hj at 1.
           apply patch_read. lia.
        -- eapply Forall_impl; [exact Hap|]. unfold apart. intros; lia.
      * apply Hall; [exact Hb'|]. rewrite Hlen1. exact Hr'.
Qed.
Section TranslatorFacts.

Variable layout : Layout.
Variable func_types : list FuncType.
Variable module_types : ModuleTypes.
Variable type : FuncType.
Variable locals_md : list LocalsMD.
Variable n_locals : nat.
Variable n_frame_locals : nat.

Abbreviation compile_instruction :=
  (wasmjit_compile_instruction layout func_types module_types type locals_md
     n_locals n_frame_locals).
Abbreviation compile_instructions :=
  (wasmjit_compile_instructions layout func_types module_types type locals_md
     n_locals n_frame_locals).

(** The inner loop of the translator is [wasmjit_compile_instructions]. *)
Lemma compile_instruction_block op blocktype body :
  compile_instruction (Instr_block op blocktype body) =
  match op with
  | OPCODE_BLOCK | OPCODE_LOOP =>
      compile_block op blocktype (compile_instructions body)
  | _ => fail
  end.
Proof. reflexivity. Qed.

Lemma compile_instruction_if blocktype body_then body_else :
  compile_instruction (Instr_if blocktype body_then body_else) =
  compile_if blocktype (negb (length body_else =? 0)%nat)
    (compile_instructions body_then) (compile_instructions body_else).
Proof. reflexivity. Qed.

Lemma set_label_Some idx v u s s' :
  set_label idx v s = Some (u, s') ->
  (idx < length (labels s))%nat /\
  s' = set_labels (fun l => <[idx := Some v]> l) s.
Proof.
  unfold set_label. intros H.
  apply bind_Some in H. destruct H as (l & s1 & Hl & H).
  apply gets_Some in Hl. destruct Hl as [-> ->].
  apply bind_Some in H. destruct H as (u1 & s1 & Ha & H).
  apply assert_Some in Ha. destruct Ha as [Ha ->].
  apply modify_Some in H. apply Nat.ltb_lt in Ha. auto.
Qed.

Lemma stack_truncate_Some n u s s' :
  stack_truncate n s = Some (u, s') ->
  (n <= length (sstack s))%nat /\ s' = set_sstack (take n) s.
Proof.
  unfold stack_truncate. intros H.
  apply bind_Some in H. destruct H as (l & s1 & Hl & H).
  apply gets_Some in Hl. destruct Hl as [-> ->].
  apply bind_Some in H. destruct H as (u1 & s1 & Ha & H).
  apply assert_Some in Ha. destruct Ha as [Ha ->].
  apply modify_Some in H. apply Nat.leb_le in Ha. auto.
Qed.

Lemma shift_results_Some stack_idx arity u s s' :
  shift_results stack_idx arity s = Some (u, s') ->
  output s' = output s /\ labels s' = labels s.
Proof.
  unfold shift_results. intros H.
  apply bind_Some in H. destruct H as (l & s1 & Hl & H).
  apply gets_Some in Hl. destruct Hl as [-> ->].
  apply bind_Some in H. destruct H as (u1 & s1 & Ha & H).
  apply assert_Some in Ha. destruct Ha as [Ha ->].
  apply bind_Some in H. destruct H as (u2 & s1 & Hm & H).
  apply modify_Some in Hm. subst s1.
  apply stack_truncate_Some in H. destruct H as [_ ->]. auto.
Qed.

(** C8.  After the translation of a [block] or [loop], the label entry the
    construct allocated (index [length (labels s)], the continuation id of
    its label slot) holds the offset right after the code of the body for
    a [block], and the offset where the body starts for a [loop]; nothing
    is emitted before or after the body. *)
Theorem block_loop_label_entry :
  forall (op : opcode) (blocktype : valtype) (body : list Instr) (s s' : cstate),
    op = OPCODE_BLOCK \/ op = OPCODE_LOOP ->
    compile_instruction (Instr_block op blocktype body) s = Some (tt, s') ->
    let label_idx := length (labels s) in
    let s0 :=
      set_sstack (fun st => st ++ [STACK_LABEL (block_arity blocktype)
                                     (Z.of_nat label_idx)])
        (set_labels (fun l => l ++ [None]) s) in
    exists s1,
      compile_instructions body s0 = Some (tt, s1) /\
      output s0 = output s /\
      length (output s') = length (output s1) /\
      labels s' !! label_idx =
        Some (Some (match op with
                    | OPCODE_LOOP => length (output s)
                    | _ => length (output s1)
                    end)).
Proof.
  intros op blocktype body s s' Hop H label_idx s0.
  rewrite compile_instruction_block in H.
  assert (Hb : compile_block op blocktype (compile_instructions body) s
               = Some (tt, s')) by (destruct Hop as [-> | ->]; exact H).
  clear H. unfold compile_block in Hb.
  apply bind_Some in Hb. destruct Hb as (li & s1 & Hl & Hb).
  apply gets_Some in Hl. destruct Hl as [-> ->].
  apply bind_Some in Hb. destruct Hb as (u & s1 & Hl & Hb).
  apply modify_Some in Hl. subst s1.
  apply bind_Some in Hb. destruct Hb as (si & s1 & Hl & Hb).
  apply gets_Some in Hl. destruct Hl as [-> ->].
  apply bind_Some in Hb. destruct Hb as (u1 & s1 & Hl & Hb).
  apply modify_Some in Hl. subst s1.
  apply bind_Some in Hb. destruct Hb as (oi & s1 & Hl & Hb).
  apply output_n_elts_Some in Hl. destruct Hl as [-> ->].
  apply bind_Some in Hb. destruct Hb as ([] & s1 & Hbody & Hb).
  apply bind_Some in Hb. destruct Hb as (u2 & s2 & Hsh & Hb).
  apply shift_results_Some in Hsh. destruct Hsh as [Hout Hlab].
  exists s1. split; [exact Hbody|]. split; [reflexivity|].
  destruct Hop as [-> | ->].
  - apply bind_Some in Hb. destruct Hb as (n & s3 & Hn & Hb).
    apply output_n_elts_Some in Hn. destruct Hn as [-> ->].
    apply set_label_Some in Hb. destruct Hb as [Hlt ->].
    cbn [output labels set_labels]. split; [congruence|].
    rewrite list_lookup_insert_eq by exact Hlt. now rewrite Hout.
  - apply set_label_Some in Hb. destruct Hb as [Hlt ->].
    cbn [output labels set_labels]. split; [congruence|].
    rewrite list_lookup_insert_eq by exact Hlt. reflexivity.
Qed.

End TranslatorFacts.
(** ** Induction over nested instructions *)

Section InstrInduction.

Variable P : Instr -> Prop.

Hypothesis P_plain : forall op, P (Instr_plain op).
Hypothesis P_block : forall op bt body, Forall P body -> P (Instr_block op bt body).
Hypothesis P_if : forall bt body_then,
  Forall P body_then -> forall body_else,
  Forall P body_else -> P (Instr_if bt body_then body_else).
Hypothesis P_br : forall op l, P (Instr_br op l).
Hypothesis P_br_table : forall ls l, P (Instr_br_table ls l).
Hypothesis P_call : forall f, P (Instr_call f).
Hypothesis P_call_indirect : forall t, P (Instr_call_indirect t).
Hypothesis P_local : forall op idx, P (Instr_local op idx).
Hypothesis P_global : forall op idx, P (Instr_global op idx).
Hypothesis P_loadstore : forall op al off, P (Instr_loadstore op al off).
Hypothesis P_i32_const : forall v, P (Instr_i32_const v).
Hypothesis P_i64_const : forall v, P (Instr_i64_const v).
Hypothesis P_f64_const : forall v, P (Instr_f64_const v).

Fixpoint Instr_nested_ind (i : Instr) : P i :=
  let all :=
    fix all (l : list Instr) : Forall P l :=
      match l with
      | [] => @List.Forall_nil Instr P
      | x :: rest => @List.Forall_cons Instr P x rest (Instr_nested_ind x) (all rest)
      end in
  match i with
  | Instr_plain op => P_plain op
  | Instr_block op bt body => P_block op bt body (all body)
  | Instr_if bt body_then body_else =>
      P_if bt body_then (all body_then) body_else (all body_else)
  | Instr_br op l => P_br op l
  | Instr_br_table ls l => P_br_table ls l
  | Instr_call f => P_call f
  | Instr_call_indirect t => P_call_indirect t
  | Instr_local op idx => P_local op idx
  | Instr_global op idx => P_global op idx
  | Instr_loadstore op al off => P_loadstore op al off
  | Instr_i32_const v => P_i32_const v
  | Instr_i64_const v => P_i64_const v
  | Instr_f64_const v => P_f64_const v
  end.

End InstrInduction.

(** ** Invariants of the translator *)

Section Invariant.

(** [Inv] is a property of the compiler state, [ok_idx] of the buffer
    offsets at which the translator may store or record a branch, and
    [ok_memref] of the relocation entries it may append. *)
Variable Inv : cstate -> Prop.
Variable ok_idx : nat -> Prop.
Variable ok_memref : MemoryReferenceElt -> Prop.

Hypothesis HI : invariant_ok Inv ok_idx ok_memref.

Local Abbreviation pres := (preserves Inv).

Lemma Inv_append s buf : Inv s -> Inv (set_output (fun o => o ++ buf) s).
Proof. apply HI. Qed.

Lemma Inv_patch s idx buf :
  Inv s -> ok_idx idx -> (idx + length buf <= length (output s))%nat ->
  Inv (set_output (patch idx buf) s).
Proof. apply HI. Qed.

Lemma Inv_labels s f : Inv s -> Inv (set_labels f s).
Proof. apply HI. Qed.

Lemma Inv_sstack s f : Inv s -> Inv (set_sstack f s).
Proof. apply HI. Qed.

Lemma Inv_branch s off c :
  Inv s -> ok_idx off -> Inv (set_branches (fun b => b ++ [mkBranch off c]) s).
Proof. apply HI. Qed.

Lemma Inv_memref s m :
  Inv s -> ok_memref m -> Inv (set_memrefs (fun l => l ++ [m]) s).
Proof. apply HI. Qed.

Lemma Inv_length s : Inv s -> ok_idx (length (output s)).
Proof. apply HI. Qed.

Lemma Inv_branches s :
  Inv s -> Forall (fun b => ok_idx (branch_offset b)) (branches s).
Proof. apply HI. Qed.

Lemma ok_idx_mono n m : ok_idx n -> (n <= m)%nat -> ok_idx m.
Proof. apply HI. Qed.

Lemma ok_memref_zero t off : ok_memref (mkMemref t off (Some 0)).
Proof. apply HI. Qed.

Lemma ok_memref_other t off idx :
  t <> MEMREF_MEM -> t <> MEMREF_TABLE -> ok_memref (mkMemref t off idx).
Proof. apply HI. Qed.

Lemma pres_weaken {A} (m : M A) (phi psi : A -> Prop) :
  pres m phi -> (forall a, phi a -> psi a) -> pres m psi.
Proof. intros H Himp s a s' Hi Hm. destruct (H s a s' Hi Hm). auto. Qed.

Lemma pres_ret {A} (a : A) (phi : A -> Prop) : phi a -> pres (ret a) phi.
Proof. intros H s b s' Hi Hm. apply ret_Some in Hm. destruct Hm as [-> ->]. auto. Qed.

Lemma pres_fail {A} (phi : A -> Prop) : pres fail phi.
Proof. intros s a s' _ H. discriminate H. Qed.

Lemma pres_bind {A B} (m : M A) (k : A -> M B) phi psi :
  pres m phi -> (forall a, phi a -> pres (k a) psi) -> pres (bind m k) psi.
Proof.
  intros Hm Hk s b s' Hi H. apply bind_Some in H.
  destruct H as (a & s1 & H1 & H2).
  destruct (Hm s a s1 Hi H1) as [Hi1 Ha]. exact (Hk a Ha s1 b s' Hi1 H2).
Qed.

Lemma pres_seq {A B} (m : M A) (k : A -> M B) psi :
  pres m anyv -> (forall a, pres (k a) psi) -> pres (bind m k) psi.
Proof. intros Hm Hk. apply (pres_bind m k anyv); auto. Qed.

Lemma pres_gets {A} (f : cstate -> A) : pres (gets f) anyv.
Proof.
  intros s a s' Hi H. apply gets_Some in H. destruct H as [-> ->].
  split; [exact Hi | exact I].
Qed.

Lemma pres_assert b : pres (assert b) (fun _ => b = true).
Proof. intros s a s' Hi H. apply assert_Some in H. destruct H as [-> ->]. auto. Qed.

Lemma pres_lift {A} (o : option A) : pres (lift o) anyv.
Proof.
  intros s a s' Hi H. apply lift_Some in H. destruct H as [_ ->].
  split; [exact Hi | exact I].
Qed.

Lemma pres_modify f : (forall s, Inv s -> Inv (f s)) -> pres (modify f) anyv.
Proof.
  intros Hf s a s' Hi H. apply modify_Some in H. subst.
  split; [auto | exact I].
Qed.

Lemma pres_when b m : pres m anyv -> pres (when b m) anyv.
Proof. intros H. destruct b; [exact H | now apply pres_ret]. Qed.

Lemma pres_output_buf buf : pres (output_buf buf) anyv.
Proof. apply pres_modify. intros s. apply Inv_append. Qed.

Lemma pres_OUTS str : pres (OUTS str) anyv.
Proof. apply pres_output_buf. Qed.

Lemma pres_OUTB b : pres (OUTB b) anyv.
Proof.
  unfold OUTB. apply pres_seq; [eapply pres_weaken; [apply pres_assert|easy]|].
  intros _. apply pres_output_buf.
Qed.

Lemma pres_output_n_elts : pres output_n_elts ok_idx.
Proof.
  intros s n s' Hi H. apply output_n_elts_Some in H. destruct H as [-> ->].
  split; [exact Hi | apply Inv_length; exact Hi].
Qed.

(** The buffer length read right after a literal was written. *)
Lemma pres_OUTS_n {B} str (k : nat -> M B) psi :
  (forall n, (strlen str <= n)%nat -> ok_idx (n - strlen str) -> pres (k n) psi) ->
  pres (OUTS str ;; n <- output_n_elts ;; k n) psi.
Proof.
  intros Hk s b s' Hi H.
  apply bind_Some in H. destruct H as (u & s1 & H1 & H).
  apply OUTS_Some in H1. subst s1.
  apply bind_Some in H. destruct H as (n & s2 & H2 & H).
  apply output_n_elts_Some in H2. destruct H2 as [-> ->].
  refine (Hk _ _ _ _ b s' (Inv_append _ _ Hi) H).
  - cbn. rewrite length_app, length_take.
    pose proof (strlen_le str). lia.
  - cbn. rewrite length_app, length_take.
    pose proof (strlen_le str).
    replace (length (output s) + strlen str `min` length str - strlen str)%nat
      with (length (output s)) by lia.
    apply Inv_length. exact Hi.
Qed.

Lemma pres_output_store idx buf :
  ok_idx idx -> pres (output_store idx buf) anyv.
Proof.
  intros Hok s a s' Hi H. apply output_store_Some in H.
  destruct H as [Hb ->]. split; [apply Inv_patch; assumption | exact I].
Qed.

Lemma pres_push_stack t : pres (push_stack t) anyv.
Proof.
  unfold push_stack. apply pres_seq; [eapply pres_weaken; [apply pres_assert|easy]|].
  intros _. apply pres_modify. intros s. apply Inv_sstack.
Qed.

Lemma pres_peek_stack : pres peek_stack anyv.
Proof.
  unfold peek_stack. apply pres_seq; [apply pres_gets|]. intros st.
  apply pres_lift.
Qed.

Lemma pres_pop_stack : pres pop_stack anyv.
Proof.
  unfold pop_stack. apply pres_seq; [apply pres_gets|]. intros st.
  apply pres_seq; [eapply pres_weaken; [apply pres_assert|easy]|].
  intros _. apply pres_modify. intros s. apply Inv_sstack.
Qed.

Lemma pres_assert_any b : pres (assert b) anyv.
Proof. eapply pres_weaken; [apply pres_assert|easy]. Qed.

Lemma pres_assert_peek t : pres (assert_peek t) anyv.
Proof.
  unfold assert_peek. apply pres_seq; [apply pres_peek_stack|]. intros e.
  apply pres_assert_any.
Qed.

Lemma pres_stack_truncate n : pres (stack_truncate n) anyv.
Proof.
  unfold stack_truncate. apply pres_seq; [apply pres_gets|]. intros st.
  apply pres_seq; [apply pres_assert_any|].
  intros _. apply pres_modify. intros s. apply Inv_sstack.
Qed.

Lemma pres_push_label a c : pres (push_label a c) anyv.
Proof. apply pres_modify. intros s. apply Inv_sstack. Qed.

Lemma pres_INC_LABELS : pres INC_LABELS anyv.
Proof. apply pres_modify. intros s. apply Inv_labels. Qed.

Lemma pres_set_label i v : pres (set_label i v) anyv.
Proof.
  unfold set_label. apply pres_seq; [apply pres_gets|]. intros l.
  apply pres_seq; [apply pres_assert_any|].
  intros _. apply pres_modify. intros s. apply Inv_labels.
Qed.

Lemma pres_add_branch off c : ok_idx off -> pres (add_branch off c) anyv.
Proof. intros H. apply pres_modify. intros s Hi. now apply Inv_branch. Qed.

Lemma pres_add_memref t off idx :
  ok_memref (mkMemref t off idx) -> pres (add_memref t off idx) anyv.
Proof. intros H. apply pres_modify. intros s Hi. now apply Inv_memref. Qed.

Lemma pres_shift_results i a : pres (shift_results i a) anyv.
Proof.
  unfold shift_results. apply pres_seq; [apply pres_gets|]. intros st.
  apply pres_seq; [apply pres_assert_any|]. intros _.
  apply pres_seq; [apply pres_modify; intros s; apply Inv_sstack|]. intros _.
  apply pres_stack_truncate.
Qed.


Ltac ok_idx_tac :=
  cbv beta in *;
  repeat match goal with
         | H : context [strlen ?l] |- _ =>
             let v := eval vm_compute in (strlen l) in
             change (strlen l) with v in H
         end;
  repeat match goal with
         | H : (_ <=? _)%nat = true |- _ => apply Nat.leb_le in H
         | H : (_ <? _)%nat = true |- _ => apply Nat.ltb_lt in H
         | H : _ && _ = true |- _ => apply andb_true_iff in H; destruct H
         end;
  match goal with
  | H : ok_idx ?n |- ok_idx ?m => solve [apply (ok_idx_mono n m H); lia]
  end.

Ltac pres_go :=
  cbv beta zeta;
  lazymatch goal with
  | |- pres (bind (OUTS _) (fun _ => bind output_n_elts _)) _ =>
      apply pres_OUTS_n; intros ? ? ?
  | |- pres (bind output_n_elts _) _ =>
      eapply pres_bind; [apply pres_output_n_elts | intros ? ?]
  | |- pres (bind (assert _) _) _ =>
      eapply pres_bind; [apply pres_assert | intros ? ?]
  | |- pres (bind _ _) _ => apply pres_seq; [ | intros ? ]
  | |- pres (when _ _) _ => apply pres_when
  | |- pres (ret _) _ => apply pres_ret; exact I
  | |- pres fail _ => apply pres_fail
  | |- pres (OUTS _) _ => apply pres_OUTS
  | |- pres (OUTB _) _ => apply pres_OUTB
  | |- pres (output_buf _) _ => apply pres_output_buf
  | |- pres (gets _) _ => apply pres_gets
  | |- pres (lift _) _ => apply pres_lift
  | |- pres (assert _) _ => apply pres_assert_any
  | |- pres (assert_peek _) _ => apply pres_assert_peek
  | |- pres pop_stack _ => apply pres_pop_stack
  | |- pres peek_stack _ => apply pres_peek_stack
  | |- pres (push_stack _) _ => apply pres_push_stack
  | |- pres (stack_truncate _) _ => apply pres_stack_truncate
  | |- pres (push_label _ _) _ => apply pres_push_label
  | |- pres INC_LABELS _ => apply pres_INC_LABELS
  | |- pres (set_label _ _) _ => apply pres_set_label
  | |- pres (shift_results _ _) _ => apply pres_shift_results
  | |- pres (output_store _ _) _ => apply pres_output_store; ok_idx_tac
  | |- pres (add_branch _ _) _ => apply pres_add_branch; ok_idx_tac
  | |- pres (add_memref _ _ (Some 0)) _ =>
      apply pres_add_memref; apply ok_memref_zero
  | |- pres (add_memref _ _ _) _ =>
      apply pres_add_memref; apply ok_memref_other; discriminate
  | |- pres (match ?x with _ => _ end) _ => destruct x
  end.

Lemma pres_emit_br_code l : pres (emit_br_code l) anyv.
Proof. unfold emit_br_code. repeat pres_go. Qed.

Lemma pres_compile_block op bt body :
  pres body anyv -> pres (compile_block op bt body) anyv.
Proof. intros Hb. unfold compile_block. repeat first [exact Hb | pres_go]. Qed.

Lemma pres_fixup_forward_jump off :
  ok_idx off -> pres (fixup_forward_jump off) anyv.
Proof. intros Hoff. unfold fixup_forward_jump. repeat pres_go. Qed.

Lemma pres_compile_if bt has_else body_then body_else :
  pres body_then anyv -> pres body_else anyv ->
  pres (compile_if bt has_else body_then body_else) anyv.
Proof.
  intros Ht He. unfold compile_if.
  repeat first [ exact Ht | exact He
               | apply pres_fixup_forward_jump; ok_idx_tac | pres_go ].
Qed.

Lemma pres_compile_br op l : pres (compile_br op l) anyv.
Proof.
  unfold compile_br. repeat first [apply pres_emit_br_code | pres_go].
Qed.

Lemma pres_br_table_slots n : pres (br_table_slots n) anyv.
Proof. induction n; cbn [br_table_slots]; repeat first [exact IHn | pres_go]. Qed.

Lemma pres_br_table_branches table_offset ls : forall i,
  ok_idx table_offset ->
  pres (br_table_branches table_offset i ls)
    (Forall (fun e => (5 <= e)%nat /\ ok_idx (e - 5))).
Proof.
  induction ls as [|l ls IH]; intros i Hok; cbn [br_table_branches].
  - apply pres_ret. constructor.
  - eapply pres_bind; [apply pres_output_n_elts | intros n Hn].
    apply pres_seq; [pres_go|intros _].
    apply pres_seq; [apply pres_emit_br_code|intros _].
    apply pres_OUTS_n. intros e He1 He2.
    eapply pres_bind; [apply (IH (S i) Hok)|]. intros es Hes.
    apply pres_ret. constructor; [split; [exact He1 | exact He2] | exact Hes].
Qed.

Lemma pres_br_table_ends es :
  Forall (fun e => (5 <= e)%nat /\ ok_idx (e - 5)) es ->
  pres (br_table_ends es) anyv.
Proof.
  induction 1 as [|e es [He1 He2] _ IH]; cbn [br_table_ends].
  - pres_go.
  - repeat first [exact IH | pres_go].
Qed.

Lemma pres_compile_br_table ls l : pres (compile_br_table ls l) anyv.
Proof.
  unfold compile_br_table.
  do 4 (apply pres_seq; [pres_go|intros _]).
  apply pres_OUTS_n. intros dbo Hd1 Hd2.
  do 3 (apply pres_seq; [pres_go|intros _]).
  apply pres_OUTS_n. intros table_offset Ht1 Ht2.
  apply pres_seq; [apply pres_br_table_slots|intros _].
  eapply pres_bind; [apply pres_br_table_branches; ok_idx_tac|].
  intros es Hes.
  repeat first [ apply pres_emit_br_code
               | apply pres_br_table_ends; exact Hes | pres_go ].
Qed.

Lemma pres_call_marshal n_inputs aligned inputs : forall i a b c,
  pres (call_marshal n_inputs aligned inputs i a b c) anyv.
Proof.
  induction inputs as [|t rest IH]; intros i a b c; cbn [call_marshal].
  - pres_go.
  - repeat first [apply IH | pres_go].
Qed.

Section WithEnv.

Variable layout : Layout.
Variable func_types : list FuncType.
Variable module_types : ModuleTypes.
Variable type : FuncType.
Variable locals_md : list LocalsMD.
Variable n_locals : nat.
Variable n_frame_locals : nat.

Lemma pres_compile_return : pres (compile_return type n_frame_locals) anyv.
Proof. unfold compile_return. repeat pres_go. Qed.

Lemma pres_compile_call target :
  pres (compile_call layout func_types module_types n_frame_locals target) anyv.
Proof.
  unfold compile_call. repeat first [apply pres_call_marshal | pres_go].
Qed.

Lemma pres_compile_local op idx :
  pres (compile_local locals_md n_locals op idx) anyv.
Proof. unfold compile_local, local_md. repeat pres_go. Qed.

Lemma pres_compile_global op idx :
  pres (compile_global layout module_types op idx) anyv.
Proof. unfold compile_global. repeat pres_go. Qed.

Lemma pres_compile_bounds_check off :
  pres (compile_bounds_check layout off) anyv.
Proof. unfold compile_bounds_check. repeat pres_go. Qed.

Lemma pres_compile_loadstore op off :
  pres (compile_loadstore layout op off) anyv.
Proof.
  unfold compile_loadstore.
  repeat first [apply pres_compile_bounds_check | pres_go].
Qed.

Lemma pres_rexw op : pres (rexw op) anyv.
Proof. unfold rexw. repeat pres_go. Qed.

Lemma pres_compile_plain op :
  pres (compile_plain type n_frame_locals op) anyv.
Proof.
  unfold compile_plain, compile_compare, compile_f64_compare, compile_arith,
    compile_divrem, compile_shift, compile_f64_arith.
  destruct op;
    repeat first [apply pres_compile_return | apply pres_rexw | pres_go].
Qed.

Abbreviation compile_instruction :=
  (wasmjit_compile_instruction layout func_types module_types type locals_md
     n_locals n_frame_locals).
Abbreviation compile_instructions :=
  (wasmjit_compile_instructions layout func_types module_types type locals_md
     n_locals n_frame_locals).

Lemma pres_compile_instructions_Forall l :
  Forall (fun i => pres (compile_instruction i) anyv) l ->
  pres (compile_instructions l) anyv.
Proof.
  induction 1 as [|i l Hi _ IH]; cbn [wasmjit_compile_instructions].
  - pres_go.
  - apply pres_seq; [exact Hi | intros _; exact IH].
Qed.

Lemma pres_compile_instruction i : pres (compile_instruction i) anyv.
Proof.
  induction i as [op|op bt body IH|bt body_then IHt body_else IHe
                 |op l|ls l|f|t|op idx|op idx|op al off|v|v|v]
    using Instr_nested_ind.
  - apply pres_compile_plain.
  - rewrite compile_instruction_block.
    destruct op; try apply pres_fail;
      apply pres_compile_block, pres_compile_instructions_Forall, IH.
  - rewrite compile_instruction_if.
    apply pres_compile_if; apply pres_compile_instructions_Forall; assumption.
  - apply pres_compile_br.
  - apply pres_compile_br_table.
  - apply pres_compile_call.
  - apply pres_compile_call.
  - apply pres_compile_local.
  - apply pres_compile_global.
  - apply pres_compile_loadstore.
  - cbn [wasmjit_compile_instruction]. repeat pres_go.
  - cbn [wasmjit_compile_instruction]. repeat pres_go.
  - cbn [wasmjit_compile_instruction]. repeat pres_go.
Qed.

Lemma pres_compile_instructions l : pres (compile_instructions l) anyv.
Proof.
  apply pres_compile_instructions_Forall, Forall_forall.
  intros i _. apply pres_compile_instruction.
Qed.

Lemma pres_fix_branch b : ok_idx (branch_offset b) -> pres (fix_branch b) anyv.
Proof.
  intros Hb. unfold fix_branch.
  eapply pres_bind; [apply pres_output_n_elts | intros n Hn].
  apply pres_seq; [pres_go | intros lb].
  apply pres_seq.
  - destruct (bp_continuation_idx b =? FUNC_EXIT_CONT); pres_go.
  - intros t. apply pres_output_store. exact Hb.
Qed.

Lemma pres_fix_branches bs :
  Forall (fun b => ok_idx (branch_offset b)) bs -> pres (fix_branches bs) anyv.
Proof.
  induction 1 as [|b bs Hb _ IH]; cbn [fix_branches].
  - pres_go.
  - apply pres_seq; [apply pres_fix_branch, Hb | intros _; exact IH].
Qed.

Lemma pres_fix_branch_points : pres fix_branch_points anyv.
Proof.
  intros s u s' Hi H. unfold fix_branch_points in H.
  apply bind_Some in H. destruct H as (bs & s1 & Hbs & H).
  apply gets_Some in Hbs. destruct Hbs as [-> ->].
  exact (pres_fix_branches _ (Inv_branches _ Hi) s u s' Hi H).
Qed.

Lemma pres_emit_epilogue : pres (emit_epilogue type n_frame_locals) anyv.
Proof. unfold emit_epilogue, epilogue_result, epilogue_frame. repeat pres_go. Qed.

Lemma pres_prologue_spill params : forall a b,
  pres (prologue_spill params a b) anyv.
Proof.
  induction params as [|md rest IH]; intros a b; cbn [prologue_spill].
  - pres_go.
  - destruct (0 <? fp_offset md); [apply IH|].
    destruct (is_int_type (lmd_valtype md)).
    + repeat first [apply IH | pres_go].
    + apply pres_seq.
      * destruct (valtype_eqb (lmd_valtype md) VALTYPE_F32); repeat pres_go.
      * intros m. repeat first [apply IH | pres_go].
Qed.

Lemma pres_prologue_frame : pres (prologue_frame n_frame_locals) anyv.
Proof. unfold prologue_frame. repeat pres_go. Qed.

Lemma pres_prologue_init_locals n : pres (prologue_init_locals n) anyv.
Proof.
  unfold prologue_init_locals.
  repeat first [ match goal with
                 | |- pres (if ?b then _ else _) _ => destruct b
                 end
               | pres_go ].
Qed.

Lemma pres_emit_prologue params n_declared :
  pres (emit_prologue params n_declared n_frame_locals) anyv.
Proof.
  unfold emit_prologue.
  repeat first [ apply pres_prologue_frame | apply pres_prologue_spill
               | apply pres_prologue_init_locals | pres_go ].
Qed.

Lemma pres_compile_function_body code :
  pres (compile_function_body layout func_types module_types type code
          locals_md n_locals n_frame_locals) anyv.
Proof.
  unfold compile_function_body.
  repeat first [ apply pres_emit_prologue | apply pres_compile_instructions
               | apply pres_fix_branch_points | apply pres_emit_epilogue
               | pres_go ].
Qed.

End WithEnv.

End Invariant.

(** ** Relocation entries *)

(** C10.  Whatever the function, the relocation table the compiler returns
    is the one it was given followed by appended entries, and every
    appended entry of kind Mem or Table has [idx] 0. *)
Theorem memrefs_mem_table_idx_zero :
  forall layout func_types module_types type code memrefs0 out memrefs',
    wasmjit_compile_function layout func_types module_types type code memrefs0
      = Some (out, memrefs') ->
    exists appended,
      memrefs' = memrefs0 ++ appended /\
      Forall addresses_instance_zero appended.
Proof.
  intros layout func_types module_types type code memrefs0 out memrefs' H.
  unfold wasmjit_compile_function in H.
  destruct (frame_layout type code) as [[[locals_md n_locals] n_frame_locals]|];
    [|discriminate].
  cbn in H.
  destruct (compile_function_body layout func_types module_types type code
              locals_md n_locals n_frame_locals (initial_state memrefs0))
    as [[u s]|] eqn:Hbody; [|discriminate].
  cbn in H. inversion H; subst. clear H.
  set (Inv := fun s : cstate =>
         exists appended, memrefs s = memrefs0 ++ appended /\
                          Forall addresses_instance_zero appended).
  assert (HI : invariant_ok Inv (fun _ => True) addresses_instance_zero).
  { unfold Inv. constructor; cbn; auto.
    - intros s0 m (app & Hm & Hall) Hok. exists (app ++ [m]).
      rewrite Hm, app_assoc. split; [reflexivity|].
      apply Forall_app. split; [exact Hall | repeat constructor; exact Hok].
    - intros s0 _. apply Forall_forall. auto.
    - intros t off _. reflexivity.
    - intros t off idx Hm Ht [?|?]; contradiction. }
  pose proof (pres_compile_function_body Inv _ _ HI layout func_types
                module_types type locals_md n_locals n_frame_locals code)
    as Hpres.
  apply (Hpres (initial_state memrefs0) u s); [|exact Hbody].
  exists []. cbn. rewrite app_nil_r. auto.
Qed.
(** ** Running generated code *)

Lemma run_S fuel code s i n :
  (rip s < length code)%nat ->
  decode (drop (rip s) code) = Some (i, n) ->
  run (S fuel) code s =
    match exec (length code) i (set_rip (rip s + n) s) with
    | Next s' => run fuel code s'
    | Trap t => Trapped t
    | Fault => Faulted
    end.
Proof.
  intros Hlt Hd. cbn [run].
  destruct (Nat.leb_spec (length code) (rip s)) as [Hle|_]; [lia|].
  unfold step. rewrite Hd. reflexivity.
Qed.

Lemma run_halted fuel code s :
  (length code <= rip s)%nat -> run fuel code s = Halted s.
Proof.
  intros H. destruct fuel; cbn [run];
    destruct (Nat.leb_spec (length code) (rip s)); try lia; reflexivity.
Qed.

Lemma store_bytes_below m a bs x : x < a -> store_bytes m a bs x = m x.
Proof.
  revert m a. induction bs as [|b bs IH]; intros m a Hx; cbn [store_bytes].
  - reflexivity.
  - rewrite IH by lia. unfold upd.
    destruct (Z.eqb_spec x a); [lia | reflexivity].
Qed.

Lemma load_bytes_store_bytes m a bs :
  load_bytes (length bs) (store_bytes m a bs) a = bs.
Proof.
  revert m a. induction bs as [|b bs IH]; intros m a; cbn [length load_bytes store_bytes].
  - reflexivity.
  - rewrite IH. f_equal. rewrite store_bytes_below by lia.
    unfold upd. now rewrite Z.eqb_refl.
Qed.

Lemma load_store_same n m a v :
  0 <= v < 256 ^ Z.of_nat n -> load n (store n m a v) a = v.
Proof.
  intros Hv. unfold load, store.
  rewrite <- (length_le_bytes n v) at 1.
  rewrite load_bytes_store_bytes, le_value_le_bytes.
  apply Z.mod_small. exact Hv.
Qed.

Section I32Const.

Variable layout : Layout.
Variable func_types : list FuncType.
Variable module_types : ModuleTypes.
Variable type : FuncType.
Variable locals_md : list LocalsMD.
Variable n_locals : nat.
Variable n_frame_locals : nat.

Lemma i32_const_code v cs :
  wasmjit_compile_instruction layout func_types module_types type locals_md
    n_locals n_frame_locals (Instr_i32_const v) cs
  = Some (tt, set_sstack (fun st => st ++ [STACK_I32])
                (set_output (fun o => o ++ 0x68 :: encode_le_uint32_t v) cs)).
Proof.
  cbn [wasmjit_compile_instruction]. unfold bind, OUTS, output_buf, modify.
  cbn [strlen Z.eqb take]. unfold push_stack, bind, assert, modify. cbn.
  destruct cs. unfold set_sstack, set_output. cbn.
  rewrite <- app_assoc. reflexivity.
Qed.

Lemma run_push_imm32 v s :
  rip s = 0%nat ->
  run 1 (0x68 :: encode_le_uint32_t v) s
  = Halted (push64 (sign_extend 32 (v mod 2 ^ 32)) (set_rip 5 s)).
Proof.
  intros Hrip.
  rewrite (run_S 0 _ s (I_push_imm (sign_extend 32 (v mod 2 ^ 32))) 5).
  - cbn [exec]. rewrite Hrip. apply run_halted.
    cbn [length rip push64 set_mem set_reg set_rip].
    rewrite length_encode_le_uint32_t. lia.
  - rewrite Hrip. cbn [length]. lia.
  - rewrite Hrip. cbn [drop].
    unfold decode. cbn [Z.eqb Pos.eqb Z.leb Z.compare Pos.compare Pos.compare_cont andb].
    unfold decode_opcode.
    cbn [Z.eqb Pos.eqb Z.leb Z.compare Pos.compare Pos.compare_cont andb].
    unfold imm_s. rewrite length_encode_le_uint32_t. cbn [Nat.leb].
    rewrite (take_ge (encode_le_uint32_t v) 4)
      by (rewrite length_encode_le_uint32_t; lia).
    rewrite le_value_encode_le_uint32_t. reflexivity.
Qed.

End I32Const.
Lemma cmp64_le a b :
  0 <= a < 2 ^ 64 -> 0 <= b < 2 ^ 64 ->
  exists r f, alu_result CMP W64 a b = Some (r, f) /\
              condition 14 f = Some (sign_extend 64 a <=? sign_extend 64 b).
Proof.
  intros Ha Hb. eexists _, _. split; [reflexivity|].
  unfold condition. cbn [Z.div Z.eqb Z.modulo]. 
  change (14 / 2) with 7. change (14 mod 2) with 0. cbn [Z.eqb Pos.eqb].
  cbn [ZF SF OF width_bits]. f_equal.
  unfold sign_extend.
  change (2 ^ 64) with 18446744073709551616 in *.
  change (2 ^ (64 - 1)) with 9223372036854775808.
  rewrite (Z.mod_small a), (Z.mod_small b) by lia.
  assert (Hr : (a - b) mod 18446744073709551616
               = if a <? b then a - b + 18446744073709551616 else a - b).
  { destruct (Z.ltb_spec a b).
    - symmetry. apply (Z.mod_unique _ _ (-1)); lia.
    - apply Z.mod_small. lia. }
  rewrite Hr.
  destruct (Z.ltb_spec a 9223372036854775808);
    destruct (Z.ltb_spec b 9223372036854775808);
    destruct (Z.ltb_spec a b);
    repeat match goal with
           | |- context [?x =? ?y] => destruct (Z.eqb_spec x y)
           | |- context [?x <=? ?y] => destruct (Z.leb_spec x y)
           | |- context [?x <? ?y] => destruct (Z.ltb_spec x y)
           end; cbn; try reflexivity; try lia.
Qed.
Lemma range_test b : -128 <= b <= 127 -> (b <=? 127) && (-128 <=? b) = true.
Proof.
  intros [H1 H2]. destruct (Z.leb_spec b 127); [|lia].
  destruct (Z.leb_spec (-128) b); [reflexivity|lia].
Qed.

(** The translation of a load or store, compiled on its own and linked, is
    [loadstore_bytes]. *)
Lemma loadstore_linked_code layout op offset M :
  is_loadstore op = true ->
  -128 <= off_MemInst_size layout <= 127 ->
  -128 <= off_MemInst_data layout <= 127 ->
  exists cs',
    compile_loadstore layout op offset
      (mkState [] [] [] [] (loadstore_stack op)) = Some (tt, cs') /\
    Forall (fun m => mr_type m = MEMREF_MEM) (memrefs cs') /\
    link (fun _ => M) (memrefs cs') (output cs') = loadstore_bytes layout op offset M.
Proof.
  intros Hop Hs Hd.
  unfold compile_loadstore, compile_bounds_check, OUTB, loadstore_bytes,
    check_bytes.
  rewrite (range_test _ Hs), (range_test _ Hd).
  destruct ((4 + offset) mod 2 ^ 32 =? 0);
    destruct op; try discriminate Hop;
    (eexists; split; [reflexivity|]; split; [repeat constructor | reflexivity]).
Qed.
Lemma run_more fuel k code s o :
  run fuel code s = o -> (forall s', o <> OutOfFuel s') ->
  run (fuel + k) code s = o.
Proof.
  revert s. induction fuel as [|fuel IH]; intros s H Ho.
  - cbn [run] in H. destruct (length code <=? rip s)%nat eqn:E.
    + rewrite run_halted by (apply Nat.leb_le; exact E). exact H.
    + subst o. exfalso. exact (Ho s eq_refl).
  - cbn [Nat.add run] in *. destruct (length code <=? rip s)%nat; [exact H|].
    destruct (step code s); auto.
Qed.

Lemma finishes_det code s o1 o2 :
  finishes code s o1 -> finishes code s o2 -> o1 = o2.
Proof.
  intros (f1 & H1 & N1) (f2 & H2 & N2).
  rewrite <- (run_more f1 f2 code s o1 H1 N1).
  rewrite <- (run_more f2 f1 code s o2 H2 N2).
  now rewrite Nat.add_comm.
Qed.

Lemma finishes_halted code s :
  (length code <= rip s)%nat -> finishes code s (Halted s).
Proof.
  intros H. exists 0%nat. split; [now apply run_halted | discriminate].
Qed.

(** One instruction of a run, at any position of the buffer. *)
Lemma finishes_step pre bytes post i s o :
  rip s = length pre ->
  decodes bytes i ->
  match exec (length (pre ++ bytes ++ post)) i
          (set_rip (length (pre ++ bytes)) s) with
  | Next s' => finishes ((pre ++ bytes) ++ post) s' o
  | Trap n => o = Trapped n
  | Fault => o = Faulted
  end ->
  finishes (pre ++ bytes ++ post) s o.
Proof.
  intros Hrip [Hlen Hdec] H.
  assert (Hstep : forall fuel,
             run (S fuel) (pre ++ bytes ++ post) s =
             match exec (length (pre ++ bytes ++ post)) i
                     (set_rip (length (pre ++ bytes)) s) with
             | Next s' => run fuel (pre ++ bytes ++ post) s'
             | Trap t => Trapped t
             | Fault => Faulted
             end).
  { intros fuel. rewrite (run_S fuel _ s i (length bytes)).
    - rewrite Hrip, (length_app pre bytes). reflexivity.
    - rewrite Hrip, !length_app. lia.
    - rewrite Hrip, drop_app_length. apply Hdec. }
  destruct (exec _ i _) as [s'|n|].
  - destruct H as (fuel & Hrun & Hno). exists (S fuel).
    rewrite Hstep, app_assoc. auto.
  - subst o. exists 1%nat. rewrite Hstep. split; [reflexivity|discriminate].
  - subst o. exists 1%nat. rewrite Hstep. split; [reflexivity|discriminate].
Qed.

Lemma upd_eq f k v : upd f k v k = v.
Proof. unfold upd. now rewrite Z.eqb_refl. Qed.

Lemma upd_neq f k v x : x <> k -> upd f k v x = f x.
Proof. unfold upd. intros H. apply Z.eqb_neq in H. now rewrite H. Qed.

Lemma le_value_range bs :
  Forall (fun b => 0 <= b < 256) bs -> 0 <= le_value bs < 256 ^ Z.of_nat (length bs).
Proof.
  induction 1 as [|b bs Hb _ IH]; [cbn; lia|].
  cbn [le_value length]. rewrite Nat2Z.inj_succ, Z.pow_succ_r by lia. lia.
Qed.

(** *** Encodings of the instructions around a memory access *)

Lemma take_le_bytes_app n v rest : take n (le_bytes n v ++ rest) = le_bytes n v.
Proof. apply take_app_length'. now rewrite length_le_bytes. Qed.

Lemma decodes_pop_rsi : decodes [0x5e] (I_pop_r RSI).
Proof. split; [cbn; lia | reflexivity]. Qed.

Lemma decodes_pop_rdi : decodes [0x5f] (I_pop_r RDI).
Proof. split; [cbn; lia | reflexivity]. Qed.

Lemma decodes_push_rax : decodes [0x50] (I_push_r RAX).
Proof. split; [cbn; lia | reflexivity]. Qed.

Lemma decodes_add_rsi v :
  decodes (c_add_rsi v)
    (I_alu_rm_imm ADD W64 (Reg RSI) (sign_extend 32 (v mod 2 ^ 32))).
Proof.
  split; [cbn; lia|]. intros rest.
  rewrite <- le_value_encode_le_uint32_t. reflexivity.
Qed.

Lemma decodes_movabs_rax v :
  decodes (c_movabs_rax v) (I_mov_ri W64 RAX (v mod 2 ^ 64)).
Proof.
  split; [cbn; lia|]. intros rest.
  rewrite <- le_value_encode_le_uint64_t. reflexivity.
Qed.
Lemma sign_extend_id bits v :
  0 < bits -> - 2 ^ (bits - 1) <= v < 2 ^ (bits - 1) ->
  sign_extend bits (v mod 2 ^ bits) = v.
Proof.
  intros Hb Hv. unfold sign_extend.
  assert (Hp : 2 ^ bits = 2 * 2 ^ (bits - 1)).
  { rewrite <- Z.pow_succ_r by lia. f_equal. lia. }
  assert (0 < 2 ^ (bits - 1)) by (apply Z.pow_pos_nonneg; lia).
  rewrite Z.mod_mod by lia.
  destruct (Z_lt_le_dec v 0).
  - assert (Hm : v mod 2 ^ bits = v + 2 ^ bits)
      by (symmetry; apply (Z.mod_unique _ _ (-1)); lia).
    rewrite Hm. destruct (Z.ltb_spec (v + 2 ^ bits) (2 ^ (bits - 1))); lia.
  - rewrite Z.mod_small by lia.
    destruct (Z.ltb_spec v (2 ^ (bits - 1))); lia.
Qed.

Lemma decodes_mov_rax_disp8 d :
  -128 <= d <= 127 ->
  decodes (c_mov_rax_disp8 d) (I_mov_r_rm W64 RAX (Mem (Some RAX) None 1 d)).
Proof.
  intros Hd. split; [cbn; lia|]. intros rest.
  change (Some (I_mov_r_rm W64 RAX
                  (Mem (Some RAX) None 1
                     (sign_extend 8 (d mod 256 + 256 * 0))), 4%nat)
          = Some (I_mov_r_rm W64 RAX (Mem (Some RAX) None 1 d), 4%nat)).
  rewrite Z.mul_0_r, Z.add_0_r.
  change 256 with (2 ^ 8). rewrite sign_extend_id by (cbn; lia). reflexivity.
Qed.

Lemma decodes_cmp_rax_rsi : decodes [0x48; 0x39; 0xc6] (I_alu_rm_r CMP W64 (Reg RSI) RAX).
Proof. split; [cbn; lia | reflexivity]. Qed.

Lemma decodes_jle_2 : decodes [0x7e; 0x02] (I_jcc 14 2).
Proof. split; [cbn; lia | reflexivity]. Qed.

Lemma decodes_int_4 : decodes [0xcd; 0x04] (I_int 4).
Proof. split; [cbn; lia | reflexivity]. Qed.

Lemma decodes_load32 :
  decodes [0x8b; 0x44; 0x30; 0xfc] (I_mov_r_rm W32 RAX access_operand).
Proof. split; [cbn; lia | reflexivity]. Qed.

Lemma decodes_load64 :
  decodes [0x48; 0x8b; 0x44; 0x30; 0xfc] (I_mov_r_rm W64 RAX access_operand).
Proof. split; [cbn; lia | reflexivity]. Qed.

Lemma decodes_load8_s :
  decodes [0x0f; 0xbe; 0x44; 0x30; 0xfc] (I_movsx_b W32 RAX access_operand).
Proof. split; [cbn; lia | reflexivity]. Qed.

Lemma decodes_store32 :
  decodes [0x89; 0x7c; 0x30; 0xfc] (I_mov_rm_r W32 access_operand RDI).
Proof. split; [cbn; lia | reflexivity]. Qed.

Lemma decodes_store8 :
  decodes [0x40; 0x88; 0x7c; 0x30; 0xfc] (I_mov_rm_r W8 access_operand RDI).
Proof. split; [cbn; lia | reflexivity]. Qed.

Lemma decodes_store16 :
  decodes [0x66; 0x89; 0x7c; 0x30; 0xfc] (I_mov_rm_r W16 access_operand RDI).
Proof. split; [cbn; lia | reflexivity]. Qed.

Lemma decodes_store64 :
  decodes [0x48; 0x89; 0x7c; 0x30; 0xfc] (I_mov_rm_r W64 access_operand RDI).
Proof. split; [cbn; lia | reflexivity]. Qed.
Lemma finishes_at code pre bytes post i s o :
  code = pre ++ bytes ++ post ->
  rip s = length pre ->
  decodes bytes i ->
  match exec (length code) i (set_rip (length pre + length bytes) s) with
  | Next s' => finishes code s' o
  | Trap n => o = Trapped n
  | Fault => o = Faulted
  end ->
  finishes code s o.
Proof.
  intros -> Hrip Hdec H. apply (finishes_step pre bytes post i s o Hrip Hdec).
  rewrite (length_app pre bytes), <- app_assoc. exact H.
Qed.

Lemma ends_at code pre bytes post i s Q :
  code = pre ++ bytes ++ post ->
  rip s = length pre ->
  decodes bytes i ->
  match exec (length code) i (set_rip (length pre + length bytes) s) with
  | Next s' => ends code s' Q
  | Trap n => Q (Trapped n)
  | Fault => Q Faulted
  end ->
  ends code s Q.
Proof.
  intros Hcode Hrip Hdec H.
  destruct (exec (length code) i (set_rip (length pre + length bytes) s))
    as [s'|n|] eqn:Hexec.
  - destruct H as (o & Hf & HQ). exists o. split; [|exact HQ].
    eapply finishes_at; eauto. rewrite Hexec. exact Hf.
  - exists (Trapped n). split; [|exact H].
    eapply finishes_at; eauto. rewrite Hexec. reflexivity.
  - exists Faulted. split; [|exact H].
    eapply finishes_at; eauto. rewrite Hexec. reflexivity.
Qed.

Ltac reg_neq := let E := fresh in intro E; vm_compute in E; discriminate E.

Ltac msimpl :=
  repeat progress
    (unfold push64, set_reg, set_rip, set_flags, set_mem, address,
       access_operand;
     cbn [regs fl mem rip write_reg read_operand write_operand width_bits
          width_bytes from_option];
     repeat first [rewrite upd_eq | rewrite upd_neq by reg_neq]).

(** One step of a run: [xstep pre bytes dec] executes the instruction
    encoded by [bytes] at offset [length pre]. *)
Ltac xstep pre bytes dec :=
  first [ eapply (finishes_at _ pre bytes _ _ _ _)
        | eapply (ends_at _ pre bytes _ _ _ _) ];
  [ match goal with H : ?c = _ |- ?c = _ => rewrite H end;
    rewrite <- ?app_assoc; reflexivity
  | msimpl; rewrite ?length_app; cbn [length]; lia
  | exact dec
  | cbn [exec]; msimpl ].

Lemma length_check_bytes offset so M :
  length (check_bytes offset so M)
  = if (4 + offset) mod 2 ^ 32 =? 0 then 22%nat else 29%nat.
Proof. unfold check_bytes. destruct (_ =? 0); reflexivity. Qed.

Lemma Zmod_mod_64 x : (x mod 2 ^ 64) mod 2 ^ 64 = x mod 2 ^ 64.
Proof. apply Z.mod_mod. lia. Qed.

Lemma alu_add64 a b :
  exists f, alu_result ADD W64 a b = Some ((a + b) mod 2 ^ 64, f).
Proof. eexists. reflexivity. Qed.

(** [cmp %rax, %rsi] followed by [jle +2] over [int $4]. *)
Lemma ends_cmp_jle_int code pre post s a b Q :
  code = pre ++ [0x48; 0x39; 0xc6] ++ [0x7e; 0x02] ++ [0xcd; 0x04] ++ post ->
  rip s = length pre ->
  regs s RSI = a -> 0 <= a < 2 ^ 64 ->
  regs s RAX = b -> 0 <= b < 2 ^ 64 ->
  (if sign_extend 64 a <=? sign_extend 64 b
   then forall f', ends code
                     (mkMachine (regs s) f' (mem s) (length pre + 7)) Q
   else Q (Trapped 4)) ->
  ends code s Q.
Proof.
  intros Hcode Hrip Ha Har Hb Hbr Hcont.
  xstep pre [0x48; 0x39; 0xc6] decodes_cmp_rax_rsi.
  rewrite Ha, Hb, !Z.mod_small by assumption.
  destruct (cmp64_le a b Har Hbr) as (r & f & Halu & Hcond). rewrite Halu.
  xstep (pre ++ [0x48; 0x39; 0xc6]) [0x7e; 0x02] decodes_jle_2.
  rewrite Hcond.
  destruct (sign_extend 64 a <=? sign_extend 64 b).
  - unfold jump. msimpl.
    assert (Hlen : length code = (length pre + 7 + length post)%nat).
    { rewrite Hcode, !length_app. cbn [length]. lia. }
    rewrite Hlen, !length_app. cbn [length].
    destruct (Z.leb_spec 0 (Z.of_nat (length pre + 3 + 2) + 2)); [|lia].
    destruct (Z.leb_spec (Z.of_nat (length pre + 3 + 2) + 2)
                (Z.of_nat (length pre + 7 + length post))); [|lia].
    cbn [andb].
    replace (Z.to_nat (Z.of_nat (length pre + 3 + 2) + 2))
      with (length pre + 7)%nat by lia.
    apply Hcont.
  - xstep ((pre ++ [0x48; 0x39; 0xc6]) ++ [0x7e; 0x02]) [0xcd; 0x04] decodes_int_4.
    exact Hcont.
Qed.

Lemma ends_bounds_check code pre post offset so M s ea size Q :
  code = pre ++ check_bytes offset so M ++ post ->
  rip s = length pre ->
  -128 <= so <= 127 -> 0 <= M < 2 ^ 64 ->
  load 8 (mem s) (regs s RSP) = ea -> 0 <= ea < 2 ^ 64 ->
  load 8 (mem s) ((M + so) mod 2 ^ 64) = size -> 0 <= size < 2 ^ 64 ->
  let ea' := (ea + bounds_addend offset) mod 2 ^ 64 in
  (if sign_extend 64 ea' <=? sign_extend 64 size
   then forall s',
       after_check (length (pre ++ check_bytes offset so M)) s s' ea' size ->
       ends code s' Q
   else Q (Trapped 4)) ->
  ends code s Q.
Proof.
  intros Hcode Hrip Hso HM Hea Hear Hsize Hsizer ea' Hcont.
  unfold check_bytes in Hcode. unfold bounds_addend in ea'.
  destruct ((4 + offset) mod 2 ^ 32 =? 0) eqn:Hadd.
  - (* no add instruction *)
    rewrite app_nil_l, <- ?app_assoc in Hcode.
    xstep pre [0x5e] decodes_pop_rsi.
    xstep (pre ++ [0x5e]) (c_movabs_rax M) (decodes_movabs_rax M).
    xstep ((pre ++ [0x5e]) ++ c_movabs_rax M) (c_mov_rax_disp8 so)
      (decodes_mov_rax_disp8 so Hso).
    rewrite Hea, !Zmod_mod_64, (Z.mod_small M), (Z.mod_small ea) by assumption.
    replace (M + 0 * 1 + so) with (M + so) by lia.
    rewrite Hsize, (Z.mod_small size) by assumption.
    eapply (ends_cmp_jle_int code
              (((pre ++ [0x5e]) ++ c_movabs_rax M) ++ c_mov_rax_disp8 so)
              post _ ea size).
    + rewrite Hcode, <- ?app_assoc. reflexivity.
    + msimpl. rewrite ?length_app. cbn [length]. lia.
    + msimpl. reflexivity.
    + assumption.
    + msimpl. reflexivity.
    + assumption.
    + subst ea'. rewrite Z.add_0_r, (Z.mod_small ea) in Hcont by assumption.
      destruct (sign_extend 64 ea <=? sign_extend 64 size); [|exact Hcont].
      intros f'. apply Hcont. unfold after_check. msimpl.
      rewrite !length_app, length_check_bytes, Hadd. cbn [length].
      change (length (c_movabs_rax M)) with 10%nat.
      change (length (c_mov_rax_disp8 so)) with 4%nat.
      repeat split; lia.
  - (* with the add instruction *)
    rewrite <- ?app_assoc in Hcode.
    xstep pre [0x5e] decodes_pop_rsi.
    xstep (pre ++ [0x5e]) (c_add_rsi (4 + offset)) (decodes_add_rsi (4 + offset)).
    destruct (alu_add64 (load 8 (mem s) (regs s RSP) mod 2 ^ 64 mod 2 ^ 64)
                (sign_extend 32 ((4 + offset) mod 2 ^ 32) mod 2 ^ 64))
      as (f & Halu).
    rewrite Halu. msimpl.
    xstep ((pre ++ [0x5e]) ++ c_add_rsi (4 + offset)) (c_movabs_rax M)
      (decodes_movabs_rax M).
    xstep (((pre ++ [0x5e]) ++ c_add_rsi (4 + offset)) ++ c_movabs_rax M)
      (c_mov_rax_disp8 so) (decodes_mov_rax_disp8 so Hso).
    rewrite Hea, !Zmod_mod_64, (Z.mod_small M), (Z.mod_small ea) by assumption.
    rewrite Z.add_mod_idemp_r by lia. fold ea'.
    replace (M + 0 * 1 + so) with (M + so) by lia.
    rewrite Hsize, (Z.mod_small size) by assumption.
    assert (Hear' : 0 <= ea' < 2 ^ 64) by (apply Z.mod_pos_bound; lia).
    eapply (ends_cmp_jle_int code
              ((((pre ++ [0x5e]) ++ c_add_rsi (4 + offset)) ++ c_movabs_rax M)
                 ++ c_mov_rax_disp8 so)
              post _ ea' size).
    + rewrite Hcode, <- ?app_assoc. reflexivity.
    + msimpl. rewrite ?length_app. cbn [length]. lia.
    + msimpl. reflexivity.
    + assumption.
    + msimpl. reflexivity.
    + assumption.
    + destruct (sign_extend 64 ea' <=? sign_extend 64 size); [|exact Hcont].
      intros f'. apply Hcont. unfold after_check. msimpl.
      rewrite !length_app, length_check_bytes, Hadd. cbn [length].
      change (length (c_movabs_rax M)) with 10%nat.
      change (length (c_mov_rax_disp8 so)) with 4%nat.
      change (length (c_add_rsi (4 + offset))) with 7%nat.
      repeat split; lia.
Qed.
Ltac tail_common pre M do Hdo HM Hdata :=
  xstep pre (c_movabs_rax M) (decodes_movabs_rax M);
  xstep (pre ++ c_movabs_rax M) (c_mov_rax_disp8 do)
    (decodes_mov_rax_disp8 do Hdo);
  rewrite !Zmod_mod_64, (Z.mod_small M) by assumption;
  replace (M + 0 * 1 + do) with (M + do) by lia;
  rewrite Hdata.

Ltac halt_here Hcode :=
  apply finishes_halted; rewrite Hcode; msimpl;
  rewrite !length_app; cbn [length]; lia.

Ltac load_props Hrsi Haddr :=
  unfold access_done, loaded_value; cbn [store_operand]; msimpl;
  rewrite ?Hrsi, ?Haddr, ?Zmod_mod_64;
  repeat split; try reflexivity;
  try (rewrite load_store_same
         by (change (256 ^ Z.of_nat 8) with (2 ^ 64);
             apply Z.mod_pos_bound; lia);
       try reflexivity;
       apply Z.mod_small;
       match goal with
       | |- 0 <= ?x mod ?m < _ =>
           pose proof (Z.mod_pos_bound x m ltac:(lia)); lia
       end).

Ltac store_props Hrsi Haddr :=
  unfold access_done, access_width; cbn [store_operand]; msimpl;
  rewrite ?Hrsi, ?Haddr; split; reflexivity.

Lemma finishes_access code pre op do M s data ea' :
  code = pre ++ c_movabs_rax M ++ c_mov_rax_disp8 do ++ access_bytes op ->
  is_loadstore op = true ->
  rip s = length pre ->
  -128 <= do <= 127 -> 0 <= M < 2 ^ 64 ->
  load 8 (mem s) ((M + do) mod 2 ^ 64) = data -> 0 <= data < 2 ^ 64 ->
  regs s RSI = ea' ->
  exists s'',
    finishes code s (Halted s'') /\
    access_done op s s'' ((data + ea' - 4) mod 2 ^ 64).
Proof.
  intros Hcode Hop Hrip Hdo HM Hdata Hdatar Hrsi.
  assert (Haddr : forall r, (data mod 2 ^ 64 + r * 1 + -4) mod 2 ^ 64
                            = (data + r - 4) mod 2 ^ 64).
  { intros r. rewrite (Z.mod_small data) by assumption. f_equal. lia. }
  rewrite <- (app_nil_r (access_bytes op)) in Hcode.
  destruct op; try discriminate Hop; unfold access_bytes in Hcode;
    rewrite <- ?app_assoc in Hcode;
    eexists; (split; [tail_common pre M do Hdo HM Hdata|]).
  - (* i32.load *)
    xstep ((pre ++ c_movabs_rax M) ++ c_mov_rax_disp8 do)
      [0x8b; 0x44; 0x30; 0xfc] decodes_load32.
    xstep (((pre ++ c_movabs_rax M) ++ c_mov_rax_disp8 do)
             ++ [0x8b; 0x44; 0x30; 0xfc]) [0x50] decodes_push_rax.
    halt_here Hcode.
  - load_props Hrsi Haddr.
  - (* i64.load *)
    xstep ((pre ++ c_movabs_rax M) ++ c_mov_rax_disp8 do)
      [0x48; 0x8b; 0x44; 0x30; 0xfc] decodes_load64.
    xstep (((pre ++ c_movabs_rax M) ++ c_mov_rax_disp8 do)
             ++ [0x48; 0x8b; 0x44; 0x30; 0xfc]) [0x50] decodes_push_rax.
    halt_here Hcode.
  - load_props Hrsi Haddr.
  - (* f64.load *)
    xstep ((pre ++ c_movabs_rax M) ++ c_mov_rax_disp8 do)
      [0x48; 0x8b; 0x44; 0x30; 0xfc] decodes_load64.
    xstep (((pre ++ c_movabs_rax M) ++ c_mov_rax_disp8 do)
             ++ [0x48; 0x8b; 0x44; 0x30; 0xfc]) [0x50] decodes_push_rax.
    halt_here Hcode.
  - load_props Hrsi Haddr.
  - (* i32.load8_s *)
    xstep ((pre ++ c_movabs_rax M) ++ c_mov_rax_disp8 do)
      [0x0f; 0xbe; 0x44; 0x30; 0xfc] decodes_load8_s.
    xstep (((pre ++ c_movabs_rax M) ++ c_mov_rax_disp8 do)
             ++ [0x0f; 0xbe; 0x44; 0x30; 0xfc]) [0x50] decodes_push_rax.
    halt_here Hcode.
  - load_props Hrsi Haddr.
  - (* i32.store *)
    xstep ((pre ++ c_movabs_rax M) ++ c_mov_rax_disp8 do)
      [0x89; 0x7c; 0x30; 0xfc] decodes_store32.
    halt_here Hcode.
  - store_props Hrsi Haddr.
  - (* i64.store *)
    xstep ((pre ++ c_movabs_rax M) ++ c_mov_rax_disp8 do)
      [0x48; 0x89; 0x7c; 0x30; 0xfc] decodes_store64.
    halt_here Hcode.
  - store_props Hrsi Haddr.
  - (* f64.store *)
    xstep ((pre ++ c_movabs_rax M) ++ c_mov_rax_disp8 do)
      [0x48; 0x89; 0x7c; 0x30; 0xfc] decodes_store64.
    halt_here Hcode.
  - store_props Hrsi Haddr.
  - (* i32.store8 *)
    xstep ((pre ++ c_movabs_rax M) ++ c_mov_rax_disp8 do)
      [0x40; 0x88; 0x7c; 0x30; 0xfc] decodes_store8.
    halt_here Hcode.
  - store_props Hrsi Haddr.
  - (* i32.store16 *)
    xstep ((pre ++ c_movabs_rax M) ++ c_mov_rax_disp8 do)
      [0x66; 0x89; 0x7c; 0x30; 0xfc] decodes_store16.
    halt_here Hcode.
  - store_props Hrsi Haddr.
Qed.
(** The check and the access that follow the optional [pop %rdi]. *)
Lemma loadstore_tail layout op offset M ea size data code pre s1 :
  is_loadstore op = true ->
  code = pre ++ check_bytes offset (off_MemInst_size layout) M
             ++ c_movabs_rax M ++ c_mov_rax_disp8 (off_MemInst_data layout)
             ++ access_bytes op ->
  rip s1 = length pre ->
  -128 <= off_MemInst_size layout <= 127 ->
  -128 <= off_MemInst_data layout <= 127 ->
  0 <= M < 2 ^ 64 ->
  load 8 (mem s1) (regs s1 RSP) = ea -> 0 <= ea < 2 ^ 64 ->
  load 8 (mem s1) ((M + off_MemInst_size layout) mod 2 ^ 64) = size ->
  0 <= size < 2 ^ 64 ->
  load 8 (mem s1) ((M + off_MemInst_data layout) mod 2 ^ 64) = data ->
  0 <= data < 2 ^ 64 ->
  ends code s1
    (if sign_extend 64 (checked_address ea offset) <=? sign_extend 64 size
     then fun o => exists s' s'',
              o = Halted s'' /\ mem s' = mem s1 /\ regs s' RDI = regs s1 RDI /\
              access_done op s' s''
                ((data + checked_address ea offset - 4) mod 2 ^ 64)
     else fun o => o = Trapped 4).
Proof.
  intros Hop Hcode Hrip Hso Hdo HM Hea Hear Hsize Hsizer Hdata Hdatar.
  eapply (ends_bounds_check code pre _ offset (off_MemInst_size layout) M s1
            ea size); try eassumption.
  fold (checked_address ea offset).
  destruct (sign_extend 64 (checked_address ea offset) <=? sign_extend 64 size);
    [|reflexivity].
  intros s' Hs'. pose proof Hs' as (Hr' & Hm' & Hrsi' & Hrax' & Hrsp' & Hrdi').
  destruct (finishes_access code
              (pre ++ check_bytes offset (off_MemInst_size layout) M) op
              (off_MemInst_data layout) M s' data (checked_address ea offset))
    as (s'' & Hfin & Hdone); try assumption.
  - rewrite Hcode, <- ?app_assoc. reflexivity.
  - rewrite Hm'. exact Hdata.
  - exists (Halted s''). split; [exact Hfin|].
    exists s', s''. repeat split; assumption.
Qed.

(** The complete run of a linked load or store: it traps exactly when the
    checked address is above [size] as signed 64-bit integers, and
    otherwise performs the access. *)
Lemma loadstore_outcome layout op offset M ea size data s :
  is_loadstore op = true ->
  access_setup layout op M ea size data s ->
  if sign_extend 64 (checked_address ea offset) <=? sign_extend 64 size
  then access_proceeds layout op offset M ea data s
  else access_traps layout op offset M s.
Proof.
  intros Hop [Hrip Hso Hdo HM Hea Hear Hsize Hsizer Hdata Hdatar].
  destruct (store_operand op) as [w|] eqn:Hst.
  - (* a store: [pop %rdi] comes first *)
    assert (Hends : ends (loadstore_bytes layout op offset M) s
              (if sign_extend 64 (checked_address ea offset) <=? sign_extend 64 size
               then fun o => exists s' s'',
                        o = Halted s'' /\ mem s' = mem s /\
                        regs s' RDI = load 8 (mem s) (regs s RSP) mod 2 ^ 64 /\
                        access_done op s' s''
                          ((data + checked_address ea offset - 4) mod 2 ^ 64)
               else fun o => o = Trapped 4)).
    { assert (Hcode : loadstore_bytes layout op offset M
                      = [] ++ [0x5f]
                           ++ check_bytes offset (off_MemInst_size layout) M
                           ++ c_movabs_rax M
                           ++ c_mov_rax_disp8 (off_MemInst_data layout)
                           ++ access_bytes op).
      { unfold loadstore_bytes. rewrite Hst. reflexivity. }
      xstep (@nil Z) [0x5f] decodes_pop_rdi.
      match goal with |- ends _ ?st _ => set (s1 := st) end.
      pose proof (loadstore_tail layout op offset M ea size data
                    (loadstore_bytes layout op offset M) [0x5f] s1 Hop) as Ht.
      assert (Hrsp1 : regs s1 RSP = (regs s RSP + 8) mod 2 ^ 64).
      { subst s1. msimpl. reflexivity. }
      assert (Hrdi1 : regs s1 RDI = load 8 (mem s) (regs s RSP) mod 2 ^ 64).
      { subst s1. msimpl. reflexivity. }
      change (mem s1) with (mem s) in Ht. rewrite Hrsp1, Hrdi1 in Ht.
      apply Ht; try assumption; reflexivity. }
    destruct (sign_extend 64 (checked_address ea offset) <=? sign_extend 64 size).
    + destruct Hends as (o & Hfin & s' & s'' & -> & Hm & Hrdi & Hdone).
      exists s', s''. rewrite Hst. repeat split; assumption.
    + destruct Hends as (o & Hfin & ->). exact Hfin.
  - (* a load *)
    assert (Hcode : loadstore_bytes layout op offset M
                    = [] ++ check_bytes offset (off_MemInst_size layout) M
                         ++ c_movabs_rax M
                         ++ c_mov_rax_disp8 (off_MemInst_data layout)
                         ++ access_bytes op).
    { unfold loadstore_bytes. rewrite Hst. reflexivity. }
    pose proof (loadstore_tail layout op offset M ea size data
                  (loadstore_bytes layout op offset M) [] s Hop Hcode Hrip
                  Hso Hdo HM Hea Hear Hsize Hsizer Hdata Hdatar) as Hends.
    destruct (sign_extend 64 (checked_address ea offset) <=? sign_extend 64 size).
    + destruct Hends as (o & Hfin & s' & s'' & -> & Hm & Hrdi & Hdone).
      exists s', s''. rewrite Hst. repeat split; assumption.
    + destruct Hends as (o & Hfin & ->). exact Hfin.
Qed.
Lemma linked_loadstore_bytes layout op offset M :
  is_loadstore op = true ->
  -128 <= off_MemInst_size layout <= 127 ->
  -128 <= off_MemInst_data layout <= 127 ->
  linked_loadstore layout op offset M = Some (loadstore_bytes layout op offset M).
Proof.
  intros Hop Hs Hd. unfold linked_loadstore.
  destruct (loadstore_linked_code layout op offset M Hop Hs Hd)
    as (cs' & -> & _ & ->). reflexivity.
Qed.

Lemma sign_extend_64_small x : 0 <= x < 2 ^ 63 -> sign_extend 64 x = x.
Proof.
  intros H. rewrite <- (Z.mod_small x (2 ^ 64)) at 1 by lia.
  apply sign_extend_id; lia.
Qed.

(** For offsets below [2^31 - 4] and addresses and sizes below [2^63] the
    check compares [ea + offset + 4] with [size]. *)
Lemma checked_address_in_range ea offset :
  0 <= offset -> offset + 4 < 2 ^ 31 -> 0 <= ea -> ea + offset + 4 < 2 ^ 63 ->
  checked_address ea offset = ea + offset + 4.
Proof.
  intros Ho Ho' Hea Hsum. unfold checked_address, bounds_addend.
  rewrite (Z.mod_small (4 + offset)) by lia.
  destruct (Z.eqb_spec (4 + offset) 0); [lia|].
  rewrite <- (Z.mod_small (4 + offset) (2 ^ 32)) by lia.
  rewrite sign_extend_id by lia.
  replace (ea + (4 + offset)) with (ea + offset + 4) by lia.
  apply Z.mod_small. lia.
Qed.

Lemma bounds_check_in_range layout op offset M ea size data s :
  is_loadstore op = true ->
  access_setup layout op M ea size data s ->
  0 <= offset -> offset + 4 < 2 ^ 31 -> ea + offset + 4 < 2 ^ 63 ->
  size < 2 ^ 63 ->
  (ea + offset + 4 <= size -> access_proceeds layout op offset M ea data s) /\
  (size < ea + offset + 4 -> access_traps layout op offset M s).
Proof.
  intros Hop Hset Ho Ho' Hsum Hsz.
  pose proof (loadstore_outcome layout op offset M ea size data s Hop Hset) as H.
  destruct Hset.
  assert (Hcmp : (sign_extend 64 (checked_address ea offset)
                    <=? sign_extend 64 size) = (ea + offset + 4 <=? size)).
  { rewrite checked_address_in_range by lia.
    rewrite !sign_extend_64_small by lia. reflexivity. }
  rewrite Hcmp in H.
  destruct (Z.leb_spec (ea + offset + 4) size); split; intros; try lia; exact H.
Qed.

(** C1, where the code departs from it: with the static offset
    [0xFFFFFFFC] the 32-bit sum [4 + offset] wraps to zero, the translator
    emits no [add], and the access at any address [ea <= size] proceeds
    although [ea + offset + 4] is above [size]. *)
Theorem bounds_check_offset_wraps layout op M ea size data s :
  is_loadstore op = true ->
  access_setup layout op M ea size data s ->
  ea <= size -> size < 2 ^ 32 ->
  linked_loadstore layout op 0xFFFFFFFC M
    = Some (loadstore_bytes layout op 0xFFFFFFFC M) /\
  size < ea + 0xFFFFFFFC + 4 /\
  access_proceeds layout op 0xFFFFFFFC M ea data s.
Proof.
  intros Hop Hset Hle Hsz.
  pose proof (loadstore_outcome layout op 0xFFFFFFFC M ea size data s Hop Hset)
    as H.
  destruct Hset.
  split; [apply linked_loadstore_bytes; assumption|].
  split; [lia|].
  assert (Hc : checked_address ea 0xFFFFFFFC = ea).
  { unfold checked_address, bounds_addend.
    change ((4 + 0xFFFFFFFC) mod 2 ^ 32 =? 0) with true. cbv iota.
    rewrite Z.add_0_r. apply Z.mod_small. assumption. }
  assert (Hcmp : (sign_extend 64 (checked_address ea 0xFFFFFFFC)
                    <=? sign_extend 64 size) = true).
  { rewrite Hc, !sign_extend_64_small by lia. apply Z.leb_le. exact Hle. }
  rewrite Hcmp in H. exact H.
Qed.


(** C2, where the code departs from it: the check adds 4 whatever the
    width of the access.  An 8-byte access at [size - 8 + 1] proceeds (so
    do those up to [size - 4]), and a 1- or 2-byte access at
    [size - width] traps. *)
Theorem check_ignores_access_width layout op M ea size data s :
  is_loadstore op = true ->
  access_setup layout op M ea size data s ->
  size < 2 ^ 32 ->
  linked_loadstore layout op 0 M = Some (loadstore_bytes layout op 0 M) /\
  (access_width op = 8 -> ea = size - 8 + 1 ->
   access_proceeds layout op 0 M ea data s) /\
  (access_width op < 4 -> ea = size - access_width op ->
   access_traps layout op 0 M s).
Proof.
  intros Hop Hset Hsz.
  assert (Hw : 1 <= access_width op <= 8)
    by (destruct op; cbn [access_width]; lia).
  split; [destruct Hset; apply linked_loadstore_bytes; assumption|].
  pose proof (setup_ea_range _ _ _ _ _ _ _ Hset) as Hea.
  split.
  - intros _ Heq.
    apply (bounds_check_in_range layout op 0 M ea size data s Hop Hset); lia.
  - intros Hlt Heq.
    apply (bounds_check_in_range layout op 0 M ea size data s Hop Hset); lia.
Qed.

(** C4, where the code departs from it: [push imm32] sign-extends its
    immediate, so for every [v] with bit 31 set the upper 32 bits of the
    pushed cell are all ones, not zero.  The static stack does get its
    i32 slot. *)
Theorem i32_const_pushes_sign_extended layout func_types module_types type
    locals_md n_locals n_frame_locals v cs s :
  2 ^ 31 <= v < 2 ^ 32 ->
  rip s = 0%nat ->
  exists cs' code s',
    wasmjit_compile_instruction layout func_types module_types type locals_md
      n_locals n_frame_locals (Instr_i32_const v) cs = Some (tt, cs') /\
    sstack cs' = sstack cs ++ [STACK_I32] /\
    output cs' = output cs ++ code /\
    run 1 code s = Halted s' /\
    regs s' RSP = (regs s RSP - 8) mod 2 ^ 64 /\
    load 8 (mem s') (regs s' RSP) = 0xFFFFFFFF * 2 ^ 32 + v.
Proof.
  intros Hv Hrip.
  exists (set_sstack (fun st => st ++ [STACK_I32])
            (set_output (fun o => o ++ 0x68 :: encode_le_uint32_t v) cs)),
    (0x68 :: encode_le_uint32_t v),
    (push64 (sign_extend 32 (v mod 2 ^ 32)) (set_rip 5 s)).
  split; [apply i32_const_code|].
  split; [reflexivity|]. split; [reflexivity|].
  split; [apply run_push_imm32; exact Hrip|].
  unfold push64. msimpl. rewrite !Zmod_mod_64. split; [reflexivity|].
  rewrite load_store_same by (apply Z.mod_pos_bound; lia).
  unfold sign_extend. rewrite Z.mod_mod, (Z.mod_small v) by lia.
  destruct (Z.ltb_spec v (2 ^ (32 - 1))) as [Hlt|_].
  - change (2 ^ (32 - 1)) with (2 ^ 31) in Hlt. lia.
  - symmetry. apply (Z.mod_unique _ _ (-1)); lia.
Qed.

Lemma store_bytes_above m a bs x :
  a + Z.of_nat (length bs) <= x -> store_bytes m a bs x = m x.
Proof.
  revert m a. induction bs as [|b bs IH]; intros m a Hx; cbn [store_bytes].
  - reflexivity.
  - cbn [length] in Hx. rewrite IH by lia. unfold upd.
    destruct (Z.eqb_spec x a); [lia | reflexivity].
Qed.

Lemma load_bytes_ext n m1 m2 a :
  (forall x, a <= x < a + Z.of_nat n -> m1 x = m2 x) ->
  load_bytes n m1 a = load_bytes n m2 a.
Proof.
  revert a. induction n as [|n IH]; intros a H; cbn [load_bytes].
  - reflexivity.
  - f_equal; [apply H; lia | apply IH; intros x Hx; apply H; lia].
Qed.

(** A store leaves a load from a disjoint range alone. *)
Lemma load_store_disjoint n k m a b v :
  b + Z.of_nat n <= a \/ a + Z.of_nat k <= b ->
  load n (store k m a v) b = load n m b.
Proof.
  intros H. unfold load, store. f_equal. apply load_bytes_ext. intros x Hx.
  destruct H as [H|H].
  - apply store_bytes_below. lia.
  - apply store_bytes_above. rewrite length_le_bytes. lia.
Qed.

Lemma decodes_mov_eax_imm32 :
  decodes [0xb8; 0xff; 0xff; 0xff; 0xff] (I_mov_ri W32 RAX 0xffffffff).
Proof. split; [cbn; lia | reflexivity]. Qed.

Lemma decodes_and_rax_at_rdi :
  decodes [0x48; 0x21; 0x07] (I_alu_rm_r AND W64 (Mem (Some RDI) None 1 0) RAX).
Proof. split; [cbn; lia | reflexivity]. Qed.

Lemma wrap_extend_code layout func_types module_types type locals_md n_locals
    n_frame_locals :
  wasmjit_compile_instructions layout func_types module_types type locals_md
    n_locals n_frame_locals wrap_then_extend (mkState [] [] [] [] [STACK_I64])
  = Some (tt, mkState [0xb8; 0xff; 0xff; 0xff; 0xff; 0x48; 0x21; 0x07]
                [] [] [] [STACK_I64]).
Proof. reflexivity. Qed.

(** C6, where the code departs from it: the [and] of [i32.wrap_i64] goes
    to the cell [%rdi] points to, not to the top of the stack.  With
    [%rdi] pointing anywhere off the top cell, the top cell keeps its value
    [x], so it is not [x & 0xffffffff] once [x] has a bit above bit 31, and
    the cell at [%rdi] is masked instead.  [i64.extend_u_i32] emits no
    code. *)
Theorem wrap_masks_cell_at_rdi layout func_types module_types type locals_md
    n_locals n_frame_locals s x :
  rip s = 0%nat ->
  0 <= regs s RSP < 2 ^ 64 -> 0 <= regs s RDI < 2 ^ 64 ->
  regs s RDI + 8 <= regs s RSP \/ regs s RSP + 8 <= regs s RDI ->
  load 8 (mem s) (regs s RSP) = x ->
  exists cs' s',
    wasmjit_compile_instructions layout func_types module_types type locals_md
      n_locals n_frame_locals wrap_then_extend (mkState [] [] [] [] [STACK_I64])
    = Some (tt, cs') /\
    output cs' = [0xb8; 0xff; 0xff; 0xff; 0xff] ++ [0x48; 0x21; 0x07] /\
    sstack cs' = [STACK_I64] /\
    finishes (output cs') s (Halted s') /\
    regs s' RSP = regs s RSP /\
    load 8 (mem s') (regs s' RSP) = x /\
    load 8 (mem s') (regs s RDI)
    = Z.land (load 8 (mem s) (regs s RDI)) 0xffffffff mod 2 ^ 64.
Proof.
  intros Hrip Hsp Hdi Hdisj Hx.
  set (code := [0xb8; 0xff; 0xff; 0xff; 0xff] ++ [0x48; 0x21; 0x07]).
  assert (Hends : ends code s (fun o => exists s',
             o = Halted s' /\ regs s' RSP = regs s RSP /\
             mem s' = store 8 (mem s) (regs s RDI)
                        (Z.land (load 8 (mem s) (regs s RDI)) 0xffffffff
                         mod 2 ^ 64))).
  { assert (Hcode : code = [] ++ [0xb8; 0xff; 0xff; 0xff; 0xff]
                              ++ [0x48; 0x21; 0x07] ++ []) by reflexivity.
    xstep (@nil Z) [0xb8; 0xff; 0xff; 0xff; 0xff] decodes_mov_eax_imm32.
    xstep ([] ++ [0xb8; 0xff; 0xff; 0xff; 0xff]) [0x48; 0x21; 0x07]
      decodes_and_rax_at_rdi.
    replace ((regs s RDI + 0 * 1 + 0) mod 2 ^ 64) with (regs s RDI)
      by (symmetry; rewrite Z.add_0_r, Z.add_0_r; apply Z.mod_small; exact Hdi).
    change ((0xffffffff mod 2 ^ 32) mod 2 ^ 64) with 0xffffffff.
    cbn [alu_result].
    match goal with |- ends _ ?st _ => set (s1 := st) end.
    exists (Halted s1). split; [apply finishes_halted; cbn; lia|].
    exists s1. split; [reflexivity|]. subst s1. msimpl.
    split; reflexivity. }
  destruct Hends as (o & Hfin & s' & -> & Hrsp & Hmem).
  exists (mkState code [] [] [] [STACK_I64]), s'.
  split; [apply wrap_extend_code|].
  cbn [output sstack]. split; [reflexivity|]. split; [reflexivity|].
  split; [exact Hfin|]. split; [exact Hrsp|].
  rewrite Hrsp, Hmem. split.
  - rewrite load_store_disjoint by (cbn; lia). exact Hx.
  - apply load_store_same. apply Z.mod_pos_bound. lia.
Qed.


(** With [%rdi] four bytes below the stack pointer the zero half of the
    mask falls on the low half of the top cell: the cell that held 1 ends
    up 0. *)
Lemma wrap_clears_overlapped_cell :
  match run 2 ([0xb8; 0xff; 0xff; 0xff; 0xff] ++ [0x48; 0x21; 0x07])
          (sample_machine 0x8000 0x7ffc [(0x8000, 1)]) with
  | Halted s' => load 8 (mem s') (regs s' RSP)
  | _ => -1
  end = 0.
Proof. vm_compute. reflexivity. Qed.

(** ** Frame balance *)

Lemma set_output_app s a b :
  set_output (fun o => o ++ b) (set_output (fun o => o ++ a) s)
  = set_output (fun o => o ++ a ++ b) s.
Proof. destruct s. unfold set_output. cbn. now rewrite app_assoc. Qed.

Lemma frame_code_Some (opc : Z) n u s s' :
  when (negb (n =? 0)%nat)
    (OUTS [0x48; 0x81; opc] ;;
     out <- lift (to_int32 (Z.of_nat n * 8)) ;;
     output_buf (encode_le_uint32_t out)) s = Some (u, s') ->
  opc <> 0 ->
  s' = set_output
         (fun o => o ++ (if (n =? 0)%nat then []
                         else [0x48; 0x81; opc]
                                ++ encode_le_uint32_t (8 * Z.of_nat n))) s
  /\ (n <> 0%nat -> 8 * Z.of_nat n <= INT32_MAX).
Proof.
  intros H Hopc. apply when_Some in H. destruct H as [[Hn H]|[Hn ->]].
  - apply negb_true_iff in Hn. rewrite Hn.
    apply bind_Some in H. destruct H as (u1 & s1 & H1 & H).
    apply OUTS_Some in H1. subst s1.
    apply bind_Some in H. destruct H as (out & s1 & H1 & H).
    apply lift_Some in H1. destruct H1 as [Hout ->].
    apply output_buf_Some in H. subst s'.
    unfold to_int32 in Hout.
    destruct (INT32_MIN <=? Z.of_nat n * 8) eqn:E1; [|discriminate].
    destruct (Z.of_nat n * 8 <=? INT32_MAX) eqn:E2; [|discriminate].
    cbn in Hout. inversion Hout; subst out. apply Z.leb_le in E2.
    rewrite set_output_app. split; [|intros; lia].
    replace (Z.of_nat n * 8) with (8 * Z.of_nat n) by lia.
    assert (Hs : strlen [0x48; 0x81; opc] = 3%nat).
    { cbn. destruct (Z.eqb_spec opc 0); [contradiction|reflexivity]. }
    rewrite Hs. reflexivity.
  - apply negb_false_iff in Hn. rewrite Hn. split.
    + destruct s. unfold set_output. cbn. now rewrite app_nil_r.
    + apply Nat.eqb_eq in Hn. intros; lia.
Qed.

Lemma prologue_frame_Some n u s s' :
  prologue_frame n s = Some (u, s') ->
  s' = set_output
         (fun o => o ++ [0x55; 0x48; 0x89; 0xe5; 0xcc] ++ frame_sub n) s
  /\ (n <> 0%nat -> 8 * Z.of_nat n <= INT32_MAX).
Proof.
  unfold prologue_frame. intros H.
  apply bind_Some in H. destruct H as (u1 & s1 & H1 & H).
  apply OUTS_Some in H1. subst s1.
  apply bind_Some in H. destruct H as (u2 & s1 & H1 & H).
  apply OUTS_Some in H1. subst s1.
  apply bind_Some in H. destruct H as (u3 & s1 & H1 & H).
  apply OUTS_Some in H1. subst s1.
  apply frame_code_Some in H; [|discriminate]. destruct H as [-> Hb].
  split; [|exact Hb]. rewrite !set_output_app. reflexivity.
Qed.

Lemma epilogue_frame_Some n u s s' :
  epilogue_frame n s = Some (u, s') ->
  s' = set_output (fun o => o ++ frame_add n ++ [0x5d; 0xc3]) s.
Proof.
  unfold epilogue_frame. intros H.
  apply bind_Some in H. destruct H as (u1 & s1 & H1 & H).
  apply frame_code_Some in H1; [|discriminate]. destruct H1 as [-> _].
  apply bind_Some in H. destruct H as (u2 & s1 & H1 & H).
  apply OUTS_Some in H1. subst s1.
  apply OUTS_Some in H. subst s'.
  rewrite !set_output_app. reflexivity.
Qed.

Lemma epilogue_result_Some type u s s' :
  epilogue_result type s = Some (u, s') ->
  exists pop, output s' = output s ++ pop /\ (pop = [] \/ pop = [0x58]).
Proof.
  unfold epilogue_result. intros H.
  destruct (output_types type) as [|t [|t' ts]].
  - apply ret_Some in H. destruct H as [_ ->]. exists [].
    rewrite app_nil_r. auto.
  - exists [0x58]. split; [|auto].
    apply bind_Some in H. destruct H as (st & s1 & H1 & H).
    apply gets_Some in H1. destruct H1 as [-> ->].
    apply bind_Some in H. destruct H as (u1 & s1 & H1 & H).
    apply assert_Some in H1. destruct H1 as [_ ->].
    apply bind_Some in H. destruct H as (u2 & s1 & H1 & H).
    unfold assert_peek, peek_stack in H1.
    apply bind_Some in H1. destruct H1 as (e & s2 & H1 & H2).
    apply bind_Some in H1. destruct H1 as (st & s3 & H1 & H3).
    apply gets_Some in H1. destruct H1 as [-> ->].
    apply lift_Some in H3. destruct H3 as [_ ->].
    apply assert_Some in H2. destruct H2 as [_ ->].
    apply bind_Some in H. destruct H as (u3 & s1 & H1 & H).
    unfold pop_stack in H1.
    apply bind_Some in H1. destruct H1 as (st & s2 & H1 & H2).
    apply gets_Some in H1. destruct H1 as [-> ->].
    apply bind_Some in H2. destruct H2 as (u4 & s2 & H1 & H2).
    apply assert_Some in H1. destruct H1 as [_ ->].
    apply modify_Some in H2. subst s1.
    apply OUTS_Some in H. subst s'. reflexivity.
  - discriminate H.
Qed.

Lemma patch_app_r pre rest idx buf :
  (length pre <= idx)%nat ->
  patch idx buf (pre ++ rest) = pre ++ patch (idx - length pre) buf rest.
Proof.
  intros H. unfold patch.
  rewrite take_app, (take_ge pre) by lia.
  rewrite drop_app, (drop_ge pre) by lia.
  rewrite <- !app_assoc. cbn [app]. repeat f_equal. lia.
Qed.

Lemma keeps_prefix_ok pre :
  invariant_ok (keeps_prefix pre) (fun n => (length pre <= n)%nat)
    (fun _ => True).
Proof.
  constructor.
  - intros s buf [[rest Hr] Hb]. split; [|exact Hb].
    exists (rest ++ buf). cbn. rewrite Hr. now rewrite app_assoc.
  - intros s idx buf [[rest Hr] Hb] Hidx _. split; [|exact Hb].
    cbn. rewrite Hr. rewrite patch_app_r by exact Hidx. eauto.
  - intros s f Hs. exact Hs.
  - intros s f Hs. exact Hs.
  - intros s off c [Hr Hb] Hoff. split; [exact Hr|]. cbn.
    apply Forall_app. split; [exact Hb | repeat constructor; exact Hoff].
  - intros s m Hs _. exact Hs.
  - intros s [[rest Hr] _]. rewrite Hr, length_app. lia.
  - intros s [_ Hb]. exact Hb.
  - intros; lia.
  - intros; exact I.
  - intros; exact I.
Qed.

Lemma keeps_prefix_function_rest pre layout func_types module_types type code
    locals_md n_locals n_frame_locals :
  preserves (keeps_prefix pre)
    (prologue_spill (take (length (input_types type)) locals_md) 0 0 ;;
     prologue_init_locals (n_locals - length (input_types type)) ;;
     wasmjit_compile_instructions layout func_types module_types type
       locals_md n_locals n_frame_locals (code_instructions code) ;;
     fix_branch_points) anyv.
Proof.
  pose proof (keeps_prefix_ok pre) as HI.
  apply pres_seq; [eapply pres_prologue_spill; exact HI | intros _].
  apply pres_seq; [eapply pres_prologue_init_locals; exact HI | intros _].
  apply pres_seq; [eapply pres_compile_instructions; exact HI | intros _].
  eapply pres_fix_branch_points; exact HI.
Qed.

Lemma decodes_sub_rsp v :
  decodes ([0x48; 0x81; 0xec] ++ encode_le_uint32_t v)
    (I_alu_rm_imm SUB W64 (Reg RSP) (sign_extend 32 (v mod 2 ^ 32))).
Proof.
  split; [cbn; lia|]. intros rest.
  rewrite <- le_value_encode_le_uint32_t. reflexivity.
Qed.

Lemma decodes_add_rsp v :
  decodes ([0x48; 0x81; 0xc4] ++ encode_le_uint32_t v)
    (I_alu_rm_imm ADD W64 (Reg RSP) (sign_extend 32 (v mod 2 ^ 32))).
Proof.
  split; [cbn; lia|]. intros rest.
  rewrite <- le_value_encode_le_uint32_t. reflexivity.
Qed.

Lemma decodes_frame_sub n :
  n <> 0%nat -> 8 * Z.of_nat n <= INT32_MAX ->
  decodes (frame_sub n) (I_alu_rm_imm SUB W64 (Reg RSP) (8 * Z.of_nat n)).
Proof.
  intros Hn Hb. unfold frame_sub. destruct (Nat.eqb_spec n 0); [contradiction|].
  rewrite <- (sign_extend_32_id (8 * Z.of_nat n)) at 2
    by (unfold INT32_MIN, INT32_MAX in *; lia).
  apply decodes_sub_rsp.
Qed.

Lemma decodes_frame_add n :
  n <> 0%nat -> 8 * Z.of_nat n <= INT32_MAX ->
  decodes (frame_add n) (I_alu_rm_imm ADD W64 (Reg RSP) (8 * Z.of_nat n)).
Proof.
  intros Hn Hb. unfold frame_add. destruct (Nat.eqb_spec n 0); [contradiction|].
  rewrite <- (sign_extend_32_id (8 * Z.of_nat n)) at 2
    by (unfold INT32_MIN, INT32_MAX in *; lia).
  apply decodes_add_rsp.
Qed.

Lemma set_output_nil s : set_output (fun o => o ++ []) s = s.
Proof. destruct s. unfold set_output. cbn. now rewrite app_nil_r. Qed.

Lemma OUTB_Some b u s s' :
  OUTB b s = Some (u, s') -> s' = set_output (fun o => o ++ [b mod 256]) s.
Proof. unfold OUTB. intros H. minv1 H. reflexivity. Qed.

Lemma prologue_movs_strlen n m :
  prologue_movs !! n = Some m \/ prologue_f32_movs !! n = Some m
    \/ prologue_f64_movs !! n = Some m ->
  take (strlen m) m = m.
Proof.
  intros [H|[H|H]];
    do 8 (destruct n as [|n]; [cbn in H; inversion H; reflexivity|]);
    discriminate H.
Qed.

Lemma prologue_spill_Some params : forall n_movs n_xmm_movs u s s',
  prologue_spill params n_movs n_xmm_movs s = Some (u, s') ->
  s' = set_output (fun o => o ++ spill_code params n_movs n_xmm_movs) s.
Proof.
  induction params as [|md rest IH]; intros n_movs n_xmm_movs u s s' H;
    cbn [prologue_spill spill_code] in *.
  - apply ret_Some in H. destruct H as [_ ->]. now rewrite set_output_nil.
  - destruct (0 <? fp_offset md); [eauto|].
    destruct (is_int_type (lmd_valtype md)).
    + apply bind_Some in H. destruct H as (m & s1 & H1 & H).
      apply lift_Some in H1. destruct H1 as [Hm ->].
      apply bind_Some in H. destruct H as (u1 & s1 & H1 & H).
      apply OUTS_Some in H1. subst s1.
      apply bind_Some in H. destruct H as (u2 & s1 & H1 & H).
      apply OUTB_Some in H1. subst s1.
      apply IH in H. subst s'.
      rewrite Hm. cbn [default].
      rewrite (prologue_movs_strlen n_movs m) by auto.
      now rewrite !set_output_app.
    + apply bind_Some in H. destruct H as (m & s1 & H1 & H).
      assert (Hm : (if valtype_eqb (lmd_valtype md) VALTYPE_F32
                    then prologue_f32_movs else prologue_f64_movs)
                     !! n_xmm_movs = Some m /\ s1 = s).
      { destruct (valtype_eqb (lmd_valtype md) VALTYPE_F32).
        - apply lift_Some in H1. exact H1.
        - apply bind_Some in H1. destruct H1 as (u0 & s0 & H0 & H1).
          apply assert_Some in H0. destruct H0 as [_ ->].
          apply lift_Some in H1. exact H1. }
      destruct Hm as [Hm ->].
      apply bind_Some in H. destruct H as (u1 & s1 & H1' & H).
      apply OUTS_Some in H1'. subst s1.
      apply bind_Some in H. destruct H as (u2 & s1 & H1' & H).
      apply OUTB_Some in H1'. subst s1.
      apply IH in H. subst s'.
      rewrite Hm. cbn [default].
      rewrite (prologue_movs_strlen n_xmm_movs m)
        by (destruct (valtype_eqb (lmd_valtype md) VALTYPE_F32); auto).
      now rewrite !set_output_app.
Qed.

Lemma prologue_init_locals_Some n u s s' :
  prologue_init_locals n s = Some (u, s') ->
  s' = set_output (fun o => o ++ init_code n) s.
Proof.
  unfold prologue_init_locals, init_code. intros H.
  apply when_Some in H. destruct H as [[Hn H]|[Hn ->]].
  - apply negb_true_iff in Hn. rewrite Hn.
    destruct (n =? 1)%nat.
    + apply output_buf_Some in H. exact H.
    + minv1 H. now rewrite !set_output_app.
  - apply negb_false_iff in Hn. rewrite Hn. now rewrite set_output_nil.
Qed.

Lemma epilogue_result_pop type u s s' :
  epilogue_result type s = Some (u, s') ->
  output s' = output s ++ epilogue_pop type /\ memrefs s' = memrefs s.
Proof.
  unfold epilogue_result, epilogue_pop. intros H.
  destruct (output_types type) as [|t [|t' ts]].
  - apply ret_Some in H. destruct H as [_ ->].
    now rewrite app_nil_r.
  - apply bind_Some in H. destruct H as (st & s1 & H1 & H).
    apply gets_Some in H1. destruct H1 as [-> ->].
    apply bind_Some in H. destruct H as (u1 & s1 & H1 & H).
    apply assert_Some in H1. destruct H1 as [_ ->].
    apply bind_Some in H. destruct H as (u2 & s1 & H1 & H).
    unfold assert_peek, peek_stack in H1.
    apply bind_Some in H1. destruct H1 as (e & s2 & H1 & H2).
    apply bind_Some in H1. destruct H1 as (st & s3 & H1 & H3).
    apply gets_Some in H1. destruct H1 as [-> ->].
    apply lift_Some in H3. destruct H3 as [_ ->].
    apply assert_Some in H2. destruct H2 as [_ ->].
    apply bind_Some in H. destruct H as (u3 & s1 & H1 & H).
    unfold pop_stack in H1.
    apply bind_Some in H1. destruct H1 as (st & s2 & H1 & H2).
    apply gets_Some in H1. destruct H1 as [-> ->].
    apply bind_Some in H2. destruct H2 as (u4 & s2 & H1 & H2).
    apply assert_Some in H1. destruct H1 as [_ ->].
    apply modify_Some in H2. subst s1.
    apply OUTS_Some in H. subst s'. split; reflexivity.
  - discriminate H.
Qed.

Lemma keeps_prefix_body pre layout func_types module_types type code
    locals_md n_locals n_frame_locals :
  preserves (keeps_prefix pre)
    (wasmjit_compile_instructions layout func_types module_types type
       locals_md n_locals n_frame_locals (code_instructions code) ;;
     fix_branch_points) anyv.
Proof.
  pose proof (keeps_prefix_ok pre) as HI.
  apply pres_seq; [eapply pres_compile_instructions; exact HI | intros _].
  eapply pres_fix_branch_points; exact HI.
Qed.

(** C9.  A compiled function is, byte for byte, the prologue, the body and
    the epilogue, where
    - the prologue is [push %rbp; mov %rsp, %rbp; int3], then [frame_sub n],
      then the stores of the register parameters and the zeroing of the
      declared locals ([prologue_code]),
    - the body is what the translation of the instructions followed by the
      back-patching leaves behind the prologue, and
    - the epilogue is an optional [pop %rax], then [frame_add n], then
      [pop %rbp; ret] ([epilogue_code]),
    with [n] the number of frame locals of the function in both places.
    [frame_sub n] and [frame_add n] are empty exactly when [n] is zero, and
    are otherwise the instructions [sub $(8 * n), %rsp] and
    [add $(8 * n), %rsp]. *)
Theorem frame_balance :
  forall layout func_types module_types type code memrefs0 out memrefs',
    wasmjit_compile_function layout func_types module_types type code memrefs0
      = Some (out, memrefs') ->
    exists locals_md n_locals n s2 s3 body,
      let params := take (length (input_types type)) locals_md in
      let n_declared := (n_locals - length (input_types type))%nat in
      let s1 := mkState (prologue_code params n_declared n) [] [] memrefs0 [] in
      frame_layout type code = Some (locals_md, n_locals, n) /\
      emit_prologue params n_declared n (initial_state memrefs0)
        = Some (tt, s1) /\
      prologue_code params n_declared n =
        [0x55; 0x48; 0x89; 0xe5; 0xcc] ++ frame_sub n
          ++ spill_code params 0 0 ++ init_code n_declared /\
      wasmjit_compile_instructions layout func_types module_types type
        locals_md n_locals n (code_instructions code) s1 = Some (tt, s2) /\
      fix_branch_points s2 = Some (tt, s3) /\
      output s3 = prologue_code params n_declared n ++ body /\
      out = prologue_code params n_declared n ++ body ++ epilogue_code type n /\
      epilogue_code type n = epilogue_pop type ++ frame_add n ++ [0x5d; 0xc3] /\
      (frame_sub n = [] <-> n = 0%nat) /\
      (frame_add n = [] <-> n = 0%nat) /\
      (n <> 0%nat ->
       8 * Z.of_nat n <= INT32_MAX /\
       decodes (frame_sub n) (I_alu_rm_imm SUB W64 (Reg RSP) (8 * Z.of_nat n)) /\
       decodes (frame_add n) (I_alu_rm_imm ADD W64 (Reg RSP) (8 * Z.of_nat n))).
Proof.
  intros layout func_types module_types type code memrefs0 out memrefs' H.
  unfold wasmjit_compile_function in H.
  destruct (frame_layout type code) as [[[locals_md n_locals] n]|];
    [|discriminate].
  cbn in H.
  destruct (compile_function_body layout func_types module_types type code
              locals_md n_locals n (initial_state memrefs0))
    as [[u s]|] eqn:Hbody; [|discriminate].
  cbn in H. inversion H; subst. clear H.
  exists locals_md, n_locals, n.
  unfold compile_function_body in Hbody.
  apply bind_Some in Hbody. destruct Hbody as ([] & s1 & Hpro & Hbody).
  pose proof Hpro as Hpro'. unfold emit_prologue in Hpro'.
  apply bind_Some in Hpro'. destruct Hpro' as (u2 & s0 & Hframe & Hpro').
  apply prologue_frame_Some in Hframe. destruct Hframe as [-> Hbound].
  apply bind_Some in Hpro'. destruct Hpro' as (u3 & s0 & Hspill & Hinit).
  apply prologue_spill_Some in Hspill. subst s0.
  apply prologue_init_locals_Some in Hinit.
  rewrite !set_output_app in Hinit.
  apply bind_Some in Hbody. destruct Hbody as ([] & s2 & Hinstrs & Hbody).
  apply bind_Some in Hbody. destruct Hbody as ([] & s3 & Hfix & Hepi).
  unfold emit_epilogue in Hepi.
  apply bind_Some in Hepi. destruct Hepi as (u5 & s4 & Hres & Hepi).
  apply epilogue_result_pop in Hres. destruct Hres as [Hpop Hmem].
  apply epilogue_frame_Some in Hepi. subst s.
  exists s2, s3.
  set (params := take (length (input_types type)) locals_md) in *.
  set (n_declared := (n_locals - length (input_types type))%nat) in *.
  assert (Hs1 : s1 = mkState (prologue_code params n_declared n) [] []
                       memrefs0 []).
  { subst s1. unfold set_output, initial_state, prologue_code. cbn.
    reflexivity. }
  assert (Hkeep : keeps_prefix (prologue_code params n_declared n) s3).
  { refine (proj1 (keeps_prefix_body _ layout func_types module_types type
                     code locals_md n_locals n s1 tt s3 _ _)).
    - rewrite Hs1. split; [exists []; cbn; now rewrite app_nil_r | constructor].
    - apply bind_Some. exists tt, s2. split; [exact Hinstrs | exact Hfix]. }
  destruct Hkeep as [[body Hmid] _].
  exists body. cbv zeta. rewrite <- Hs1.
  split; [reflexivity|]. split; [exact Hpro|]. split; [reflexivity|].
  split; [exact Hinstrs|]. split; [exact Hfix|]. split; [exact Hmid|].
  split; [|split; [reflexivity|split; [|split]]].
  - cbn [output set_output]. rewrite Hpop, Hmid. unfold epilogue_code.
    rewrite <- !app_assoc. reflexivity.
  - unfold frame_sub. destruct (Nat.eqb_spec n 0) as [->|Hn].
    + split; reflexivity.
    + split; [discriminate | contradiction].
  - unfold frame_add. destruct (Nat.eqb_spec n 0) as [->|Hn].
    + split; reflexivity.
    + split; [discriminate | contradiction].
  - intros Hn. split; [auto|].
    split; [apply decodes_frame_sub | apply decodes_frame_add]; auto.
Qed.
(** ** emit_br_code: the code of a branch *)



(** ** Back-patching in the driver *)

Lemma fix_branches_only_output bs : forall s s',
  fix_branches bs s = Some (tt, s') ->
  s' = set_output (fun _ => output s') s.
Proof.
  induction bs as [|b bs IH]; intros s s' H; cbn [fix_branches] in H.
  - apply ret_Some in H. destruct H as [_ ->]. now destruct s.
  - apply bind_Some in H. destruct H as (u & s1 & H1 & H2).
    apply IH in H2. apply fix_branch_inv in H1.
    destruct H1 as (t & _ & _ & ->). rewrite H2. reflexivity.
Qed.

(** C7.  "fix branch points", run on the state the translation of the body
    leaves, succeeds when every site of the branch table [branches s] lies
    inside the buffer, the sites do not overlap and every entry has a
    resolved target.  It changes nothing but the bytes of the buffer, whose
    length it keeps, so that the epilogue, emitted next, starts at the
    offset [length (output s)] the exit sentinel resolves to.  For every
    entry of the table, with target [labels[continuation_idx]], or that
    offset for the sentinel, the byte at [branch_offset] is 0xE9 and the 4
    bytes at [branch_offset + 1] are the little-endian encoding of
    [target - (branch_offset + 5)], which reads back as that signed 32-bit
    value. *)
Theorem fix_branch_points_patches_every_entry :
  forall (s : cstate),
    Forall (fun b => branch_offset b + 5 <= length (output s))%nat (branches s) ->
    Forall (fun b => exists t, resolved (length (output s)) (labels s) b t)
      (branches s) ->
    sites_disjoint (branches s) ->
    exists s',
      fix_branch_points s = Some (tt, s') /\
      s' = mkState (output s') (labels s) (branches s) (memrefs s) (sstack s) /\
      length (output s') = length (output s) /\
      (forall type n u s'',
         emit_epilogue type n s' = Some (u, s'') ->
         drop (length (output s)) (output s'') = epilogue_code type n) /\
      forall b t,
        b ∈ branches s ->
        resolved (length (output s)) (labels s) b t ->
        output s' !! branch_offset b = Some 0xe9 /\
        take 4 (drop (branch_offset b + 1) (output s'))
          = encode_le_uint32_t (displacement b t) /\
        (INT32_MIN <= displacement b t <= INT32_MAX ->
         sign_extend 32 (le_value (take 4 (drop (branch_offset b + 1) (output s'))))
           = displacement b t).
Proof.
  intros s Hin Hres Hdis.
  destruct (fix_branches_sites (branches s) s Hin Hres Hdis)
    as (s' & Hrun & Hlen & Hall).
  exists s'. split; [|split; [|split; [exact Hlen|split]]].
  - unfold fix_branch_points, bind, gets. exact Hrun.
  - rewrite (fix_branches_only_output _ _ _ Hrun) at 1. reflexivity.
  - intros type n u s'' Hepi. unfold emit_epilogue in Hepi.
    apply bind_Some in Hepi. destruct Hepi as (u1 & s1 & Hr & Hf).
    apply epilogue_result_pop in Hr. destruct Hr as [Hpop _].
    apply epilogue_frame_Some in Hf. subst s''.
    cbn [output set_output]. rewrite Hpop, <- Hlen, <- app_assoc.
    rewrite drop_app_length. reflexivity.
  - intros b t Hb Hr. specialize (Hall b t Hb Hr).
    assert (H4 : take 4 (drop (branch_offset b + 1) (output s'))
                 = encode_le_uint32_t (displacement b t)).
    { apply list_eq. intros i.
      destruct (decide (i < 4)%nat).
      - pose proof (f_equal (fun l => l !! S i) Hall) as Hi. cbn beta in Hi.
        rewrite lookup_take_lt, lookup_drop in Hi by lia.
        rewrite lookup_take_lt, lookup_drop by lia.
        etransitivity; [|exact Hi]. f_equal. lia.
      - rewrite lookup_take_ge by lia. symmetry. apply lookup_ge_None.
        rewrite length_encode_le_uint32_t. lia. }
    split; [|split; [exact H4|]].
    + pose proof (f_equal (fun l => l !! 0%nat) Hall) as H0. cbn beta in H0.
      rewrite lookup_take_lt, lookup_drop in H0 by lia.
      rewrite Nat.add_0_r in H0. exact H0.
    + intros Hfit. rewrite H4, le_value_encode_le_uint32_t.
      apply sign_extend_32_id. exact Hfit.
Qed.
Lemma to_int32_inv v r : to_int32 v = Some r -> r = v /\ INT32_MIN <= v <= INT32_MAX.
Proof.
  unfold to_int32. intros H.
  destruct (Z.leb_spec INT32_MIN v); destruct (Z.leb_spec v INT32_MAX);
    cbn in H; inversion H; subst; lia.
Qed.

Lemma neg_slot_mod8 k : (- (1 + k) * 8) mod 8 = 0.
Proof. replace (- (1 + k) * 8) with ((- (1 + k)) * 8) by lia. apply Z.mod_mul. lia. Qed.

(** The slots of the parameters: register parameters go down from
    [-8 * (1 + n_movs + n_xmm_movs)], stack parameters go up from
    [16 + 8 * n_stack]; no slot is used twice. *)
Lemma param_locals_slots inputs : forall nm nx ns mds nm' nx',
  param_locals inputs nm nx ns = Some (mds, nm', nx') ->
  map lmd_valtype mds = inputs /\
  (nm + nx <= nm' + nx')%nat /\
  Forall (fun md =>
            fp_offset md mod 8 = 0 /\
            (- 8 * Z.of_nat (nm' + nx') <= fp_offset md <= - 8 * (1 + Z.of_nat (nm + nx))
             \/ 16 + 8 * Z.of_nat ns <= fp_offset md)) mds /\
  NoDup (map fp_offset mds).
Proof.
  induction inputs as [|t rest IH]; intros nm nx ns mds nm' nx' H; cbn in H.
  - inversion H; subst. repeat split; try constructor; lia.
  - assert (Hreg : forall nm1 nx1,
               (nm1 + nx1 = S (nm + nx))%nat ->
               (m ← param_locals rest nm1 nx1 ns;
                Some (mkLocalsMD t (- (1 + Z.of_nat nm + Z.of_nat nx) * 8)
                        :: m.1.1, m.1.2, m.2)) = Some (mds, nm', nx') ->
               map lmd_valtype mds = t :: rest /\
               (nm + nx <= nm' + nx')%nat /\
               Forall (fun md =>
                  fp_offset md mod 8 = 0 /\
                  (- 8 * Z.of_nat (nm' + nx') <= fp_offset md
                     <= - 8 * (1 + Z.of_nat (nm + nx))
                   \/ 16 + 8 * Z.of_nat ns <= fp_offset md)) mds /\
               NoDup (map fp_offset mds)).
    { intros nm1 nx1 Hsum Hrun.
      destruct (param_locals rest nm1 nx1 ns) as [[[m a] b]|] eqn:E;
        cbn in Hrun; [|discriminate].
      inversion Hrun; subst. clear Hrun.
      destruct (IH _ _ _ _ _ _ E) as (Hty & Hle & Hall & Hnd).
      cbn [map]. repeat split.
      - now rewrite Hty.
      - lia.
      - constructor.
        + cbn [fp_offset]. split; [|left; lia].
          rewrite <- Z.add_assoc. apply neg_slot_mod8.
        + eapply Forall_impl; [exact Hall|]. cbn. intros md [Hm Hr].
          split; [exact Hm|]. destruct Hr; [left|right]; lia.
      - constructor; [|exact Hnd]. cbn [fp_offset].
        intros Hin. apply list_elem_of_fmap in Hin.
        destruct Hin as (md & Heq & Hmd).
        rewrite Forall_forall in Hall. destruct (Hall md Hmd) as [_ Hr].
        destruct Hr; lia. }
    destruct (classify_arg t nm nx).
    + apply (Hreg (S nm) nx); [lia|].
      destruct (param_locals rest (S nm) nx ns) as [[[m a] b]|]; exact H.
    + apply (Hreg nm (S nx)); [lia|].
      destruct (param_locals rest nm (S nx) ns) as [[[m a] b]|]; exact H.
    + apply (Hreg nm (S nx)); [lia|].
      destruct (param_locals rest nm (S nx) ns) as [[[m a] b]|]; exact H.
    + destruct (to_int32 (Z.of_nat ns * 8)) as [si|] eqn:E1; cbn in H; [|discriminate].
      apply to_int32_inv in E1. destruct E1 as [-> _].
      destruct (to_int32 (Z.of_nat ns * 8 + 2 * 8)) as [si|] eqn:E2;
        cbn in H; [|discriminate].
      apply to_int32_inv in E2. destruct E2 as [-> _].
      destruct (param_locals rest nm nx (S ns)) as [[[m a] b]|] eqn:E;
        cbn in H; [|discriminate].
      inversion H; subst. clear H.
      destruct (IH _ _ _ _ _ _ E) as (Hty & Hle & Hall & Hnd).
      cbn [map]. repeat split.
      * now rewrite Hty.
      * lia.
      * constructor.
        -- cbn [fp_offset]. split; [|right; lia].
           replace (Z.of_nat ns * 8 + 2 * 8) with ((Z.of_nat ns + 2) * 8) by lia.
           apply Z.mod_mul. lia.
        -- eapply Forall_impl; [exact Hall|]. cbn. intros md [Hm Hr].
           split; [exact Hm|]. destruct Hr; [left|right]; lia.
      * constructor; [|exact Hnd]. cbn [fp_offset].
        intros Hin. apply list_elem_of_fmap in Hin.
        destruct Hin as (md & Heq & Hmd).
        rewrite Forall_forall in Hall. destruct (Hall md Hmd) as [_ Hr].
        destruct Hr; lia.
Qed.

(** The slots of the declared locals go down from [-8 * (1 + n_regs + i)]. *)
Lemma declared_locals_slots ts : forall i n mds,
  declared_locals ts i n = Some mds ->
  map lmd_valtype mds = ts /\
  Forall (fun md =>
            fp_offset md mod 8 = 0 /\
            - 8 * Z.of_nat (n + i + length ts) <= fp_offset md
              <= - 8 * (1 + Z.of_nat (n + i))) mds /\
  NoDup (map fp_offset mds).
Proof.
  induction ts as [|t rest IH]; intros i n mds H; cbn in H.
  - inversion H; subst. repeat split; constructor.
  - destruct (to_int32 (-8 * Z.of_nat i)) as [si|] eqn:E1; cbn in H; [|discriminate].
    apply to_int32_inv in E1. destruct E1 as [-> _].
    destruct (to_int32 (-8 * Z.of_nat i + - (1 + Z.of_nat n) * 8)) as [si|] eqn:E2;
      cbn in H; [|discriminate].
    apply to_int32_inv in E2. destruct E2 as [-> _].
    destruct (declared_locals rest (S i) n) as [m|] eqn:E; cbn in H; [|discriminate].
    inversion H; subst. clear H.
    destruct (IH _ _ _ E) as (Hty & Hall & Hnd).
    cbn [map length]. repeat split.
    + now rewrite Hty.
    + constructor.
      * cbn [fp_offset]. split; [|lia].
        replace (-8 * Z.of_nat i + - (1 + Z.of_nat n) * 8)
          with ((- (1 + Z.of_nat n + Z.of_nat i)) * 8) by lia.
        apply Z.mod_mul. lia.
      * eapply Forall_impl; [exact Hall|]. cbn. intros md [Hm Hr].
        split; [exact Hm|]. lia.
    + constructor; [|exact Hnd]. cbn [fp_offset].
      intros Hin. apply list_elem_of_fmap in Hin.
      destruct Hin as (md & Heq & Hmd).
      rewrite Forall_forall in Hall. destruct (Hall md Hmd) as [_ Hr]. lia.
Qed.
(** The frame layout of a function.  [locals_md] has one descriptor per
    parameter and declared local, with their value types in order.  Every
    slot offset is a multiple of 8; no two locals share an offset; every
    local lives either inside the frame, between [-8 * n_frame_locals] and
    [-8] from [%rbp], or in the caller's argument area, from [16] up; the
    declared locals are always inside the frame. *)
Theorem frame_layout_slots type code locals_md n_locals n_frame_locals :
  frame_layout type code = Some (locals_md, n_locals, n_frame_locals) ->
  length locals_md = n_locals /\
  map lmd_valtype locals_md = input_types type ++ declared_types (locals code) /\
  NoDup (map fp_offset locals_md) /\
  Forall (fun md =>
            fp_offset md mod 8 = 0 /\
            (- 8 * Z.of_nat n_frame_locals <= fp_offset md <= - 8
             \/ 16 <= fp_offset md)) locals_md /\
  Forall (fun md => - 8 * Z.of_nat n_frame_locals <= fp_offset md <= - 8)
    (drop (length (input_types type)) locals_md).
Proof.
  unfold frame_layout. intros H.
  destruct (param_locals (input_types type) 0 0 0) as [[[params nm] nx]|] eqn:Ep;
    cbn in H; [|discriminate].
  destruct (declared_locals (declared_types (locals code)) 0 (nm + nx))
    as [decls|] eqn:Ed; cbn in H; [|discriminate].
  inversion H; subst. clear H.
  destruct (param_locals_slots _ _ _ _ _ _ _ Ep) as (Hpt & _ & Hpa & Hpn).
  destruct (declared_locals_slots _ _ _ _ Ed) as (Hdt & Hda & Hdn).
  set (ts := declared_types (locals code)) in *.
  assert (Hpl : length params = length (input_types type)).
  { pose proof (f_equal length Hpt) as Hl. now rewrite length_map in Hl. }
  assert (Hdl : length decls = length ts).
  { pose proof (f_equal length Hdt) as Hl. now rewrite length_map in Hl. }
  replace (length (input_types type) + length ts - length (input_types type))%nat
    with (length ts) by lia.
  split; [rewrite length_app; lia|].
  split; [rewrite map_app, Hpt, Hdt; reflexivity|].
  split; [|split].
  - rewrite map_app. apply NoDup_app. split; [exact Hpn|]. split; [|exact Hdn].
    intros x Hx Hx'.
    apply list_elem_of_fmap in Hx. destruct Hx as (md & -> & Hmd).
    apply list_elem_of_fmap in Hx'. destruct Hx' as (md' & Heq & Hmd').
    rewrite Forall_forall in Hpa, Hda.
    destruct (Hpa md Hmd) as [_ Hr]. destruct (Hda md' Hmd') as [_ Hr'].
    destruct Hr; lia.
  - apply Forall_app. split.
    + eapply Forall_impl; [exact Hpa|]. cbn. intros md [Hm Hr].
      split; [exact Hm|]. destruct Hr; [left|right]; lia.
    + eapply Forall_impl; [exact Hda|]. cbn. intros md [Hm Hr].
      split; [exact Hm|]. left. lia.
  - rewrite <- Hpl, drop_app_length.
    eapply Forall_impl; [exact Hda|]. cbn. intros md [Hm Hr]. lia.
Qed.

(** *** The static stack *)

Lemma assert_peek_top t s l :
  sstack s = l ++ [STACK_VALUE t] -> assert_peek t s = Some (tt, s).
Proof.
  intros H. unfold assert_peek, peek_stack, bind, gets, lift.
  rewrite H, last_snoc. cbn. destruct t; reflexivity.
Qed.

Lemma pop_stack_top e s l :
  sstack s = l ++ [e] -> pop_stack s = Some (tt, set_sstack (fun _ => l) s).
Proof.
  intros H. destruct s as [o lb br mr st]. cbn in H. subst st.
  unfold pop_stack, bind, gets, assert, modify, set_sstack. cbn [sstack].
  rewrite length_app. cbn [length].
  replace (length l + 1 =? 0)%nat with false
    by (symmetry; apply Nat.eqb_neq; lia).
  cbn. do 3 f_equal.
  apply take_app_length'. rewrite length_app. cbn [length]. lia.
Qed.

Lemma decodes_pop_rax : decodes [0x58] (I_pop_r RAX).
Proof. split; [cbn; lia | reflexivity]. Qed.

Lemma decodes_alu_at_rsp o w :
  (w = W32 \/ w = W64) ->
  alu_opcode_byte o <> 0 ->
  decodes ((match w with W64 => [0x48] | _ => [] end)
             ++ [alu_opcode_byte o; 0x04; 0x24])
    (I_alu_rm_r o w (Mem (Some RSP) None 1 0) RAX).
Proof.
  intros Hw Ho.
  destruct Hw as [-> | ->]; destruct o; try (cbn in Ho; congruence);
    (split; [cbn; lia | reflexivity]).
Qed.
Lemma bind_eq {A B} (m : M A) (k : A -> M B) s a s' :
  m s = Some (a, s') -> bind m k s = k a s'.
Proof. unfold bind. now intros ->. Qed.

Section IntegerOps.

Variable layout : Layout.
Variable func_types : list FuncType.
Variable module_types : ModuleTypes.
Variable type : FuncType.
Variable locals_md : list LocalsMD.
Variable n_locals : nat.
Variable n_frame_locals : nat.

Local Abbreviation translate :=
  (wasmjit_compile_instruction layout func_types module_types type locals_md
     n_locals n_frame_locals).

(** The translation of the in-place binary operations: both operands are
    checked against the type of the opcode, one static slot is popped. *)
Lemma compile_arith_code op o cs st :
  arith_alu op = Some o ->
  sstack cs = st ++ [STACK_VALUE (int_stack_type op); STACK_VALUE (int_stack_type op)] ->
  translate (Instr_plain op) cs
  = Some (tt, set_sstack (fun _ => st ++ [STACK_VALUE (int_stack_type op)])
                (set_output (fun out => out ++ arith_bytes o (arith_width op)) cs)).
Proof.
  intros Ho Hst.
  assert (Hpeek1 : assert_peek (int_stack_type op) cs = Some (tt, cs)).
  { apply (assert_peek_top _ _ (st ++ [STACK_VALUE (int_stack_type op)])).
    rewrite Hst, <- app_assoc. reflexivity. }
  assert (Hpop : pop_stack cs
                 = Some (tt, set_sstack
                               (fun _ => st ++ [STACK_VALUE (int_stack_type op)]) cs)).
  { apply (pop_stack_top (STACK_VALUE (int_stack_type op))).
    rewrite Hst, <- app_assoc. reflexivity. }
  assert (Hpeek2 : forall f,
             assert_peek (int_stack_type op)
               (set_output f (set_sstack
                  (fun _ => st ++ [STACK_VALUE (int_stack_type op)]) cs))
             = Some (tt, set_output f (set_sstack
                  (fun _ => st ++ [STACK_VALUE (int_stack_type op)]) cs))).
  { intros f. apply (assert_peek_top _ _ st). reflexivity. }
  destruct op; try discriminate Ho; injection Ho as <-;
    cbn [wasmjit_compile_instruction]; unfold compile_plain, compile_arith;
    rewrite (bind_eq (assert true) _ cs tt cs eq_refl);
    rewrite (bind_eq _ _ _ _ _ Hpeek1);
    rewrite (bind_eq _ _ _ _ _ Hpop);
    rewrite (bind_eq (OUTS [0x58]) _ _ tt _ eq_refl);
    rewrite (bind_eq _ _ _ _ _ (Hpeek2 _));
    destruct cs;
    unfold rexw, when, bind, OUTS, output_buf, modify, ret, set_sstack, set_output;
    cbn; rewrite <- ?app_assoc; reflexivity.
Qed.

(** The code of an in-place binary operation, run on the machine: it pops
    the right operand [b], combines it with the left operand [a] held in
    the cell below, writes the result over the low 4 (i32) or 8 (i64)
    bytes of that cell, which is the new top of the stack, and changes
    nothing else in memory.  For [sub] the result is [a - b]. *)
Theorem arith_in_place op o cs st s :
  arith_alu op = Some o ->
  sstack cs = st ++ [STACK_VALUE (int_stack_type op); STACK_VALUE (int_stack_type op)] ->
  rip s = 0%nat ->
  let w := arith_width op in
  let sp' := (regs s RSP + 8) mod 2 ^ 64 in
  let a := load (width_bytes w) (mem s) sp' in
  let b := load 8 (mem s) (regs s RSP) mod 2 ^ width_bits w in
  exists cs' code s',
    translate (Instr_plain op) cs = Some (tt, cs') /\
    sstack cs' = st ++ [STACK_VALUE (int_stack_type op)] /\
    output cs' = output cs ++ code /\
    finishes code s (Halted s') /\
    regs s' RSP = sp' /\
    mem s' = store (width_bytes w) (mem s) sp' (int_binop o (width_bits w) a b).
Proof.
  intros Ho Hst Hrip w sp' a b.
  exists (set_sstack (fun _ => st ++ [STACK_VALUE (int_stack_type op)])
            (set_output (fun out => out ++ arith_bytes o w) cs)),
    (arith_bytes o w).
  assert (Hw : w = W32 \/ w = W64)
    by (unfold w, arith_width; destruct (is_i64_op op); auto).
  assert (Hbyte : alu_opcode_byte o <> 0)
    by (destruct op; try discriminate Ho; injection Ho as <-; discriminate).
  assert (Hends : ends (arith_bytes o w) s (fun out => exists s',
             out = Halted s' /\ regs s' RSP = sp' /\
             mem s' = store (width_bytes w) (mem s) sp'
                        (int_binop o (width_bits w) a b))).
  { set (code := arith_bytes o w).
    assert (Hcode : code = [] ++ [0x58]
                       ++ ((match w with W64 => [0x48] | _ => [] end)
                            ++ [alu_opcode_byte o; 0x04; 0x24]) ++ [])
      by (unfold code, arith_bytes; rewrite app_nil_r; reflexivity).
    xstep (@nil Z) [0x58] decodes_pop_rax.
    xstep ([] ++ [0x58])
      ((match w with W64 => [0x48] | _ => [] end)
         ++ [alu_opcode_byte o; 0x04; 0x24])
      (decodes_alu_at_rsp o w Hw Hbyte).
    replace (((regs s RSP + 8) mod 2 ^ 64 + 0 * 1 + 0) mod 2 ^ 64) with sp'
      by (unfold sp'; rewrite !Z.add_0_r, Zmod_mod_64; reflexivity).
    replace ((load 8 (mem s) (regs s RSP) mod 2 ^ 64) mod 2 ^ width_bits w)
      with b.
    2:{ unfold b. symmetry. apply Z.mod_mod_divide.
        destruct Hw as [-> | ->]; [exists (2 ^ 32) | exists 1]; reflexivity. }
    fold a.
    assert (Hlen : (length code
                    <= length ([] ++ [0x58%Z])
                       + length ((match w with W64 => [0x48%Z] | _ => [] end)
                                   ++ [alu_opcode_byte o; 0x04%Z; 0x24%Z]))%nat).
    { rewrite Hcode, !length_app. cbn [length]. lia. }
    assert (Hpos : 0 < 2 ^ width_bits w)
      by (destruct Hw as [-> | ->]; cbn; lia).
    destruct o; try (cbn in Hbyte; congruence); cbn [alu_result];
      (eexists; split; [apply finishes_halted; exact Hlen|]);
      (eexists; split; [reflexivity|]); cbn [regs mem];
      (split; [rewrite upd_neq by reg_neq; apply upd_eq|]);
      cbn [int_binop]; rewrite ?Z.mod_mod by lia; reflexivity. }
  destruct Hends as (out & Hfin & s' & -> & Hrsp & Hmem).
  exists s'. split; [apply compile_arith_code; assumption|].
  split; [reflexivity|]. split; [reflexivity|].
  split; [exact Hfin|]. split; [exact Hrsp | exact Hmem].
Qed.

End IntegerOps.

Section StackCells.

Variable layout : Layout.
Variable func_types : list FuncType.
Variable module_types : ModuleTypes.
Variable type : FuncType.
Variable locals_md : list LocalsMD.
Variable n_locals : nat.
Variable n_frame_locals : nat.

Local Abbreviation translate :=
  (wasmjit_compile_instruction layout func_types module_types type locals_md
     n_locals n_frame_locals).

Lemma const64_code (i : Instr) (t : valtype) v cs :
  (i = Instr_i64_const v /\ t = VALTYPE_I64) \/
  (i = Instr_f64_const v /\ t = VALTYPE_F64) ->
  translate i cs
  = Some (tt, set_sstack (fun st => st ++ [STACK_VALUE t])
                (set_output (fun o => o ++ c_movabs_rax v ++ [0x50]) cs)).
Proof.
  intros [[-> ->] | [-> ->]]; destruct cs;
    cbn [wasmjit_compile_instruction];
    unfold bind, OUTS, output_buf, push_stack, assert, modify, ret,
      set_sstack, set_output, c_movabs_rax;
    cbn; rewrite <- ?app_assoc; reflexivity.
Qed.

(** [i64.const v] and [f64.const v] push a cell that holds the 64 bits of
    the immediate: the stack pointer goes down by 8, the new top cell is
    [v mod 2^64], the rest of the memory is unchanged, and the static stack
    gets a slot of the type of the constant. *)
Theorem const64_pushes_immediate (i : Instr) (t : valtype) v cs s :
  (i = Instr_i64_const v /\ t = VALTYPE_I64) \/
  (i = Instr_f64_const v /\ t = VALTYPE_F64) ->
  rip s = 0%nat ->
  let sp' := (regs s RSP - 8) mod 2 ^ 64 in
  exists cs' code s',
    translate i cs = Some (tt, cs') /\
    sstack cs' = sstack cs ++ [STACK_VALUE t] /\
    output cs' = output cs ++ code /\
    finishes code s (Halted s') /\
    regs s' RSP = sp' /\
    mem s' = store 8 (mem s) sp' (v mod 2 ^ 64) /\
    load 8 (mem s') (regs s' RSP) = v mod 2 ^ 64.
Proof.
  intros Hi Hrip sp'.
  assert (Hends : ends (c_movabs_rax v ++ [0x50]) s (fun out => exists s',
             out = Halted s' /\ regs s' RSP = sp' /\
             mem s' = store 8 (mem s) sp' (v mod 2 ^ 64))).
  { set (code := c_movabs_rax v ++ [0x50]).
    assert (Hcode : code = [] ++ c_movabs_rax v ++ [0x50] ++ [])
      by reflexivity.
    xstep (@nil Z) (c_movabs_rax v) (decodes_movabs_rax v).
    xstep ([] ++ c_movabs_rax v) [0x50] decodes_push_rax.
    rewrite !Zmod_mod_64.
    eexists. split; [apply finishes_halted; cbn; lia|].
    eexists. split; [reflexivity|]. cbn [regs mem].
    split; [apply upd_eq | reflexivity]. }
  destruct Hends as (out & Hfin & s' & -> & Hrsp & Hmem).
  eexists _, _, s'. split; [apply (const64_code i t v cs Hi)|].
  split; [reflexivity|]. split; [reflexivity|].
  split; [exact Hfin|]. split; [exact Hrsp|]. split; [exact Hmem|].
  rewrite Hrsp, Hmem. apply load_store_same. apply Z.mod_pos_bound. lia.
Qed.

(** [i32.const v] with [v] below [2^31] pushes the cell [v]: its upper 32
    bits are zero. *)
Theorem i32_const_small_zero_extended v cs s :
  0 <= v < 2 ^ 31 ->
  rip s = 0%nat ->
  exists cs' code s',
    translate (Instr_i32_const v) cs = Some (tt, cs') /\
    sstack cs' = sstack cs ++ [STACK_I32] /\
    output cs' = output cs ++ code /\
    run 1 code s = Halted s' /\
    regs s' RSP = (regs s RSP - 8) mod 2 ^ 64 /\
    load 8 (mem s') (regs s' RSP) = v.
Proof.
  intros Hv Hrip.
  exists (set_sstack (fun st => st ++ [STACK_I32])
            (set_output (fun o => o ++ 0x68 :: encode_le_uint32_t v) cs)),
    (0x68 :: encode_le_uint32_t v),
    (push64 (sign_extend 32 (v mod 2 ^ 32)) (set_rip 5 s)).
  split; [apply i32_const_code|].
  split; [reflexivity|]. split; [reflexivity|].
  split; [apply run_push_imm32; exact Hrip|].
  unfold push64. msimpl. rewrite !Zmod_mod_64. split; [reflexivity|].
  rewrite load_store_same by (apply Z.mod_pos_bound; lia).
  rewrite sign_extend_id by lia. apply Z.mod_small. lia.
Qed.

Lemma decodes_add_rsp_8 :
  decodes [0x48; 0x83; 0xc4; 0x08] (I_alu_rm_imm ADD W64 (Reg RSP) 8).
Proof. split; [cbn; lia | reflexivity]. Qed.

(** [drop] discards the top slot, whatever it is, and fails on an empty
    static stack; its code moves the stack pointer up by 8 and leaves the
    memory alone. *)
Theorem drop_discards_top cs s :
  rip s = 0%nat ->
  match last (sstack cs) with
  | None => translate (Instr_plain OPCODE_DROP) cs = None
  | Some _ =>
      exists cs' s',
        translate (Instr_plain OPCODE_DROP) cs = Some (tt, cs') /\
        sstack cs' = take (length (sstack cs) - 1) (sstack cs) /\
        output cs' = output cs ++ [0x48; 0x83; 0xc4; 0x08] /\
        finishes [0x48; 0x83; 0xc4; 0x08] s (Halted s') /\
        regs s' RSP = (regs s RSP + 8) mod 2 ^ 64 /\
        mem s' = mem s
  end.
Proof.
  intros Hrip.
  destruct (last (sstack cs)) as [e|] eqn:Hlast.
  - assert (Hends : ends [0x48; 0x83; 0xc4; 0x08] s (fun out => exists s',
               out = Halted s' /\ regs s' RSP = (regs s RSP + 8) mod 2 ^ 64 /\
               mem s' = mem s)).
    { set (code := [0x48; 0x83; 0xc4; 0x08]).
      assert (Hcode : code = [] ++ [0x48; 0x83; 0xc4; 0x08] ++ [])
        by reflexivity.
      xstep (@nil Z) [0x48; 0x83; 0xc4; 0x08] decodes_add_rsp_8.
      destruct (alu_add64 (regs s RSP mod 2 ^ 64) (8 mod 2 ^ 64)) as (f & ->).
      msimpl.
      eexists. split; [apply finishes_halted; cbn; lia|].
      eexists. split; [reflexivity|]. cbn [regs mem].
      split; [|reflexivity]. rewrite upd_eq, Zmod_mod_64.
      rewrite Z.add_mod_idemp_l by lia. reflexivity. }
    destruct Hends as (out & Hfin & s' & -> & Hrsp & Hmem).
    eexists _, s'. split.
    + cbn [wasmjit_compile_instruction]. unfold compile_plain.
      rewrite (bind_eq (OUTS [0x48; 0x83; 0xc4; 0x08]) _ cs tt _ eq_refl).
      unfold pop_stack, bind, gets, assert, modify.
      cbn [sstack set_output].
      destruct (sstack cs) as [|x l] eqn:Hs; [discriminate Hlast|].
      cbn [length Nat.eqb negb ret]. reflexivity.
    + cbn [sstack output set_sstack set_output].
      repeat split; try assumption; reflexivity.
  - apply last_None in Hlast.
    cbn [wasmjit_compile_instruction]. unfold compile_plain.
    rewrite (bind_eq (OUTS [0x48; 0x83; 0xc4; 0x08]) _ cs tt _ eq_refl).
    unfold pop_stack, bind, gets, assert. cbn [sstack set_output].
    rewrite Hlast. reflexivity.
Qed.

End StackCells.



Lemma emit_epilogue_appends type n u s s' :
  emit_epilogue type n s = Some (u, s') ->
  exists tail, output s' = output s ++ tail.
Proof.
  unfold emit_epilogue. intros H.
  apply bind_Some in H. destruct H as (u1 & s1 & Hres & Hepi).
  apply epilogue_result_Some in Hres. destruct Hres as (pop & Hpop & _).
  apply epilogue_frame_Some in Hepi. subst s'.
  cbn [output set_output]. rewrite Hpop.
  eexists. rewrite <- app_assoc. reflexivity.
Qed.

Lemma decodes_push_rbp : decodes [0x55] (I_push_r RBP).
Proof. split; [cbn; lia | reflexivity]. Qed.

Lemma decodes_mov_rsp_rbp :
  decodes [0x48; 0x89; 0xe5] (I_mov_rm_r W64 (Reg RBP) RSP).
Proof. split; [cbn; lia | reflexivity]. Qed.

Lemma decodes_int3 : decodes [0xcc] I_int3.
Proof. split; [cbn; lia | reflexivity]. Qed.

(** The frame set-up, the breakpoint and the frame allocation, in this
    order, open the code of a compiled function. *)
Lemma compiled_function_frame layout func_types module_types type code
    memrefs0 out memrefs' :
  wasmjit_compile_function layout func_types module_types type code memrefs0
    = Some (out, memrefs') ->
  exists locals_md n_locals n rest,
    frame_layout type code = Some (locals_md, n_locals, n) /\
    out = [0x55] ++ [0x48; 0x89; 0xe5] ++ [0xcc] ++ frame_sub n ++ rest.
Proof.
  intros H. unfold wasmjit_compile_function in H.
  destruct (frame_layout type code) as [[[locals_md n_locals] n]|];
    [|discriminate].
  cbn in H.
  destruct (compile_function_body layout func_types module_types type code
              locals_md n_locals n (initial_state memrefs0))
    as [[u s]|] eqn:Hbody; [|discriminate].
  cbn in H. inversion H; subst. clear H.
  exists locals_md, n_locals, n.
  unfold compile_function_body, emit_prologue in Hbody.
  apply bind_Some in Hbody. destruct Hbody as (u1 & s1 & Hpro & Hbody).
  apply bind_Some in Hpro. destruct Hpro as (u2 & s0 & Hframe & Hpro).
  apply prologue_frame_Some in Hframe. destruct Hframe as [-> _].
  apply bind_Some in Hbody. destruct Hbody as (u3 & s2 & Hinstrs & Hbody).
  apply bind_Some in Hbody. destruct Hbody as (u4 & s3 & Hfix & Hepi).
  set (pre := [0x55; 0x48; 0x89; 0xe5; 0xcc] ++ frame_sub n) in *.
  set (s0 := set_output (fun o => o ++ pre) (initial_state memrefs0)) in *.
  assert (Hkeep : keeps_prefix pre s3).
  { refine (proj1 (keeps_prefix_function_rest pre layout func_types
                     module_types type code locals_md n_locals n
                     s0 tt s3 _ _)).
    - split; [exists []; cbn; now rewrite app_nil_r | constructor].
    - apply bind_Some in Hpro. destruct Hpro as (u6 & s5 & Hspill & Hinit).
      apply bind_Some. exists u6, s5. split; [exact Hspill|].
      apply bind_Some. exists u1, s1. split; [exact Hinit|].
      apply bind_Some. exists u3, s2. split; [exact Hinstrs|].
      destruct u4. exact Hfix. }
  destruct Hkeep as [[mid Hmid] _].
  destruct (emit_epilogue_appends _ _ _ _ _ Hepi) as (tail & Htail).
  rewrite Htail, Hmid. unfold pre.
  exists (mid ++ tail). split; [reflexivity|].
  rewrite <- !app_assoc. reflexivity.
Qed.

(** Entering any compiled function.  The code begins with [push %rbp],
    [mov %rsp, %rbp], [int3], and only then the allocation of the frame
    ([frame_sub n]).  From an entry state [s], two steps lead to a state
    [s2] in which the old [%rbp] has been pushed ([%rsp] is 8 lower and the
    8 bytes there hold it), [%rbp] is a copy of the new [%rsp], and no
    other register has changed; the instruction at [s2] is the breakpoint,
    which traps with vector 3, so the run ends there: before the frame is
    allocated and before any instruction of the body. *)
Theorem function_entry_breakpoint layout func_types module_types type code
    memrefs0 out memrefs' s :
  wasmjit_compile_function layout func_types module_types type code memrefs0
    = Some (out, memrefs') ->
  rip s = 0%nat ->
  exists locals_md n_locals n rest s2,
    frame_layout type code = Some (locals_md, n_locals, n) /\
    out = [0x55; 0x48; 0x89; 0xe5; 0xcc] ++ frame_sub n ++ rest /\
    run 2 out s = OutOfFuel s2 /\
    rip s2 = 4%nat /\
    regs s2 RSP = (regs s RSP - 8) mod 2 ^ 64 /\
    regs s2 RBP = regs s2 RSP /\
    (forall r, r <> RSP -> r <> RBP -> regs s2 r = regs s r) /\
    mem s2 = store 8 (mem s) (regs s2 RSP) (regs s RBP mod 2 ^ 64) /\
    step out s2 = Trap 3 /\
    finishes out s (Trapped 3).
Proof.
  intros Hc Hrip.
  destruct (compiled_function_frame _ _ _ _ _ _ _ _ Hc)
    as (locals_md & n_locals & n & rest & Hl & Hout).
  exists locals_md, n_locals, n, rest.
  set (sp := (regs s RSP - 8) mod 2 ^ 64).
  exists (mkMachine (upd (upd (regs s) RSP sp) RBP sp) (fl s)
            (store 8 (mem s) sp (regs s RBP mod 2 ^ 64)) 4).
  assert (Hlen : (4 < length out)%nat).
  { rewrite Hout, !length_app. cbn [length]. lia. }
  split; [exact Hl|]. split; [exact Hout|].
  split; [|split; [reflexivity|split; [|split; [|split; [|split; [reflexivity|split]]]]]].
  - rewrite (run_S 1 out s (I_push_r RBP) 1); [|lia|].
    2:{ rewrite Hrip, Hout. cbn [drop].
        exact (proj2 decodes_push_rbp _). }
    cbn [exec].
    rewrite (run_S 0 out _ (I_mov_rm_r W64 (Reg RBP) RSP) 3).
    2:{ msimpl. rewrite Hrip. cbn. lia. }
    2:{ msimpl. rewrite Hrip, Hout. cbn [drop Nat.add app].
        exact (proj2 decodes_mov_rsp_rbp _). }
    cbn [exec]. msimpl. cbn [run]. rewrite Hrip. cbn [Nat.add rip].
    destruct (Nat.leb_spec (length out) 4) as [Hle|_]; [lia|].
    assert (Hsp : sp mod 2 ^ 64 = sp) by (unfold sp; apply Z.mod_mod; lia).
    fold sp. rewrite ?Hsp. reflexivity.
  - cbn [regs]. rewrite upd_neq by reg_neq. rewrite upd_eq. reflexivity.
  - cbn [regs]. rewrite upd_eq, upd_neq by reg_neq. now rewrite upd_eq.
  - intros r Hr1 Hr2. cbn [regs]. unfold upd.
    destruct (Z.eqb_spec r RBP); [contradiction|].
    destruct (Z.eqb_spec r RSP); [contradiction|]. reflexivity.
  - unfold step. cbn [rip]. rewrite Hout. cbn [drop app].
    change (204 :: frame_sub n ++ rest) with ([0xcc] ++ frame_sub n ++ rest).
    rewrite (proj2 decodes_int3 _). reflexivity.
  - assert (Hcode : out = [] ++ [0x55] ++ [0x48; 0x89; 0xe5] ++ [0xcc]
                          ++ frame_sub n ++ rest) by exact Hout.
    xstep (@nil Z) [0x55] decodes_push_rbp.
    xstep ([] ++ [0x55]) [0x48; 0x89; 0xe5] decodes_mov_rsp_rbp.
    xstep (([] ++ [0x55]) ++ [0x48; 0x89; 0xe5]) [0xcc] decodes_int3.
    reflexivity.
Qed.
(** *** What back-patching needs and what it leaves alone *)

(** Back-patching goes through exactly when every recorded site lies
    inside the buffer and every recorded continuation is the exit sentinel
    or an assigned label: an unassigned label or a site past the end of the
    buffer makes it fail. *)
Theorem fix_branches_succeeds_iff bs s :
  is_Some (fix_branches bs s) <->
  Forall (fun b =>
            (branch_offset b + 5 <= length (output s))%nat /\
            exists t, resolved (length (output s)) (labels s) b t) bs.
Proof.
  revert s. induction bs as [|b bs IH]; intros s; cbn [fix_branches].
  - split; [constructor | intros _; eexists; reflexivity].
  - split.
    + intros [[u s'] H].
      apply bind_Some in H. destruct H as (u1 & s1 & H1 & H2).
      pose proof H1 as H1'.
      apply fix_branch_inv in H1. destruct H1 as (t & Hr & Hb & Hs1).
      assert (Hlen : length (output s1) = length (output s)).
      { rewrite Hs1. cbn [output set_output]. apply length_patch.
        rewrite length_jmp. exact Hb. }
      assert (Hlab : labels s1 = labels s) by (rewrite Hs1; reflexivity).
      constructor; [split; [exact Hb | exists t; exact Hr]|].
      rewrite <- Hlen, <- Hlab. apply IH. eexists. exact H2.
    + intros Hall. inversion Hall as [|b' bs' [Hb [t Hr]] Hrest]; subst.
      rewrite (bind_eq _ _ _ _ _ (fix_branch_Some _ _ _ Hr Hb)).
      apply IH.
      cbn [output labels set_output].
      rewrite length_patch by (rewrite length_jmp; exact Hb).
      exact Hrest.
Qed.

(** Back-patching rewrites only the recorded 5-byte sites: the length of
    the buffer, every byte outside the sites, the label table, the branch
    table, the relocation table and the static stack stay as they were. *)
Theorem fix_branches_touches_sites_only bs : forall s s',
  fix_branches bs s = Some (tt, s') ->
  length (output s') = length (output s) /\
  labels s' = labels s /\ branches s' = branches s /\
  memrefs s' = memrefs s /\ sstack s' = sstack s /\
  forall i,
    Forall (fun b => ~ (branch_offset b <= i < branch_offset b + 5)%nat) bs ->
    output s' !! i = output s !! i.
Proof.
  induction bs as [|b bs IH]; intros s s' H; cbn [fix_branches] in H.
  - apply ret_Some in H. destruct H as [_ ->]. repeat split; reflexivity.
  - apply bind_Some in H. destruct H as (u & s1 & H1 & H2).
    apply IH in H2. destruct H2 as (Hlen & Hlab & Hbr & Hmr & Hst & Hout).
    apply fix_branch_inv in H1. destruct H1 as (t & _ & Hb & ->).
    pose proof (length_jmp (displacement b t)) as Hj.
    cbn [output labels branches memrefs sstack set_output] in *.
    rewrite length_patch in Hlen by lia.
    repeat split; try assumption.
    intros i Hi. inversion Hi as [|b' bs' Hnb Hrest]; subst.
    rewrite (Hout i Hrest), patch_lookup by lia.
    case_decide as Hin; [|reflexivity]. rewrite Hj in Hin. contradiction.
Qed.


(** *** Loads and stores on the machine *)

(** The complete behaviour of a translated load or store, for every
    opcode and every static offset.  The check adds to the popped address
    the 32-bit sum [4 + offset], sign-extended to 64 bits (nothing when the
    sum is 0), and compares the result with [size] as signed 64-bit
    integers: the run ends in [int $4] when it is greater, and otherwise
    performs the access of the opcode at [data + result - 4] and halts. *)
Theorem loadstore_traps_or_accesses layout op offset M ea size data s :
  is_loadstore op = true ->
  access_setup layout op M ea size data s ->
  linked_loadstore layout op offset M
    = Some (loadstore_bytes layout op offset M) /\
  if sign_extend 64 (checked_address ea offset) <=? sign_extend 64 size
  then access_proceeds layout op offset M ea data s
  else access_traps layout op offset M s.
Proof.
  intros Hop Hset. split.
  - destruct Hset. apply linked_loadstore_bytes; assumption.
  - apply loadstore_outcome; assumption.
Qed.

(** The check and the access that follow the optional [pop %rdi], with
    the stack pointer. *)
Lemma loadstore_tail_sp layout op offset M ea size data code pre s1 :
  is_loadstore op = true ->
  code = pre ++ check_bytes offset (off_MemInst_size layout) M
             ++ c_movabs_rax M ++ c_mov_rax_disp8 (off_MemInst_data layout)
             ++ access_bytes op ->
  rip s1 = length pre ->
  -128 <= off_MemInst_size layout <= 127 ->
  -128 <= off_MemInst_data layout <= 127 ->
  0 <= M < 2 ^ 64 ->
  load 8 (mem s1) (regs s1 RSP) = ea -> 0 <= ea < 2 ^ 64 ->
  load 8 (mem s1) ((M + off_MemInst_size layout) mod 2 ^ 64) = size ->
  0 <= size < 2 ^ 64 ->
  load 8 (mem s1) ((M + off_MemInst_data layout) mod 2 ^ 64) = data ->
  0 <= data < 2 ^ 64 ->
  ends code s1
    (if sign_extend 64 (checked_address ea offset) <=? sign_extend 64 size
     then fun o => exists s' s'',
              o = Halted s'' /\ mem s' = mem s1 /\ regs s' RDI = regs s1 RDI /\
              regs s' RSP = (regs s1 RSP + 8) mod 2 ^ 64 /\
              access_done op s' s''
                ((data + checked_address ea offset - 4) mod 2 ^ 64)
     else fun o => o = Trapped 4).
Proof.
  intros Hop Hcode Hrip Hso Hdo HM Hea Hear Hsize Hsizer Hdata Hdatar.
  eapply (ends_bounds_check code pre _ offset (off_MemInst_size layout) M s1
            ea size); try eassumption.
  fold (checked_address ea offset).
  destruct (sign_extend 64 (checked_address ea offset) <=? sign_extend 64 size);
    [|reflexivity].
  intros s' Hs'. pose proof Hs' as (Hr' & Hm' & Hrsi' & Hrax' & Hrsp' & Hrdi').
  destruct (finishes_access code
              (pre ++ check_bytes offset (off_MemInst_size layout) M) op
              (off_MemInst_data layout) M s' data (checked_address ea offset))
    as (s'' & Hfin & Hdone); try assumption.
  - rewrite Hcode, <- ?app_assoc. reflexivity.
  - rewrite Hm'. exact Hdata.
  - exists (Halted s''). split; [exact Hfin|].
    exists s', s''. repeat split; assumption.
Qed.

Lemma mod_mod_width v w :
  w = 1 \/ w = 2 \/ w = 4 \/ w = 8 ->
  (v mod 2 ^ 64) mod 2 ^ (8 * w) = v mod 2 ^ (8 * w).
Proof.
  intros Hw. apply Z.mod_mod_divide.
  destruct Hw as [Hw|[Hw|[Hw|Hw]]]; subst w.
  - exists (2 ^ 56). reflexivity.
  - exists (2 ^ 48). reflexivity.
  - exists (2 ^ 32). reflexivity.
  - exists 1. reflexivity.
Qed.

Lemma access_width_cases op :
  access_width op = 1 \/ access_width op = 2 \/ access_width op = 4
    \/ access_width op = 8.
Proof. destruct op; cbn; auto. Qed.

(** The complete run of a linked load or store, with its effect on the
    machine it started from. *)
Lemma loadstore_effect layout op offset M ea size data s :
  is_loadstore op = true ->
  access_setup layout op M ea size data s ->
  ends (loadstore_bytes layout op offset M) s
    (if sign_extend 64 (checked_address ea offset) <=? sign_extend 64 size
     then fun o => exists s'',
              o = Halted s'' /\
              access_effect op s s''
                ((data + checked_address ea offset - 4) mod 2 ^ 64)
     else fun o => o = Trapped 4).
Proof.
  intros Hop [Hrip Hso Hdo HM Hea Hear Hsize Hsizer Hdata Hdatar].
  destruct (store_operand op) as [w|] eqn:Hst.
  - (* a store: [pop %rdi] comes first *)
    assert (Hcode : loadstore_bytes layout op offset M
                    = [] ++ [0x5f]
                         ++ check_bytes offset (off_MemInst_size layout) M
                         ++ c_movabs_rax M
                         ++ c_mov_rax_disp8 (off_MemInst_data layout)
                         ++ access_bytes op).
    { unfold loadstore_bytes. rewrite Hst. reflexivity. }
    xstep (@nil Z) [0x5f] decodes_pop_rdi.
    match goal with |- ends _ ?st _ => set (s1 := st) end.
    pose proof (loadstore_tail_sp layout op offset M ea size data
                  (loadstore_bytes layout op offset M) [0x5f] s1 Hop) as Ht.
    assert (Hrsp1 : regs s1 RSP = (regs s RSP + 8) mod 2 ^ 64).
    { subst s1. msimpl. reflexivity. }
    assert (Hrdi1 : regs s1 RDI = load 8 (mem s) (regs s RSP) mod 2 ^ 64).
    { subst s1. msimpl. reflexivity. }
    change (mem s1) with (mem s) in Ht. rewrite Hrsp1, Hrdi1 in Ht.
    specialize (Ht Hcode eq_refl Hso Hdo HM Hea Hear Hsize Hsizer Hdata Hdatar).
    destruct Ht as (o & Hfin & Ho). exists o. split; [exact Hfin|].
    destruct (sign_extend 64 (checked_address ea offset) <=? sign_extend 64 size);
      [|exact Ho].
    destruct Ho as (s' & s'' & -> & Hm & Hrdi & Hrsp & Hdone).
    exists s''. split; [reflexivity|].
    unfold access_done in Hdone. unfold access_effect.
    rewrite Hst in *. destruct Hdone as [Hmem Hsp]. split.
    + rewrite Hsp, Hrsp. rewrite Z.add_mod_idemp_l by lia. f_equal. lia.
    + rewrite Hmem, Hm, Hrdi.
      rewrite mod_mod_width by apply access_width_cases. reflexivity.
  - (* a load *)
    assert (Hcode : loadstore_bytes layout op offset M
                    = [] ++ check_bytes offset (off_MemInst_size layout) M
                         ++ c_movabs_rax M
                         ++ c_mov_rax_disp8 (off_MemInst_data layout)
                         ++ access_bytes op).
    { unfold loadstore_bytes. rewrite Hst. reflexivity. }
    pose proof (loadstore_tail_sp layout op offset M ea size data
                  (loadstore_bytes layout op offset M) [] s Hop Hcode Hrip
                  Hso Hdo HM Hea Hear Hsize Hsizer Hdata Hdatar) as Ht.
    destruct Ht as (o & Hfin & Ho). exists o. split; [exact Hfin|].
    destruct (sign_extend 64 (checked_address ea offset) <=? sign_extend 64 size);
      [|exact Ho].
    destruct Ho as (s' & s'' & -> & Hm & Hrdi & Hrsp & Hdone).
    exists s''. split; [reflexivity|].
    unfold access_done in Hdone. unfold access_effect.
    rewrite Hst in *. destruct Hdone as (Hrax & Hsp & Hcell).
    rewrite Hm in Hrax. split; [|split; [|exact Hrax]].
    + rewrite Hsp, Hrsp. rewrite Zminus_mod_idemp_l. f_equal. lia.
    + rewrite Hcell. exact Hrax.
Qed.

(** For a static offset below [2^31 - 4], a 32-bit address and a size
    below [2^63], the code the translator emits for a load or store, once
    linked, traps (vector 4) exactly when [ea + offset + 4 > size].
    Otherwise it halts after the access of [data + ea + offset] with the
    width of the opcode: a load leaves the value read in place of the
    address on top of the stack, a store writes the low bytes of the value
    popped from the top of the stack and removes both cells. *)
Theorem loadstore_in_range layout op offset M ea size data s :
  is_loadstore op = true ->
  access_setup layout op M ea size data s ->
  0 <= offset -> offset + 4 < 2 ^ 31 -> ea < 2 ^ 32 -> size < 2 ^ 63 ->
  linked_loadstore layout op offset M
    = Some (loadstore_bytes layout op offset M) /\
  (size < ea + offset + 4 ->
   finishes (loadstore_bytes layout op offset M) s (Trapped 4)) /\
  (ea + offset + 4 <= size ->
   exists s',
     finishes (loadstore_bytes layout op offset M) s (Halted s') /\
     access_effect op s s' ((data + ea + offset) mod 2 ^ 64)).
Proof.
  intros Hop Hset Ho Ho' Hea Hsz.
  pose proof (setup_ea_range _ _ _ _ _ _ _ Hset) as Hear.
  pose proof (setup_size_range _ _ _ _ _ _ _ Hset) as Hszr.
  pose proof (loadstore_effect layout op offset M ea size data s Hop Hset) as H.
  rewrite checked_address_in_range in H by lia.
  rewrite !sign_extend_64_small in H by lia.
  replace (data + (ea + offset + 4) - 4) with (data + ea + offset) in H by lia.
  split; [destruct Hset; apply linked_loadstore_bytes; assumption|].
  destruct H as (o & Hfin & Ho2).
  destruct (Z.leb_spec (ea + offset + 4) size) as [Hle|Hgt]; split; intros Hc;
    try lia.
  - destruct Ho2 as (s'' & -> & Heff). exists s''. split; assumption.
  - subst o. exact Hfin.
Qed.
(** *** Instruction sequences *)

Section Sequences.

Variable layout : Layout.
Variable func_types : list FuncType.
Variable module_types : ModuleTypes.
Variable type : FuncType.
Variable locals_md : list LocalsMD.
Variable n_locals : nat.
Variable n_frame_locals : nat.

Local Abbreviation translate :=
  (wasmjit_compile_instruction layout func_types module_types type locals_md
     n_locals n_frame_locals).
Local Abbreviation translate_all :=
  (wasmjit_compile_instructions layout func_types module_types type locals_md
     n_locals n_frame_locals).

(** Translating a sequence is translating its first part and then, from
    the state reached, its second part; a failure in either part fails the
    whole. *)
Theorem compile_instructions_app l1 l2 s :
  wasmjit_compile_instructions layout func_types module_types type locals_md
    n_locals n_frame_locals (l1 ++ l2) s
  = match wasmjit_compile_instructions layout func_types module_types type
            locals_md n_locals n_frame_locals l1 s with
    | Some (_, s1) =>
        wasmjit_compile_instructions layout func_types module_types type
          locals_md n_locals n_frame_locals l2 s1
    | None => None
    end.
Proof.
  revert s. induction l1 as [|i l1 IH]; intros s.
  - reflexivity.
  - cbn [app wasmjit_compile_instructions]. unfold bind.
    destruct (translate i s) as [[u s0]|]; [apply IH | reflexivity].
Qed.

Lemma shift_results_stack stack_idx arity u s s' :
  shift_results stack_idx arity s = Some (u, s') ->
  (stack_idx + arity <= length (sstack s))%nat /\
  sstack s' = take stack_idx (sstack s)
                ++ drop (length (sstack s) - arity) (sstack s).
Proof.
  unfold shift_results. intros H.
  apply bind_Some in H. destruct H as (l & s1 & Hl & H).
  apply gets_Some in Hl. destruct Hl as [-> ->].
  apply bind_Some in H. destruct H as (u1 & s1 & Ha & H).
  apply assert_Some in Ha. destruct Ha as [Ha ->].
  apply andb_true_iff in Ha. destruct Ha as [Ha1 Ha2].
  apply Nat.leb_le in Ha1. apply Nat.leb_le in Ha2.
  apply bind_Some in H. destruct H as (u2 & s1 & Hm & H).
  apply modify_Some in Hm. subst s1.
  apply stack_truncate_Some in H. destruct H as [_ ->].
  split; [exact Ha2|]. cbn [sstack set_sstack].
  set (st := sstack s) in *.
  assert (Hl1 : length (take stack_idx st) = stack_idx)
    by (rewrite length_take; lia).
  assert (Hl2 : length (take arity (drop (length st - arity) st)) = arity)
    by (rewrite length_take, length_drop; lia).
  rewrite app_assoc, take_app_length'
    by (rewrite length_app, Hl1, Hl2; reflexivity).
  f_equal. apply take_ge. rewrite length_drop. lia.
Qed.

(** The static stack after a [block] or [loop]: the slots that were below
    the label, as the body left them, followed by the top [arity] slots of
    the stack the body ended with; the translator checks only that the
    body's stack is that long.  When the body left the label and the slots
    below it in place, with [vals] above the label: if [vals] has at least
    [arity] slots, the label slot and all but the top [arity] slots of
    [vals] are gone; if it has fewer (one result expected, none left), the
    label slot itself remains on the stack in the place of the result. *)
Theorem block_result_stack op blocktype body s s' :
  op = OPCODE_BLOCK \/ op = OPCODE_LOOP ->
  translate (Instr_block op blocktype body) s = Some (tt, s') ->
  let lbl := STACK_LABEL (block_arity blocktype) (Z.of_nat (length (labels s))) in
  exists s1,
    translate_all body
      (set_sstack (fun st => st ++ [lbl])
         (set_labels (fun l => l ++ [None]) s)) = Some (tt, s1) /\
    (length (sstack s) + block_arity blocktype <= length (sstack s1))%nat /\
    sstack s' = take (length (sstack s)) (sstack s1)
                  ++ drop (length (sstack s1) - block_arity blocktype)
                       (sstack s1) /\
    forall vals,
      sstack s1 = sstack s ++ [lbl] ++ vals ->
      ((block_arity blocktype <= length vals)%nat ->
       sstack s' = sstack s
                     ++ drop (length vals - block_arity blocktype) vals) /\
      ((length vals < block_arity blocktype)%nat ->
       vals = [] /\ sstack s' = sstack s ++ [lbl]).
Proof.
  intros Hop H lbl.
  rewrite compile_instruction_block in H.
  assert (Hb : compile_block op blocktype (translate_all body) s
               = Some (tt, s')) by (destruct Hop as [-> | ->]; exact H).
  clear H. unfold compile_block in Hb.
  apply bind_Some in Hb. destruct Hb as (li & s1 & Hl & Hb).
  apply gets_Some in Hl. destruct Hl as [-> ->].
  apply bind_Some in Hb. destruct Hb as (u & s1 & Hl & Hb).
  apply modify_Some in Hl. subst s1.
  apply bind_Some in Hb. destruct Hb as (si & s1 & Hl & Hb).
  apply gets_Some in Hl. destruct Hl as [-> ->].
  apply bind_Some in Hb. destruct Hb as (u1 & s1 & Hl & Hb).
  apply modify_Some in Hl. subst s1.
  apply bind_Some in Hb. destruct Hb as (oi & s1 & Hl & Hb).
  apply output_n_elts_Some in Hl. destruct Hl as [-> ->].
  apply bind_Some in Hb. destruct Hb as ([] & s1 & Hbody & Hb).
  apply bind_Some in Hb. destruct Hb as (u2 & s2 & Hsh & Hb).
  apply shift_results_stack in Hsh. destruct Hsh as [Hlen Hst].
  cbn [sstack set_labels] in Hlen, Hst.
  assert (Hs' : sstack s' = sstack s2).
  { destruct Hop as [-> | ->].
    - apply bind_Some in Hb. destruct Hb as (n & s3 & Hn & Hb).
      apply output_n_elts_Some in Hn. destruct Hn as [-> ->].
      apply set_label_Some in Hb. destruct Hb as [_ ->]. reflexivity.
    - apply set_label_Some in Hb. destruct Hb as [_ ->]. reflexivity. }
  rewrite <- Hs' in Hst.
  exists s1. split; [exact Hbody|]. split; [exact Hlen|].
  split; [exact Hst|].
  intros vals Hvals. rewrite Hst, Hvals.
  rewrite take_app_length. rewrite !length_app. cbn [length].
  split.
  - intros Hle. f_equal.
    rewrite drop_app_ge by lia.
    rewrite drop_app_ge by (cbn [length]; lia).
    f_equal. cbn [length]. lia.
  - intros Hlt.
    assert (Har : (block_arity blocktype <= 1)%nat)
      by (unfold block_arity; destruct (valtype_eqb _ _); lia).
    assert (Hv : vals = []) by (destruct vals; [reflexivity | cbn in Hlt; lia]).
    subst vals. split; [reflexivity|]. f_equal.
    cbn [length] in *. rewrite app_nil_r.
    replace (block_arity blocktype) with 1%nat by lia.
    rewrite drop_app_ge by lia.
    replace (length (sstack s) + (1 + 0) - 1 - length (sstack s))%nat
      with 0%nat by lia.
    reflexivity.
Qed.

End Sequences.

(** *** String literals *)

Lemma strlen_split str :
  Forall (fun b => b <> 0) (take (strlen str) str) /\
  (drop (strlen str) str = [] \/
   exists rest, drop (strlen str) str = 0 :: rest).
Proof.
  induction str as [|c str [IH1 IH2]]; cbn [strlen].
  - split; [constructor | left; reflexivity].
  - destruct (Z.eqb_spec c 0) as [->|Hc].
    + split; [constructor | right; eexists; reflexivity].
    + cbn [take drop]. split; [constructor; assumption | exact IH2].
Qed.

(** [OUTS] never fails, appends the bytes of the literal up to its first
    NUL and nothing after: the bytes appended contain no zero, and a
    literal with a zero byte inside loses that byte and all that follow. *)
Theorem OUTS_stops_at_nul str s :
  exists bytes rest,
    OUTS str s = Some (tt, set_output (fun o => o ++ bytes) s) /\
    str = bytes ++ rest /\
    Forall (fun b => b <> 0) bytes /\
    (rest = [] \/ exists rest', rest = 0 :: rest').
Proof.
  exists (take (strlen str) str), (drop (strlen str) str).
  split; [reflexivity|]. split; [symmetry; apply take_drop|].
  apply strlen_split.
Qed.

Section Literals.

Variable layout : Layout.
Variable func_types : list FuncType.
Variable module_types : ModuleTypes.
Variable type : FuncType.
Variable locals_md : list LocalsMD.
Variable n_locals : nat.
Variable n_frame_locals : nat.

Local Abbreviation translate :=
  (wasmjit_compile_instruction layout func_types module_types type locals_md
     n_locals n_frame_locals).

(** [i32.eqz] checks that the top slot is an i32 and leaves the static
    stack as it is.  Its [cmpl $0, (%rsp)] is written without the
    immediate byte, so the 11 bytes emitted decode, after the [xor], as
    [cmpl $0x0f, (%rsp)]: the compare takes the first byte of the [sete]
    that follows as its immediate. *)
Theorem i32_eqz_loses_immediate cs st :
  sstack cs = st ++ [STACK_I32] ->
  translate (Instr_plain OPCODE_I32_EQZ) cs
  = Some (tt, set_output
                (fun o => o ++ [0x31; 0xc0] ++ [0x83; 0x3c; 0x24]
                            ++ [0x0f; 0x94; 0xc0] ++ [0x89; 0x04; 0x24]) cs) /\
  decodes [0x31; 0xc0] (I_alu_rm_r XOR W32 (Reg RAX) RAX) /\
  decodes ([0x83; 0x3c; 0x24] ++ [0x0f])
    (I_alu_rm_imm CMP W32 (Mem (Some RSP) None 1 0) 0x0f).
Proof.
  intros Hst. split; [|split; (split; [cbn; lia | reflexivity])].
  cbn [wasmjit_compile_instruction]. unfold compile_plain.
  rewrite (bind_eq _ _ _ _ _ (assert_peek_top VALTYPE_I32 cs st Hst)).
  destruct cs.
  unfold bind, OUTS, output_buf, modify, set_output. cbn.
  rewrite <- !app_assoc. reflexivity.
Qed.

End Literals.


(** *** Register and stack parameters *)




(** *** Locals *)

Section Locals.

Variable layout : Layout.
Variable func_types : list FuncType.
Variable module_types : ModuleTypes.
Variable type : FuncType.
Variable locals_md : list LocalsMD.
Variable n_locals : nat.
Variable n_frame_locals : nat.

Local Abbreviation translate_all :=
  (wasmjit_compile_instructions layout func_types module_types type locals_md
     n_locals n_frame_locals).

(** [get_local k] followed by [set_local k], for a local [k] in range
    whose descriptor has a value type: the static stack gets a slot of the
    type of the local and loses it again, and the code is
    [push fp_offset(%rbp)] followed by [pop fp_offset(%rbp)] with the
    slot offset of the local as a 32-bit displacement. *)
Theorem get_then_set_local k md cs :
  0 <= k < Z.of_nat n_locals ->
  locals_md !! Z.to_nat k = Some md ->
  lmd_valtype md <> VALTYPE_NULL ->
  translate_all [Instr_local OPCODE_GET_LOCAL k; Instr_local OPCODE_SET_LOCAL k] cs
  = Some (tt, set_output
                (fun o => o ++ ([0xff; 0xb5] ++ encode_le_uint32_t (fp_offset md))
                            ++ [0x8f; 0x85] ++ encode_le_uint32_t (fp_offset md))
                cs).
Proof.
  intros Hk Hmd Ht.
  cbn [wasmjit_compile_instructions wasmjit_compile_instruction].
  unfold compile_local, local_md.
  assert (Hlt : (k <? Z.of_nat n_locals) = true) by (apply Z.ltb_lt; lia).
  rewrite Hmd, Hlt.
  assert (Hnn : negb (valtype_eqb (lmd_valtype md) VALTYPE_NULL) = true)
    by (destruct (lmd_valtype md); try reflexivity; contradiction).
  destruct cs as [o lb br mr st].
  rewrite (bind_eq (bind (assert true) _) _ _ tt
             (mkState (o ++ [0xff; 0xb5] ++ encode_le_uint32_t (fp_offset md))
                lb br mr (st ++ [STACK_VALUE (lmd_valtype md)]))).
  2:{ unfold bind, assert, lift, ret, push_stack, OUTS, output_buf, modify,
        set_sstack, set_output.
      rewrite Hnn. cbn. rewrite <- !app_assoc. reflexivity. }
  rewrite (bind_eq (bind (lift (Some md)) _) _ _ tt
             (mkState ((o ++ [0xff; 0xb5] ++ encode_le_uint32_t (fp_offset md))
                         ++ [0x8f; 0x85] ++ encode_le_uint32_t (fp_offset md))
                lb br mr st)).
  2:{ unfold lift at 1. unfold bind at 1. unfold ret at 1.
      rewrite (bind_eq _ _ _ _ _
                 (assert_peek_top (lmd_valtype md)
                    (mkState (o ++ [0xff; 0xb5]
                                ++ encode_le_uint32_t (fp_offset md))
                       lb br mr (st ++ [STACK_VALUE (lmd_valtype md)]))
                    st eq_refl)).
      rewrite (bind_eq (OUTS [0x8f; 0x85]) _ _ tt _ eq_refl).
      rewrite (bind_eq (output_buf _) _ _ tt _ eq_refl).
      rewrite (pop_stack_top (STACK_VALUE (lmd_valtype md)) _ st)
        by reflexivity.
      unfold set_output, set_sstack. cbn. rewrite <- !app_assoc. reflexivity. }
  unfold ret, set_output. cbn. rewrite <- !app_assoc. reflexivity.
Qed.

End Locals.

(** *** Globals *)

Lemma decodes_mov_from_rax_disp8 w d :
  w = W32 \/ w = W64 -> -128 <= d <= 127 ->
  decodes (rex_w_prefix w ++ [0x8b; 0x40; d mod 256])
    (I_mov_r_rm w RAX (Mem (Some RAX) None 1 d)).
Proof.
  intros Hw Hd.
  assert (Hs : sign_extend 8 (d mod 256 + 256 * 0) = d).
  { rewrite Z.mul_0_r, Z.add_0_r. change 256 with (2 ^ 8).
    apply sign_extend_id; cbn; lia. }
  destruct Hw as [-> | ->]; (split; [cbn; lia|]); intros rest.
  - change (Some (I_mov_r_rm W32 RAX
                    (Mem (Some RAX) None 1
                       (sign_extend 8 (d mod 256 + 256 * 0))), 3%nat)
            = Some (I_mov_r_rm W32 RAX (Mem (Some RAX) None 1 d), 3%nat)).
    now rewrite Hs.
  - change (Some (I_mov_r_rm W64 RAX
                    (Mem (Some RAX) None 1
                       (sign_extend 8 (d mod 256 + 256 * 0))), 4%nat)
            = Some (I_mov_r_rm W64 RAX (Mem (Some RAX) None 1 d), 4%nat)).
    now rewrite Hs.
Qed.

Lemma decodes_mov_rdx_to_rax_disp8 w d :
  w = W32 \/ w = W64 -> -128 <= d <= 127 ->
  decodes (rex_w_prefix w ++ [0x89; 0x50; d mod 256])
    (I_mov_rm_r w (Mem (Some RAX) None 1 d) RDX).
Proof.
  intros Hw Hd.
  assert (Hs : sign_extend 8 (d mod 256 + 256 * 0) = d).
  { rewrite Z.mul_0_r, Z.add_0_r. change 256 with (2 ^ 8).
    apply sign_extend_id; cbn; lia. }
  destruct Hw as [-> | ->]; (split; [cbn; lia|]); intros rest.
  - change (Some (I_mov_rm_r W32
                    (Mem (Some RAX) None 1
                       (sign_extend 8 (d mod 256 + 256 * 0))) RDX, 3%nat)
            = Some (I_mov_rm_r W32 (Mem (Some RAX) None 1 d) RDX, 3%nat)).
    now rewrite Hs.
  - change (Some (I_mov_rm_r W64
                    (Mem (Some RAX) None 1
                       (sign_extend 8 (d mod 256 + 256 * 0))) RDX, 4%nat)
            = Some (I_mov_rm_r W64 (Mem (Some RAX) None 1 d) RDX, 4%nat)).
    now rewrite Hs.
Qed.

Lemma decodes_pop_rdx : decodes [0x5a] (I_pop_r RDX).
Proof. split; [cbn; lia | reflexivity]. Qed.

Lemma global_width_cases t : global_width t = W32 \/ global_width t = W64.
Proof. destruct t; auto. Qed.

Lemma linked_get_global layout module_types gidx t G :
  globaltypes module_types !! Z.to_nat gidx = Some t ->
  t <> VALTYPE_NULL ->
  -128 <= off_GlobalInst_value layout t <= 127 ->
  linked_global layout module_types OPCODE_GET_GLOBAL gidx [] G
  = Some (get_global_bytes layout t G, [STACK_VALUE t],
          [mkMemref MEMREF_GLOBAL 2 (Some gidx)]).
Proof.
  intros Ht Hn Hoff. unfold linked_global, compile_global.
  unfold bind at 1. unfold OUTS at 1, output_buf at 1, modify at 1.
  unfold bind at 1, output_n_elts at 1, gets at 1.
  unfold bind at 1, add_memref at 1, modify at 1.
  unfold bind at 1. rewrite Ht. unfold lift at 1, ret at 1.
  unfold get_global_bytes, OUTB.
  rewrite (range_test _ Hoff).
  destruct t; try contradiction; reflexivity.
Qed.

Lemma linked_set_global layout module_types gidx t G :
  globaltypes module_types !! Z.to_nat gidx = Some t ->
  t <> VALTYPE_NULL ->
  -128 <= off_GlobalInst_value layout t <= 127 ->
  linked_global layout module_types OPCODE_SET_GLOBAL gidx [STACK_VALUE t] G
  = Some (set_global_bytes layout t G, [],
          [mkMemref MEMREF_GLOBAL 3 (Some gidx)]).
Proof.
  intros Ht Hn Hoff. unfold linked_global, compile_global.
  unfold bind at 1. rewrite Ht. unfold lift at 1, ret at 1.
  unfold set_global_bytes, OUTB.
  rewrite (range_test _ Hoff).
  destruct t; try contradiction; reflexivity.
Qed.

(** [get_global] on the machine.  The translation records one Global
    relocation, on the immediate of its [movabs], and pushes a static slot
    of the type of the global; linked against the global instance at [G],
    the code pushes a cell that holds the 4 bytes (i32, f32) or 8 bytes
    (i64, f64) of the value field, zero-extended to 64 bits, and changes
    nothing else in memory. *)
Theorem get_global_pushes_value layout module_types gidx t G s :
  globaltypes module_types !! Z.to_nat gidx = Some t ->
  t <> VALTYPE_NULL ->
  -128 <= off_GlobalInst_value layout t <= 127 ->
  0 <= G < 2 ^ 64 ->
  rip s = 0%nat ->
  let w := global_width t in
  let sp' := (regs s RSP - 8) mod 2 ^ 64 in
  let v := load (width_bytes w) (mem s)
             ((G + off_GlobalInst_value layout t) mod 2 ^ 64)
           mod 2 ^ width_bits w in
  linked_global layout module_types OPCODE_GET_GLOBAL gidx [] G
  = Some (get_global_bytes layout t G, [STACK_VALUE t],
          [mkMemref MEMREF_GLOBAL 2 (Some gidx)]) /\
  exists s',
    finishes (get_global_bytes layout t G) s (Halted s') /\
    regs s' RSP = sp' /\
    mem s' = store 8 (mem s) sp' v.
Proof.
  intros Ht Hn Hoff HG Hrip w sp' v.
  split; [apply linked_get_global; assumption|].
  pose proof (global_width_cases t) as Hw. fold w in Hw.
  set (d := off_GlobalInst_value layout t) in *.
  assert (Hends : ends (get_global_bytes layout t G) s (fun out => exists s',
             out = Halted s' /\ regs s' RSP = sp' /\
             mem s' = store 8 (mem s) sp' v)).
  { set (code := get_global_bytes layout t G).
    assert (Hcode : code = [] ++ c_movabs_rax G
                       ++ (rex_w_prefix w ++ [0x8b; 0x40; d mod 256])
                       ++ [0x50] ++ [])
      by (unfold code, get_global_bytes; rewrite app_nil_r; reflexivity).
    xstep (@nil Z) (c_movabs_rax G) (decodes_movabs_rax G).
    xstep ([] ++ c_movabs_rax G) (rex_w_prefix w ++ [0x8b; 0x40; d mod 256])
      (decodes_mov_from_rax_disp8 w d Hw Hoff).
    xstep (([] ++ c_movabs_rax G)
             ++ rex_w_prefix w ++ [0x8b; 0x40; d mod 256]) [0x50]
      decodes_push_rax.
    rewrite !Zmod_mod_64, (Z.mod_small G) by exact HG.
    replace (G + 0 * 1 + d) with (G + d) by lia.
    assert (Hval : write_reg w G
                     (load (width_bytes w) (mem s) ((G + d) mod 2 ^ 64))
                   mod 2 ^ 64 = v).
    { unfold v. destruct Hw as [Hw | Hw]; rewrite Hw; cbn [write_reg width_bits].
      - apply Z.mod_small.
        pose proof (Z.mod_pos_bound
                      (load (width_bytes W32) (mem s) ((G + d) mod 2 ^ 64))
                      (2 ^ 32)). lia.
      - apply Zmod_mod_64. }
    rewrite Hval.
    eexists. split.
    { apply finishes_halted. unfold code, get_global_bytes. fold w.
      cbn [rip]. rewrite !length_app. cbn [length]. lia. }
    eexists. split; [reflexivity|]. cbn [regs mem].
    split; [apply upd_eq | reflexivity]. }
  destruct Hends as (out & Hfin & s' & -> & Hrsp & Hmem).
  exists s'. repeat split; assumption.
Qed.

(** [set_global] on the machine.  The translation wants a slot of the type
    of the global on top of the static stack, pops it and records one
    Global relocation; linked against the global instance at [G], the code
    pops the top cell and writes its low 4 bytes (i32, f32) or its 8 bytes
    (i64, f64) to the value field, and nothing else. *)
Theorem set_global_stores_value layout module_types gidx t G s :
  globaltypes module_types !! Z.to_nat gidx = Some t ->
  t <> VALTYPE_NULL ->
  -128 <= off_GlobalInst_value layout t <= 127 ->
  0 <= G < 2 ^ 64 ->
  rip s = 0%nat ->
  let w := global_width t in
  let v := load 8 (mem s) (regs s RSP) mod 2 ^ width_bits w in
  linked_global layout module_types OPCODE_SET_GLOBAL gidx [STACK_VALUE t] G
  = Some (set_global_bytes layout t G, [],
          [mkMemref MEMREF_GLOBAL 3 (Some gidx)]) /\
  exists s',
    finishes (set_global_bytes layout t G) s (Halted s') /\
    regs s' RSP = (regs s RSP + 8) mod 2 ^ 64 /\
    mem s' = store (width_bytes w) (mem s)
               ((G + off_GlobalInst_value layout t) mod 2 ^ 64) v.
Proof.
  intros Ht Hn Hoff HG Hrip w v.
  split; [apply linked_set_global; assumption|].
  pose proof (global_width_cases t) as Hw. fold w in Hw.
  set (d := off_GlobalInst_value layout t) in *.
  assert (Hends : ends (set_global_bytes layout t G) s (fun out => exists s',
             out = Halted s' /\ regs s' RSP = (regs s RSP + 8) mod 2 ^ 64 /\
             mem s' = store (width_bytes w) (mem s) ((G + d) mod 2 ^ 64) v)).
  { set (code := set_global_bytes layout t G).
    assert (Hcode : code = [] ++ [0x5a] ++ c_movabs_rax G
                       ++ (rex_w_prefix w ++ [0x89; 0x50; d mod 256]) ++ [])
      by (unfold code, set_global_bytes; rewrite app_nil_r; reflexivity).
    xstep (@nil Z) [0x5a] decodes_pop_rdx.
    xstep ([] ++ [0x5a]) (c_movabs_rax G) (decodes_movabs_rax G).
    xstep (([] ++ [0x5a]) ++ c_movabs_rax G)
      (rex_w_prefix w ++ [0x89; 0x50; d mod 256])
      (decodes_mov_rdx_to_rax_disp8 w d Hw Hoff).
    rewrite !Zmod_mod_64, (Z.mod_small G) by exact HG.
    replace (G + 0 * 1 + d) with (G + d) by lia.
    replace ((load 8 (mem s) (regs s RSP) mod 2 ^ 64) mod 2 ^ width_bits w)
      with v.
    2:{ unfold v. symmetry. apply Z.mod_mod_divide.
        destruct Hw as [-> | ->]; [exists (2 ^ 32) | exists 1]; reflexivity. }
    eexists. split.
    { apply finishes_halted. unfold code, set_global_bytes. fold w.
      cbn [rip]. rewrite !length_app. cbn [length]. lia. }
    eexists. split; [reflexivity|]. cbn [regs mem].
    split; [|reflexivity].
    rewrite upd_neq by reg_neq. rewrite upd_neq by reg_neq. apply upd_eq. }
  destruct Hends as (out & Hfin & s' & -> & Hrsp & Hmem).
  exists s'. repeat split; assumption.
Qed.


End Codes.

#[global] Existing Instance wasm_type_codes.

Local Open Scope Z_scope.


(** With the type codes of WebAssembly the tag of a label slot,
    [VALTYPE_F64 + 1], is the tag of an [f32] slot: the walk of
    [emit_br_code] stops on an [f32] value as on a label, and the label data
    it reads there is not a label's. *)
Lemma br_walk_stops_at_f32 :
  STACK_LABEL_tag = valtype_code VALTYPE_F32 /\
  br_walk [STACK_LABEL 0 0; STACK_F32] 2 0 = 1%nat /\
  emit_br_code 0 (mkState [] [None] [] [] [STACK_LABEL 0 0; STACK_F32]) = None.
Proof. repeat split. Qed.

Lemma bounds_check_offset_wraps_witness :
  access_proceeds sample_layout OPCODE_I32_LOAD 0xFFFFFFFC 0x1000 0 0x20000
    (sample_machine 0x8000 0 [(0x8000, 0); (0x1008, 65536); (0x1000, 0x20000)]).
Proof.
  refine (proj2 (proj2 (bounds_check_offset_wraps sample_layout OPCODE_I32_LOAD
            0x1000 0 65536 0x20000
            (sample_machine 0x8000 0
               [(0x8000, 0); (0x1008, 65536); (0x1000, 0x20000)]) _ _ _ _))).
  - reflexivity.
  - constructor; vm_compute; try reflexivity; try (split; congruence).
  - vm_compute. congruence.
  - reflexivity.
Defined.

Lemma check_ignores_access_width_witness :
  access_proceeds sample_layout OPCODE_I64_LOAD 0 0x1000 65529 0x20000
    (sample_machine 0x8000 0
       [(0x8000, 65529); (0x1008, 65536); (0x1000, 0x20000)]).
Proof.
  refine (proj1 (proj2 (check_ignores_access_width sample_layout
            OPCODE_I64_LOAD 0x1000 65529 65536 0x20000
            (sample_machine 0x8000 0
               [(0x8000, 65529); (0x1008, 65536); (0x1000, 0x20000)]) _ _ _))
            _ _).
  - reflexivity.
  - constructor; vm_compute; try reflexivity; try (split; congruence).
  - reflexivity.
  - reflexivity.
  - reflexivity.
Defined.

Lemma i32_const_pushes_sign_extended_witness :
  exists cs' code s',
    wasmjit_compile_instruction sample_layout [] (mkModuleTypes [] [])
      (mkFuncType [] []) [] 0 0 (Instr_i32_const 0x80000000)
      (mkState [] [] [] [] []) = Some (tt, cs') /\
    sstack cs' = [STACK_I32] /\
    output cs' = code /\
    run 1 code (sample_machine 0x8000 0 []) = Halted s' /\
    regs s' RSP = 0x7ff8 /\
    load 8 (mem s') (regs s' RSP) = 0xFFFFFFFF80000000.
Proof.
  exact (i32_const_pushes_sign_extended sample_layout [] (mkModuleTypes [] [])
           (mkFuncType [] []) [] 0 0 0x80000000 (mkState [] [] [] [] [])
           (sample_machine 0x8000 0 []) ltac:(lia) eq_refl).
Defined.

Lemma wrap_masks_cell_at_rdi_witness :
  exists s',
    finishes ([0xb8; 0xff; 0xff; 0xff; 0xff] ++ [0x48; 0x21; 0x07])
      (sample_machine 0x8000 0x9000 [(0x8000, 0xFFFFFFFFFFFFFFFF)])
      (Halted s') /\
    load 8 (mem s') (regs s' RSP) = 0xFFFFFFFFFFFFFFFF.
Proof.
  destruct (wrap_masks_cell_at_rdi sample_layout [] (mkModuleTypes [] [])
              (mkFuncType [] []) [] 0 0
              (sample_machine 0x8000 0x9000 [(0x8000, 0xFFFFFFFFFFFFFFFF)])
              0xFFFFFFFFFFFFFFFF)
    as (cs' & s' & Hc & Hout & _ & Hfin & _ & Hcell & _).
  - reflexivity.
  - vm_compute. split; congruence.
  - vm_compute. split; congruence.
  - right. vm_compute. congruence.
  - reflexivity.
  - exists s'. rewrite Hout in Hfin. split; [exact Hfin | exact Hcell].
Defined.


Lemma fix_branch_points_patches_every_entry_witness :
  let s := mkState
             [0x55; 0x48; 0x89; 0xe5; 0xcc; 0xe9; 0x90; 0x90; 0x90; 0x90;
              0xe9; 0x90; 0x90; 0x90; 0x90; 0x48; 0x8d; 0xa5; 0; 0; 0; 0;
              0xe9; 0x90; 0x90; 0x90; 0x90]
             [Some 10%nat; Some 10%nat]
             [mkBranch 5 0; mkBranch 10 1; mkBranch 22 FUNC_EXIT_CONT] [] [] in
  wasmjit_compile_instructions sample_layout [] (mkModuleTypes [] [])
    (mkFuncType [] []) [] 0 0
    [Instr_block OPCODE_BLOCK VALTYPE_NULL [Instr_br OPCODE_BR 0];
     Instr_block OPCODE_LOOP VALTYPE_NULL [Instr_br OPCODE_BR 0];
     Instr_plain OPCODE_RETURN]
    (mkState [0x55; 0x48; 0x89; 0xe5; 0xcc] [] [] [] []) = Some (tt, s) /\
  exists s',
    fix_branch_points s = Some (tt, s') /\
    take 4 (drop 6 (output s')) = [0; 0; 0; 0] /\
    take 4 (drop 11 (output s')) = [0xfb; 0xff; 0xff; 0xff] /\
    take 4 (drop 23 (output s')) = [0; 0; 0; 0].
Proof.
  intros s. split; [vm_compute; reflexivity|].
  destruct (fix_branch_points_patches_every_entry s)
    as (s' & Hrun & _ & _ & _ & Hall).
  - repeat constructor.
  - repeat constructor.
    + exists 10%nat. right. split; [discriminate | reflexivity].
    + exists 10%nat. right. split; [discriminate | reflexivity].
    + exists 27%nat. left. split; reflexivity.
  - repeat constructor; unfold apart; cbn; lia.
  - exists s'. split; [exact Hrun|].
    split; [|split].
    + refine (proj1 (proj2 (Hall (mkBranch 5 0) 10%nat _ _))).
      * apply list_elem_of_here.
      * right. split; [discriminate | reflexivity].
    + refine (proj1 (proj2 (Hall (mkBranch 10 1) 10%nat _ _))).
      * apply list_elem_of_further, list_elem_of_here.
      * right. split; [discriminate | reflexivity].
    + refine (proj1 (proj2 (Hall (mkBranch 22 FUNC_EXIT_CONT) 27%nat _ _))).
      * apply list_elem_of_further, list_elem_of_further, list_elem_of_here.
      * left. split; reflexivity.
Defined.

Lemma block_loop_label_entry_witness :
  exists s',
    wasmjit_compile_instruction sample_layout [] (mkModuleTypes [] [])
      (mkFuncType [] []) [] 0 0
      (Instr_block OPCODE_LOOP VALTYPE_NULL [Instr_i32_const 7; Instr_plain OPCODE_DROP])
      (mkState [0xcc] [] [] [] []) = Some (tt, s') /\
    labels s' !! 0%nat = Some (Some 1%nat).
Proof.
  eexists. split; [reflexivity|].
  destruct (block_loop_label_entry sample_layout [] (mkModuleTypes [] [])
              (mkFuncType [] []) [] 0 0 OPCODE_LOOP VALTYPE_NULL
              [Instr_i32_const 7; Instr_plain OPCODE_DROP]
              (mkState [0xcc] [] [] [] []) _ (or_intror eq_refl) eq_refl)
    as (s1 & _ & _ & _ & Hl).
  exact Hl.
Defined.

Lemma frame_balance_witness :
  exists body,
    wasmjit_compile_function sample_layout [] (mkModuleTypes [] [])
      (mkFuncType [] [VALTYPE_I32])
      (mkCode [(2%nat, VALTYPE_I32)] [Instr_i32_const 7]) []
    = Some (prologue_code [] 2 2 ++ body
              ++ epilogue_code (mkFuncType [] [VALTYPE_I32]) 2, []) /\
    prologue_code [] 2 2 ++ body
      ++ epilogue_code (mkFuncType [] [VALTYPE_I32]) 2
    = [0x55; 0x48; 0x89; 0xe5; 0xcc; 0x48; 0x81; 0xec; 16; 0; 0; 0;
       0x48; 0x89; 0xe7; 0x48; 0x31; 0xc0; 0x48; 0xc7; 0xc1; 2; 0; 0; 0;
       0xfc; 0xf3; 0x48; 0xab; 0x68; 7; 0; 0; 0;
       0x58; 0x48; 0x81; 0xc4; 16; 0; 0; 0; 0x5d; 0xc3].
Proof.
  assert (Hc : wasmjit_compile_function sample_layout [] (mkModuleTypes [] [])
      (mkFuncType [] [VALTYPE_I32])
      (mkCode [(2%nat, VALTYPE_I32)] [Instr_i32_const 7]) []
      = Some ([85; 72; 137; 229; 204; 72; 129; 236; 16; 0; 0; 0; 72; 137; 231;
           72; 49; 192; 72; 199; 193; 2; 0; 0; 0; 252; 243; 72; 171; 104; 7;
           0; 0; 0; 88; 72; 129; 196; 16; 0; 0; 0; 93; 195], []))
    by (vm_compute; reflexivity).
  destruct (frame_balance _ _ _ _ _ _ _ _ Hc)
    as (locals_md & n_locals & n & s2 & s3 & body & Hl & _ & _ & _ & _ & _
        & Hout & _).
  vm_compute in Hl. injection Hl as <- <- <-.
  exists body. change (take (length (input_types (mkFuncType [] [VALTYPE_I32])))
                         [mkLocalsMD VALTYPE_I32 (-8); mkLocalsMD VALTYPE_I32 (-16)])
                 with (@nil LocalsMD) in Hout.
  change (2 - length (input_types (mkFuncType [] [VALTYPE_I32])))%nat
    with 2%nat in Hout.
  rewrite <- Hout. split; [exact Hc | reflexivity].
Defined.

Lemma memrefs_mem_table_idx_zero_witness :
  exists out memrefs' appended,
    wasmjit_compile_function sample_layout [] (mkModuleTypes [] [])
      (mkFuncType [] [VALTYPE_I32])
      (mkCode [] [Instr_i32_const 0; Instr_loadstore OPCODE_I32_LOAD 2 0]) []
    = Some (out, memrefs') /\
    length memrefs' = 2%nat /\
    memrefs' = [] ++ appended /\ Forall addresses_instance_zero appended.
Proof.
  destruct (wasmjit_compile_function sample_layout [] (mkModuleTypes [] [])
      (mkFuncType [] [VALTYPE_I32])
      (mkCode [] [Instr_i32_const 0; Instr_loadstore OPCODE_I32_LOAD 2 0]) [])
    as [[out memrefs']|] eqn:Hc; [|vm_compute in Hc; discriminate].
  destruct (memrefs_mem_table_idx_zero _ _ _ _ _ _ _ _ Hc)
    as (appended & Happ & Hall).
  exists out, memrefs', appended. split; [reflexivity|].
  split; [vm_compute in Hc; injection Hc as _ <-; reflexivity|].
  split; [exact Happ | exact Hall].
Defined.

Lemma frame_layout_slots_witness :
  exists locals_md,
    frame_layout (mkFuncType [VALTYPE_I32; VALTYPE_F64] [])
      (mkCode [(2%nat, VALTYPE_I64)] []) = Some (locals_md, 4%nat, 4%nat) /\
    NoDup (map fp_offset locals_md).
Proof.
  eexists. split; [reflexivity|].
  refine (proj1 (proj2 (proj2 (frame_layout_slots
            (mkFuncType [VALTYPE_I32; VALTYPE_F64] [])
            (mkCode [(2%nat, VALTYPE_I64)] []) _ 4%nat 4%nat _)))).
  reflexivity.
Defined.

Lemma arith_in_place_witness :
  exists code s',
    finishes code
      (sample_machine 0x8000 0 [(0x8000, 3); (0x8008, 10)]) (Halted s') /\
    regs s' RSP = 0x8008 /\ load 8 (mem s') 0x8008 = 7.
Proof.
  destruct (arith_in_place sample_layout [] (mkModuleTypes [] [])
              (mkFuncType [] []) [] 0 0 OPCODE_I32_SUB SUB
              (mkState [] [] [] [] [STACK_I32; STACK_I32]) []
              (sample_machine 0x8000 0 [(0x8000, 3); (0x8008, 10)])
              eq_refl eq_refl eq_refl)
    as (cs' & code & s' & _ & _ & _ & Hfin & Hrsp & Hmem).
  exists code, s'. split; [exact Hfin|]. split; [exact Hrsp|].
  rewrite Hmem. vm_compute. reflexivity.
Defined.

Lemma const64_pushes_immediate_witness :
  exists code s',
    finishes code (sample_machine 0x8000 0 []) (Halted s') /\
    regs s' RSP = 0x7ff8 /\
    load 8 (mem s') (regs s' RSP) = 0x0123456789abcdef.
Proof.
  destruct (const64_pushes_immediate sample_layout [] (mkModuleTypes [] [])
              (mkFuncType [] []) [] 0 0 (Instr_i64_const 0x0123456789abcdef)
              VALTYPE_I64 0x0123456789abcdef (mkState [] [] [] [] [])
              (sample_machine 0x8000 0 []) (or_introl (conj eq_refl eq_refl))
              eq_refl)
    as (cs' & code & s' & _ & _ & _ & Hfin & Hrsp & _ & Hload).
  exists code, s'. split; [exact Hfin|]. split; [exact Hrsp | exact Hload].
Defined.

Lemma i32_const_small_zero_extended_witness :
  exists code s',
    run 1 code (sample_machine 0x8000 0 []) = Halted s' /\
    load 8 (mem s') (regs s' RSP) = 0x7fffffff.
Proof.
  destruct (i32_const_small_zero_extended sample_layout [] (mkModuleTypes [] [])
              (mkFuncType [] []) [] 0 0 0x7fffffff (mkState [] [] [] [] [])
              (sample_machine 0x8000 0 []) ltac:(lia) eq_refl)
    as (cs' & code & s' & _ & _ & _ & Hrun & _ & Hload).
  exists code, s'. split; [exact Hrun | exact Hload].
Defined.

Lemma drop_discards_top_witness :
  exists cs' s',
    wasmjit_compile_instruction sample_layout [] (mkModuleTypes [] [])
      (mkFuncType [] []) [] 0 0 (Instr_plain OPCODE_DROP)
      (mkState [] [] [] [] [STACK_I32; STACK_I64]) = Some (tt, cs') /\
    sstack cs' = [STACK_I32] /\
    finishes [0x48; 0x83; 0xc4; 0x08] (sample_machine 0x8000 0 []) (Halted s') /\
    regs s' RSP = 0x8008.
Proof.
  destruct (drop_discards_top sample_layout [] (mkModuleTypes [] [])
              (mkFuncType [] []) [] 0 0
              (mkState [] [] [] [] [STACK_I32; STACK_I64])
              (sample_machine 0x8000 0 []) eq_refl)
    as (cs' & s' & Hc & Hst & _ & Hfin & Hrsp & _).
  exists cs', s'. repeat split; assumption.
Defined.

Lemma function_entry_breakpoint_witness :
  let out := [0x55; 0x48; 0x89; 0xe5; 0xcc; 0x68; 0x07; 0x00; 0x00; 0x00;
              0x58; 0x5d; 0xc3] in
  exists s2,
    run 2 out (sample_machine 0x8000 0 []) = OutOfFuel s2 /\
    regs s2 RSP = 0x7ff8 /\ regs s2 RBP = 0x7ff8 /\
    step out s2 = Trap 3 /\
    finishes out (sample_machine 0x8000 0 []) (Trapped 3).
Proof.
  intros out.
  assert (Hc : wasmjit_compile_function sample_layout [] (mkModuleTypes [] [])
                 (mkFuncType [] [VALTYPE_I32]) (mkCode [] [Instr_i32_const 7]) []
               = Some (out, [])) by (vm_compute; reflexivity).
  destruct (function_entry_breakpoint _ _ _ _ _ _ _ _
              (sample_machine 0x8000 0 []) Hc eq_refl)
    as (locals_md & n_locals & n & rest & s2 & _ & _ & Hrun & _ & Hsp & Hbp
        & _ & _ & Hstep & Hfin).
  exists s2. split; [exact Hrun|]. split; [exact Hsp|].
  split; [rewrite Hbp; exact Hsp|]. split; [exact Hstep | exact Hfin].
Defined.

Lemma fix_branches_succeeds_iff_witness :
  is_Some (fix_branches [mkBranch 0 FUNC_EXIT_CONT; mkBranch 5 0]
             (mkState [0xe9; 0x90; 0x90; 0x90; 0x90; 0xe9; 0x90; 0x90; 0x90; 0x90]
                [Some 0%nat] [] [] [])).
Proof.
  apply (proj2 (fix_branches_succeeds_iff _ _)).
  repeat constructor.
  - exists 10%nat. left. split; reflexivity.
  - exists 0%nat. right. split; [discriminate | reflexivity].
Defined.

Lemma fix_branches_touches_sites_only_witness :
  exists s',
    fix_branches [mkBranch 1 FUNC_EXIT_CONT]
      (mkState [0xcc; 0xe9; 0x90; 0x90; 0x90; 0x90; 0xc3] [] [] [] [])
    = Some (tt, s') /\
    output s' !! 0%nat = Some 0xcc /\ output s' !! 6%nat = Some 0xc3.
Proof.
  eexists. split; [reflexivity|].
  split;
    refine (proj2 (proj2 (proj2 (proj2 (proj2
              (fix_branches_touches_sites_only [mkBranch 1 FUNC_EXIT_CONT]
                 (mkState [0xcc; 0xe9; 0x90; 0x90; 0x90; 0x90; 0xc3] [] [] [] [])
                 _ eq_refl))))) _ _);
    repeat constructor; cbn; lia.
Defined.

Lemma loadstore_traps_or_accesses_witness :
  access_traps sample_layout OPCODE_I64_STORE 8 0x1000
    (sample_machine 0x8000 0
       [(0x8000, 7); (0x8008, 65530); (0x1008, 65536); (0x1000, 0x20000)]).
Proof.
  refine (proj2 (loadstore_traps_or_accesses sample_layout OPCODE_I64_STORE 8
            0x1000 65530 65536 0x20000
            (sample_machine 0x8000 0
               [(0x8000, 7); (0x8008, 65530); (0x1008, 65536);
                (0x1000, 0x20000)]) _ _)).
  - reflexivity.
  - constructor; vm_compute; try reflexivity; try (split; congruence).
Defined.

Lemma loadstore_in_range_witness :
  let s := sample_machine 0x8000 0
             [(0x8000, 7); (0x8008, 100); (0x1008, 65536); (0x1000, 0x20000)] in
  linked_loadstore sample_layout OPCODE_I32_STORE 16 0x1000
    = Some (loadstore_bytes sample_layout OPCODE_I32_STORE 16 0x1000) /\
  exists s',
    finishes (loadstore_bytes sample_layout OPCODE_I32_STORE 16 0x1000) s
      (Halted s') /\
    regs s' RSP = 0x8010 /\
    load 4 (mem s') (0x20000 + 100 + 16) = 7 /\
    load 4 (mem s) (0x20000 + 100 + 16) = 0.
Proof.
  intros s.
  destruct (loadstore_in_range sample_layout OPCODE_I32_STORE 16
              0x1000 100 65536 0x20000 s) as (Hlink & _ & Hgo).
  - reflexivity.
  - constructor; vm_compute; try reflexivity; try (split; congruence).
  - lia.
  - lia.
  - lia.
  - lia.
  - split; [exact Hlink|].
    destruct Hgo as (s' & Hfin & Hsp & Hmem); [lia|].
    exists s'. split; [exact Hfin|]. split; [exact Hsp|].
    split; [rewrite Hmem; vm_compute; reflexivity | vm_compute; reflexivity].
Defined.

Lemma block_result_stack_witness :
  (exists s',
     wasmjit_compile_instruction sample_layout [] (mkModuleTypes [] [])
       (mkFuncType [] []) [] 0 0
       (Instr_block OPCODE_BLOCK VALTYPE_I32
          [Instr_i32_const 1; Instr_i32_const 2])
       (mkState [] [] [] [] [STACK_I64]) = Some (tt, s') /\
     sstack s' = [STACK_I64; STACK_I32]) /\
  (exists s',
     wasmjit_compile_instruction sample_layout [] (mkModuleTypes [] [])
       (mkFuncType [] []) [] 0 0
       (Instr_block OPCODE_BLOCK VALTYPE_I32 [Instr_plain OPCODE_UNREACHABLE])
       (mkState [] [] [] [] [STACK_I64]) = Some (tt, s') /\
     sstack s' = [STACK_I64; STACK_LABEL 1 0]).
Proof.
  split.
  - destruct (wasmjit_compile_instruction sample_layout [] (mkModuleTypes [] [])
                (mkFuncType [] []) [] 0 0
                (Instr_block OPCODE_BLOCK VALTYPE_I32
                   [Instr_i32_const 1; Instr_i32_const 2])
                (mkState [] [] [] [] [STACK_I64]))
      as [[[] s']|] eqn:Hc; [|vm_compute in Hc; discriminate].
    exists s'. split; [reflexivity|].
    destruct (block_result_stack sample_layout [] (mkModuleTypes [] [])
                (mkFuncType [] []) [] 0 0 OPCODE_BLOCK VALTYPE_I32
                [Instr_i32_const 1; Instr_i32_const 2]
                (mkState [] [] [] [] [STACK_I64]) s' (or_introl eq_refl) Hc)
      as (s1 & Hbody & _ & _ & Hcases).
    vm_compute in Hbody. injection Hbody as <-.
    apply (proj1 (Hcases [STACK_I32; STACK_I32] eq_refl)). cbn. lia.
  - destruct (wasmjit_compile_instruction sample_layout [] (mkModuleTypes [] [])
                (mkFuncType [] []) [] 0 0
                (Instr_block OPCODE_BLOCK VALTYPE_I32
                   [Instr_plain OPCODE_UNREACHABLE])
                (mkState [] [] [] [] [STACK_I64]))
      as [[[] s']|] eqn:Hc; [|vm_compute in Hc; discriminate].
    exists s'. split; [reflexivity|].
    destruct (block_result_stack sample_layout [] (mkModuleTypes [] [])
                (mkFuncType [] []) [] 0 0 OPCODE_BLOCK VALTYPE_I32
                [Instr_plain OPCODE_UNREACHABLE]
                (mkState [] [] [] [] [STACK_I64]) s' (or_introl eq_refl) Hc)
      as (s1 & Hbody & _ & _ & Hcases).
    vm_compute in Hbody. injection Hbody as <-.
    apply (proj2 (Hcases [] eq_refl)). cbn. lia.
Defined.

Lemma i32_eqz_loses_immediate_witness :
  wasmjit_compile_instruction sample_layout [] (mkModuleTypes [] [])
    (mkFuncType [] []) [] 0 0 (Instr_plain OPCODE_I32_EQZ)
    (mkState [] [] [] [] [STACK_I32])
  = Some (tt, mkState [0x31; 0xc0; 0x83; 0x3c; 0x24; 0x0f; 0x94; 0xc0;
                       0x89; 0x04; 0x24] [] [] [] [STACK_I32]).
Proof.
  exact (proj1 (i32_eqz_loses_immediate sample_layout [] (mkModuleTypes [] [])
                  (mkFuncType [] []) [] 0 0
                  (mkState [] [] [] [] [STACK_I32]) [] eq_refl)).
Defined.


Lemma get_then_set_local_witness :
  wasmjit_compile_instructions sample_layout [] (mkModuleTypes [] [])
    (mkFuncType [] []) [mkLocalsMD VALTYPE_I64 (-8)] 1 1
    [Instr_local OPCODE_GET_LOCAL 0; Instr_local OPCODE_SET_LOCAL 0]
    (mkState [] [] [] [] [])
  = Some (tt, mkState [0xff; 0xb5; 0xf8; 0xff; 0xff; 0xff;
                       0x8f; 0x85; 0xf8; 0xff; 0xff; 0xff] [] [] [] []).
Proof.
  refine (eq_trans (get_then_set_local sample_layout [] (mkModuleTypes [] [])
            (mkFuncType [] []) [mkLocalsMD VALTYPE_I64 (-8)] 1 1 0
            (mkLocalsMD VALTYPE_I64 (-8)) (mkState [] [] [] [] []) _ _ _) _).
  - lia.
  - reflexivity.
  - discriminate.
  - vm_compute. reflexivity.
Defined.

Lemma get_global_pushes_value_witness :
  exists s',
    finishes (get_global_bytes sample_layout VALTYPE_I32 0x1000)
      (sample_machine 0x8000 0 [(0x1000, 0x1122334455667788)]) (Halted s') /\
    regs s' RSP = 0x7ff8 /\
    load 8 (mem s') 0x7ff8 = 0x55667788.
Proof.
  destruct (get_global_pushes_value sample_layout
              (mkModuleTypes [] [VALTYPE_I32]) 0 VALTYPE_I32 0x1000
              (sample_machine 0x8000 0 [(0x1000, 0x1122334455667788)]))
    as (_ & s' & Hfin & Hrsp & Hmem).
  - reflexivity.
  - discriminate.
  - vm_compute. split; congruence.
  - lia.
  - reflexivity.
  - exists s'. split; [exact Hfin|]. split; [exact Hrsp|].
    rewrite Hmem. vm_compute. reflexivity.
Defined.

Lemma set_global_stores_value_witness :
  exists s',
    finishes (set_global_bytes sample_layout VALTYPE_I32 0x1000)
      (sample_machine 0x8000 0
         [(0x8000, 0xaabbccdd00000007); (0x1000, 0x1122334455667788)])
      (Halted s') /\
    regs s' RSP = 0x8008 /\
    load 8 (mem s') 0x1000 = 0x1122334400000007.
Proof.
  destruct (set_global_stores_value sample_layout
              (mkModuleTypes [] [VALTYPE_I32]) 0 VALTYPE_I32 0x1000
              (sample_machine 0x8000 0
                 [(0x8000, 0xaabbccdd00000007); (0x1000, 0x1122334455667788)]))
    as (_ & s' & Hfin & Hrsp & Hmem).
  - reflexivity.
  - discriminate.
  - vm_compute. split; congruence.
  - lia.
  - reflexivity.
  - exists s'. split; [exact Hfin|]. split; [exact Hrsp|].
    rewrite Hmem. vm_compute. reflexivity.
Defined.
